(** * A shallow embedding of the hand-written Promise/A+ container

    Source: [src/手写PromiseA+/index.js] (class [_Promise]).

    JavaScript objects live on a heap; the closures the class creates are
    represented by the data they capture (one constructor per closure of the
    source); the host's deferred-callback queue ([createMicroTask]) is an
    explicit FIFO list in the world. *)

From Stdlib Require Import ZArith String List Lia Bool.
From stdpp Require Import base list relations.
Import ListNotations.
Local Open Scope nat_scope.

(** ** JavaScript values *)

(** Values the promise machinery can be handed.  A foreign object is
    described by what reading and calling its [then] member does: the body of
    a callable [then] is a script of calls to the two continuations it
    receives, possibly raising, possibly postponing part of its work to a
    timer ([Later]). *)
Local Unset Elimination Schemes.
Inductive Value : Type :=
| VUndefined
| VNull
| VNum (n : Z)
| VStr (s : string)
| VTypeError (msg : string)
| VArray (xs : list Value)
| VFulfilledRec (value : Value)
| VRejectedRec (reason : Value)
| VPromise (addr : nat)
| VPlainObject
| VThrowingThen (e : Value)
| VThenable (body : list Act)
with Act : Type :=
| CallResolve (v : Value)
| CallReject (r : Value)
| Raise (e : Value)
| Later (body : list Act).
Local Set Elimination Schemes.

(** [typeof value === "object" || typeof value === "function"] and
    [value !== null]. *)
Definition is_object (value : Value) : bool :=
  match value with
  | VUndefined | VNull | VNum _ | VStr _ => false
  | _ => true
  end.

(** What a host function does when called: return a value or raise one. *)
Inductive Result : Type :=
| Return (v : Value)
| Throw (e : Value).

(** [PROMISE_STATUS] *)
Inductive State : Type := Pending | Fulfilled | Rejected.

(** ** Function values

    Every function value the class creates or receives.  [HostFn] is a
    function of the host program, identified by a tag under which its calls
    are recorded; the other constructors are the closures of the source,
    carrying what they capture. *)
Local Unset Elimination Schemes.
Inductive Handler : Type :=
| HostFn (tag : nat) (f : list Value -> Result)
| HIdentity                              (* (result) => result, line 122 *)
| HThrower                               (* (reason) => { throw reason }, line 128 *)
| HFinallyThen (callback : option Handler)   (* line 207 *)
| HFinallyCatch (callback : option Handler)  (* line 211 *)
| HOnResolved (latch promise : nat)      (* line 92 *)
| HOnRejected (latch promise : nat)      (* line 97 *)
| HResolveOf (p : nat)                   (* this.#resolve.bind(this) *)
| HRejectOf (p : nat)                    (* this.#reject.bind(this) *)
| HAllItem (cell index p : nat)          (* line 265 *)
| HRaceItem (p : nat)                    (* line 284 *)
| HSettledFulfilled (cell index p : nat) (* line 301 *)
| HSettledRejected (cell index p : nat). (* line 311 *)
Local Set Elimination Schemes.

Inductive Kind : Type := OnFulfilled | OnRejected.

(** The closure [then] pushes on a queue or hands to [createMicroTask]:
    it reads [this.#result] or [this.#reason], calls the handler and feeds
    the outcome to [nextPromise]. *)
Record Reaction : Type := mkReaction {
  r_this : nat;
  r_kind : Kind;
  r_handler : Handler;
  r_next : nat;
}.

Inductive Task : Type :=
| TReaction (r : Reaction)
| TLater (onResolved onRejected : Handler) (body : list Act).

Record PromiseRec : Type := mkPromise {
  state : State;
  result : Value;
  reason : Value;
  onFulfilledCallbacks : list Reaction;
  onRejectedCallbacks : list Reaction;
}.

(** The variables [restNum] and [results] shared by the callbacks of one
    call of [all] or [allSettled]. *)
Record Cell : Type := mkCell {
  restNum : Z;
  results : list Value;
}.

Record World : Type := mkWorld {
  heap : list PromiseRec;
  latches : list bool;
  cells : list Cell;
  microtasks : list Task;
  timers : list Task;
  trace : list (nat * list Value);
  uncaught : list Value;
}.

Definition empty_world : World := mkWorld [] [] [] [] [] [] [].

Inductive Outcome (A : Type) : Type :=
| Normal (a : A) (w : World)
| Raised (e : Value) (w : World).
Arguments Normal {A} a w.
Arguments Raised {A} e w.

Definition world_of {A} (o : Outcome A) : World :=
  match o with Normal _ w | Raised _ w => w end.

(** *** Field updates *)

Definition set_heap (h : list PromiseRec) (w : World) : World :=
  mkWorld h (latches w) (cells w) (microtasks w) (timers w) (trace w) (uncaught w).
Definition set_latches (l : list bool) (w : World) : World :=
  mkWorld (heap w) l (cells w) (microtasks w) (timers w) (trace w) (uncaught w).
Definition set_cells (c : list Cell) (w : World) : World :=
  mkWorld (heap w) (latches w) c (microtasks w) (timers w) (trace w) (uncaught w).
Definition set_microtasks (q : list Task) (w : World) : World :=
  mkWorld (heap w) (latches w) (cells w) q (timers w) (trace w) (uncaught w).
Definition set_timers (q : list Task) (w : World) : World :=
  mkWorld (heap w) (latches w) (cells w) (microtasks w) q (trace w) (uncaught w).
Definition set_trace (t : list (nat * list Value)) (w : World) : World :=
  mkWorld (heap w) (latches w) (cells w) (microtasks w) (timers w) t (uncaught w).
Definition set_uncaught (u : list Value) (w : World) : World :=
  mkWorld (heap w) (latches w) (cells w) (microtasks w) (timers w) (trace w) u.

Definition fresh_promise : PromiseRec := mkPromise Pending VUndefined VUndefined [] [].

Definition update_promise (p : nat) (f : PromiseRec -> PromiseRec) (w : World) : World :=
  match heap w !! p with
  | Some rec => set_heap (<[p := f rec]> (heap w)) w
  | None => w
  end.

Definition state_of (p : nat) (w : World) : option State := state <$> heap w !! p.
Definition result_of (p : nat) (w : World) : Value :=
  match heap w !! p with Some rec => result rec | None => VUndefined end.
Definition reason_of (p : nat) (w : World) : Value :=
  match heap w !! p with Some rec => reason rec | None => VUndefined end.

Definition queue (k : Kind) (rec : PromiseRec) : list Reaction :=
  match k with
  | OnFulfilled => onFulfilledCallbacks rec
  | OnRejected => onRejectedCallbacks rec
  end.

Definition set_queue (k : Kind) (q : list Reaction) (rec : PromiseRec) : PromiseRec :=
  match k with
  | OnFulfilled => mkPromise (state rec) (result rec) (reason rec) q (onRejectedCallbacks rec)
  | OnRejected => mkPromise (state rec) (result rec) (reason rec) (onFulfilledCallbacks rec) q
  end.

(** ** The host's queues *)

(** [createMicroTask(fn)]: whichever branch of the ladder the host supports,
    [fn] is put at the back of a queue and the call returns. *)
Definition createMicroTask (fn : Task) (w : World) : World :=
  set_microtasks (microtasks w ++ [fn]) w.

(** [setTimeout(fn)], as used by a thenable that calls back later. *)
Definition setTimeout (fn : Task) (w : World) : World :=
  set_timers (timers w ++ [fn]) w.

(** ** Settlement: [#resolve] and [#reject] *)

(** [while (queue.length) queue.shift()(...)]: every entry of a queue is the
    closure of lines 166 or 176, whose call hands the reaction to
    [createMicroTask].  [n] bounds the number of iterations. *)
Fixpoint drain (k : Kind) (n : nat) (p : nat) (w : World) : World :=
  match n with
  | O => w
  | S n' =>
      match heap w !! p with
      | Some rec =>
          match queue k rec with
          | [] => w
          | cb :: rest =>
              let w1 := update_promise p (set_queue k rest) w in
              drain k n' p (createMicroTask (TReaction cb) w1)
          end
      | None => w
      end
  end.

Definition queue_length (k : Kind) (p : nat) (w : World) : nat :=
  match heap w !! p with Some rec => length (queue k rec) | None => 0 end.

(** [#resolve(result)] *)
Definition p_resolve (p : nat) (v : Value) (w : World) : World :=
  match state_of p w with
  | Some Pending =>
      let w1 := update_promise p (fun rec =>
        mkPromise Fulfilled v (reason rec)
                  (onFulfilledCallbacks rec) (onRejectedCallbacks rec)) w in
      drain OnFulfilled (queue_length OnFulfilled p w1) p w1
  | _ => w
  end.

(** [#reject(reason)] *)
Definition p_reject (p : nat) (r : Value) (w : World) : World :=
  match state_of p w with
  | Some Pending =>
      let w1 := update_promise p (fun rec =>
        mkPromise Rejected (result rec) r
                  (onFulfilledCallbacks rec) (onRejectedCallbacks rec)) w in
      drain OnRejected (queue_length OnRejected p w1) p w1
  | _ => w
  end.

(** ** Construction and [then] *)

(** [new _Promise(executor)] before the executor runs: a pending container
    with empty queues at the next free address. *)
Definition new_Promise (w : World) : nat * World :=
  (length (heap w), set_heap (heap w ++ [fresh_promise]) w).

(** [then(onFulfilled, onRejected)]; [None] is any argument that is not a
    function. *)
Definition then_ (this : nat) (onFulfilled onRejected : option Handler)
    (w : World) : nat * World :=
  let onFulfilled := default HIdentity onFulfilled in
  let onRejected := default HThrower onRejected in
  let '(nextPromise, w1) := new_Promise w in
  let w2 :=
    match state_of this w1 with
    | Some Fulfilled =>
        createMicroTask (TReaction (mkReaction this OnFulfilled onFulfilled nextPromise)) w1
    | Some Rejected =>
        createMicroTask (TReaction (mkReaction this OnRejected onRejected nextPromise)) w1
    | Some Pending =>
        update_promise this (fun rec =>
          mkPromise (state rec) (result rec) (reason rec)
            (onFulfilledCallbacks rec ++ [mkReaction this OnFulfilled onFulfilled nextPromise])
            (onRejectedCallbacks rec ++ [mkReaction this OnRejected onRejected nextPromise])) w1
    | None => w1
    end in
  (nextPromise, w2).

(** [catch(onRejected)] *)
Definition catch_ (this : nat) (onRejected : option Handler) (w : World) : nat * World :=
  then_ this None onRejected w.

(** [finally(callback)] *)
Definition finally_ (this : nat) (callback : option Handler) (w : World) : nat * World :=
  then_ this (Some (HFinallyThen callback)) (Some (HFinallyCatch callback)) w.

(** ** The resolution procedure *)

Definition new_latch (w : World) : nat * World :=
  (length (latches w), set_latches (latches w ++ [false]) w).
Definition fired (l : nat) (w : World) : bool := default false (latches w !! l).
Definition fire (l : nat) (w : World) : World := set_latches (<[l := true]> (latches w)) w.

Definition cycle_error : Value := VTypeError "No cycle chaining"%string.

Section ThenBody.
(** Running the body of a foreign [then] that was called with the
    continuations [onResolved] and [onRejected].  A continuation that
    raises aborts the body, as does [Raise]. *)
Variables onResolved onRejected : Value -> World -> Outcome unit.
Variable defer : list Act -> World -> World.

Fixpoint run_body (body : list Act) (w : World) : Outcome unit :=
  match body with
  | [] => Normal tt w
  | CallResolve v :: rest =>
      match onResolved v w with
      | Normal _ w' => run_body rest w'
      | Raised e w' => Raised e w'
      end
  | CallReject r :: rest =>
      match onRejected r w with
      | Normal _ w' => run_body rest w'
      | Raised e w' => Raised e w'
      end
  | Raise e :: _ => Raised e w
  | Later b :: rest => run_body rest (defer b w)
  end.
End ThenBody.

(** [#resolveNextPromise(promise, value, resolve, reject)].  At each of its
    call sites (lines 95, 147, 158, 170, 180) [resolve] and [reject] are the
    settlement functions of [promise], so the address is passed once. *)
Fixpoint resolveNextPromise (promise : nat) (value : Value) (w : World)
    {struct value} : Outcome unit :=
  match value with
  | VUndefined | VNull | VNum _ | VStr _ => Normal tt (p_resolve promise value w)
  | VPromise q =>
      if Nat.eqb q promise then Raised cycle_error w
      else
        let '(HAS_CALLED, w1) := new_latch w in
        Normal tt (snd (then_ q (Some (HOnResolved HAS_CALLED promise))
                              (Some (HOnRejected HAS_CALLED promise)) w1))
  | VThrowingThen e =>
      let '(HAS_CALLED, w1) := new_latch w in
      Normal tt (p_reject promise e (fire HAS_CALLED w1))
  | VThenable body =>
      let '(HAS_CALLED, w1) := new_latch w in
      match run_body
              (fun result w =>
                 if fired HAS_CALLED w then Normal tt w
                 else resolveNextPromise promise result (fire HAS_CALLED w))
              (fun reason w =>
                 if fired HAS_CALLED w then Normal tt w
                 else Normal tt (p_reject promise reason (fire HAS_CALLED w)))
              (fun b w =>
                 setTimeout (TLater (HOnResolved HAS_CALLED promise)
                                    (HOnRejected HAS_CALLED promise) b) w)
              body w1 with
      | Normal _ w2 => Normal tt w2
      | Raised error w2 =>
          if fired HAS_CALLED w2 then Normal tt w2
          else Normal tt (p_reject promise error (fire HAS_CALLED w2))
      end
  | VTypeError _ | VArray _ | VFulfilledRec _ | VRejectedRec _ | VPlainObject =>
      let '(HAS_CALLED, w1) := new_latch w in
      Normal tt (p_resolve promise value (fire HAS_CALLED w1))
  end.

(** ** Calling a function value *)

Definition arg0 (args : list Value) : Value := default VUndefined (args !! 0).

(** [results[index] = res] on a JavaScript array: an index past the end
    extends the array, the skipped positions reading [undefined]. *)
Definition array_set (index : nat) (res : Value) (xs : list Value) : list Value :=
  if decide (index < length xs) then <[index := res]> xs
  else xs ++ replicate (index - length xs) VUndefined ++ [res].

Definition restNum_of (c : nat) (w : World) : Z :=
  match cells w !! c with Some cell => restNum cell | None => 0%Z end.
Definition results_of (c : nat) (w : World) : list Value :=
  match cells w !! c with Some cell => results cell | None => [] end.
Definition update_cell (c : nat) (f : Cell -> Cell) (w : World) : World :=
  match cells w !! c with
  | Some cell => set_cells (<[c := f cell]> (cells w)) w
  | None => w
  end.

(** The body shared by the item callbacks of [all] and [allSettled]:
    [results[index] = entry; restNum--; if (restNum === 0) resolve(results)].
    The array handed to [resolve] is not written again afterwards (every
    item callback has run by then), so its contents are taken at the call. *)
Definition record_item (c index p : nat) (entry : Value) (w : World) : World :=
  let w1 := update_cell c (fun cell =>
              mkCell (restNum cell) (array_set index entry (results cell))) w in
  let w2 := update_cell c (fun cell => mkCell (restNum cell - 1) (results cell)) w1 in
  if (restNum_of c w2 =? 0)%Z then p_resolve p (VArray (results_of c w2)) w2 else w2.

Definition log_call (tag : nat) (args : list Value) (w : World) : World :=
  set_trace (trace w ++ [(tag, args)]) w.

Definition not_a_function : Value := VTypeError "callback is not a function"%string.

Fixpoint call (fn : Handler) (args : list Value) (w : World) : Outcome Value :=
  match fn with
  | HostFn tag f =>
      let w' := log_call tag args w in
      match f args with
      | Return v => Normal v w'
      | Throw e => Raised e w'
      end
  | HIdentity => Normal (arg0 args) w
  | HThrower => Raised (arg0 args) w
  | HFinallyThen callback =>
      match callback with
      | Some cb =>
          match call cb [] w with
          | Normal _ w' => Normal (arg0 args) w'
          | Raised e w' => Raised e w'
          end
      | None => Raised not_a_function w
      end
  | HFinallyCatch callback =>
      match callback with
      | Some cb =>
          match call cb [] w with
          | Normal _ w' => Raised (arg0 args) w'
          | Raised e w' => Raised e w'
          end
      | None => Raised not_a_function w
      end
  | HOnResolved HAS_CALLED promise =>
      if fired HAS_CALLED w then Normal VUndefined w
      else
        match resolveNextPromise promise (arg0 args) (fire HAS_CALLED w) with
        | Normal _ w' => Normal VUndefined w'
        | Raised e w' => Raised e w'
        end
  | HOnRejected HAS_CALLED promise =>
      if fired HAS_CALLED w then Normal VUndefined w
      else Normal VUndefined (p_reject promise (arg0 args) (fire HAS_CALLED w))
  | HResolveOf p => Normal VUndefined (p_resolve p (arg0 args) w)
  | HRejectOf p => Normal VUndefined (p_reject p (arg0 args) w)
  | HAllItem c index p => Normal VUndefined (record_item c index p (arg0 args) w)
  | HRaceItem p => Normal VUndefined (p_resolve p (arg0 args) w)
  | HSettledFulfilled c index p =>
      Normal VUndefined (record_item c index p (VFulfilledRec (arg0 args)) w)
  | HSettledRejected c index p =>
      Normal VUndefined (record_item c index p (VRejectedRec (arg0 args)) w)
  end.

(** A continuation as a foreign [then] sees it: called with one argument,
    its return value unused. *)
Definition continuation (fn : Handler) (v : Value) (w : World) : Outcome unit :=
  match call fn [v] w with
  | Normal _ w' => Normal tt w'
  | Raised e w' => Raised e w'
  end.

(** ** Deferred turns *)

(** The closure handed to [createMicroTask] by [then] (lines 144-151 and
    their three copies). *)
Definition run_reaction (r : Reaction) (w : World) : World :=
  let arg := match r_kind r with
             | OnFulfilled => result_of (r_this r) w
             | OnRejected => reason_of (r_this r) w
             end in
  match call (r_handler r) [arg] w with
  | Normal value w1 =>
      match resolveNextPromise (r_next r) value w1 with
      | Normal _ w2 => w2
      | Raised error w2 => p_reject (r_next r) error w2
      end
  | Raised error w1 => p_reject (r_next r) error w1
  end.

Definition run_task (t : Task) (w : World) : World :=
  match t with
  | TReaction r => run_reaction r w
  | TLater onResolved onRejected body =>
      match run_body (continuation onResolved) (continuation onRejected)
                     (fun b w => setTimeout (TLater onResolved onRejected b) w)
                     body w with
      | Normal _ w' => w'
      | Raised e w' => set_uncaught (uncaught w' ++ [e]) w'
      end
  end.

(** One turn of the host's loop: the oldest microtask, or, when there is
    none, the oldest timer. *)
Definition turn (w : World) : option World :=
  match microtasks w with
  | t :: rest => Some (run_task t (set_microtasks rest w))
  | [] =>
      match timers w with
      | t :: rest => Some (run_task t (set_timers rest w))
      | [] => None
      end
  end.

Fixpoint run (turns : nat) (w : World) : World :=
  match turns with
  | O => w
  | S n => match turn w with Some w' => run n w' | None => w end
  end.

Definition quiescent (w : World) : Prop := microtasks w = [] /\ timers w = [].

(** ** Construction by the host program *)

Definition not_an_executor : Value :=
  VTypeError "_Promise executor is not a function"%string.

(** [new _Promise(executor)] for an executor of the host program.  [None] is
    an argument that is not a function; a function is given by what it does
    with the two settlement functions it receives, in the form of a [then]
    body. *)
Definition construct (executor : option (list Act)) (w : World) : Outcome nat :=
  match executor with
  | None => Raised not_an_executor w
  | Some body =>
      let '(p, w1) := new_Promise w in
      match run_body (continuation (HResolveOf p)) (continuation (HRejectOf p))
                     (fun b w => setTimeout (TLater (HResolveOf p) (HRejectOf p) b) w)
                     body w1 with
      | Normal _ w2 => Normal p w2
      | Raised error w2 => Normal p (p_reject p error w2)
      end
  end.

(** ** Static methods *)

(** [_Promise.resolve(value)] *)
Definition Promise_resolve (value : Value) (w : World) : nat * World :=
  match value with
  | VPromise q => (q, w)
  | VUndefined | VNull | VNum _ | VStr _ =>
      let '(p, w1) := new_Promise w in (p, p_resolve p value w1)
  | VThrowingThen e =>
      let '(p, w1) := new_Promise w in (p, p_reject p e w1)
  | VThenable body =>
      let '(p, w1) := new_Promise w in
      match run_body (continuation (HResolveOf p)) (continuation (HRejectOf p))
                     (fun b w => setTimeout (TLater (HResolveOf p) (HRejectOf p) b) w)
                     body w1 with
      | Normal _ w2 => (p, w2)
      | Raised error w2 => (p, p_reject p error w2)
      end
  | VTypeError _ | VArray _ | VFulfilledRec _ | VRejectedRec _ | VPlainObject =>
      let '(p, w1) := new_Promise w in (p, p_resolve p value w1)
  end.

(** [_Promise.reject(value)] *)
Definition Promise_reject (value : Value) (w : World) : nat * World :=
  let '(p, w1) := new_Promise w in (p, p_reject p value w1).

Definition new_cell (w : World) : nat * World :=
  (length (cells w), set_cells (cells w ++ [mkCell 0 []]) w).

(** One iteration of the [for (const item of target)] loops of [all] and
    [allSettled]: [index = restNum++], then the registration. *)
Definition register_item (c : nat) (onF onR : nat -> Handler) (w : World)
    (item : Value) : World :=
  let index := Z.to_nat (restNum_of c w) in
  let w1 := update_cell c (fun cell => mkCell (restNum cell + 1) (results cell)) w in
  let '(q, w2) := Promise_resolve item w1 in
  snd (then_ q (Some (onF index)) (Some (onR index)) w2).

(** [_Promise.all(target)] *)
Definition Promise_all (target : list Value) (w : World) : nat * World :=
  let '(p, w0) := new_Promise w in
  let '(c, w1) := new_cell w0 in
  let w2 := fold_left (register_item c (fun index => HAllItem c index p)
                                       (fun _ => HRejectOf p)) target w1 in
  (p, if (restNum_of c w2 =? 0)%Z then p_resolve p (VArray []) w2 else w2).

(** [_Promise.race(target)] *)
Definition Promise_race (target : list Value) (w : World) : nat * World :=
  let '(p, w0) := new_Promise w in
  (p, fold_left (fun w item =>
                   let '(q, w1) := Promise_resolve item w in
                   snd (then_ q (Some (HRaceItem p)) (Some (HRejectOf p)) w1))
                target w0).

(** [_Promise.allSettled(target)] *)
Definition Promise_allSettled (target : list Value) (w : World) : nat * World :=
  let '(p, w0) := new_Promise w in
  let '(c, w1) := new_cell w0 in
  let w2 := fold_left (register_item c (fun index => HSettledFulfilled c index p)
                                       (fun index => HSettledRejected c index p))
                      target w1 in
  (p, if (restNum_of c w2 =? 0)%Z then p_resolve p (VArray []) w2 else w2).

(** * Specification-side definitions *)

(** Settlement seen as one operation indexed by the transition taken. *)
Definition settle (k : Kind) : nat -> Value -> World -> World :=
  match k with OnFulfilled => p_resolve | OnRejected => p_reject end.

(** The record of a container right after the transition [k] with payload
    [x]: the queue of that transition has been emptied, the other one is
    as it was. *)
Definition settled (k : Kind) (x : Value) (rec : PromiseRec) : PromiseRec :=
  match k with
  | OnFulfilled => mkPromise Fulfilled x (reason rec) [] (onRejectedCallbacks rec)
  | OnRejected => mkPromise Rejected (result rec) x (onFulfilledCallbacks rec) []
  end.

Definition target_state (k : Kind) : State :=
  match k with OnFulfilled => Fulfilled | OnRejected => Rejected end.

(** The queue of the transition a container has taken. *)
Definition settled_queue (rec : PromiseRec) : list Reaction :=
  match state rec with
  | Pending => []
  | Fulfilled => onFulfilledCallbacks rec
  | Rejected => onRejectedCallbacks rec
  end.

(** [w'] is a later world of [w]: nothing allocated is lost, a container that
    has left [Pending] keeps its whole record, a container that leaves
    [Pending] has the queue of its transition emptied, a latch that has fired
    stays fired. *)
Record later_world (w w' : World) : Prop := mkLater {
  lw_heap : forall p, p < length (heap w) -> p < length (heap w');
  lw_settled : forall p rec,
      heap w !! p = Some rec -> state rec <> Pending -> heap w' !! p = Some rec;
  lw_drained : forall p rec',
      heap w' !! p = Some rec' -> settled_queue rec' = [] \/ heap w !! p = Some rec';
  lw_latches : forall l, l < length (latches w) -> l < length (latches w');
  lw_fired : forall l, fired l w = true -> fired l w' = true;
}.

(** [w'] differs from [w] only by what a registration or a settlement may
    do: no host function was called, no item was recorded, nothing was taken
    off a queue of the host. *)
Record quiet (w w' : World) : Prop := mkQuiet {
  q_trace : trace w' = trace w;
  q_cells : cells w' = cells w;
  q_uncaught : uncaught w' = uncaught w;
  q_microtasks : exists more, microtasks w' = microtasks w ++ more;
  q_timers : exists more, timers w' = timers w ++ more;
}.

Definition calm (w w' : World) : Prop := later_world w w' /\ quiet w w'.

(** ** Induction over values, following the resolution procedure *)

Fixpoint resolved_values (body : list Act) : list Value :=
  match body with
  | [] => []
  | CallResolve v :: rest => v :: resolved_values rest
  | _ :: rest => resolved_values rest
  end.

Section ValueInduction.
Variable P : Value -> Prop.
Hypothesis base : forall v, match v with VThenable _ => True | _ => P v end.
Hypothesis thenable : forall body, Forall P (resolved_values body) -> P (VThenable body).

Fixpoint Value_adoption_ind (v : Value) : P v :=
  match v with
  | VThenable body =>
      thenable body
        ((fix go (b : list Act) : Forall P (resolved_values b) :=
            match b with
            | [] => Forall_nil_2 P
            | CallResolve x :: rest => Forall_cons_2 P x _ (Value_adoption_ind x) (go rest)
            | CallReject _ :: rest => go rest
            | Raise _ :: rest => go rest
            | Later _ :: rest => go rest
            end) body)
  | VUndefined => base VUndefined
  | VNull => base VNull
  | VNum n => base (VNum n)
  | VStr s => base (VStr s)
  | VTypeError m => base (VTypeError m)
  | VArray xs => base (VArray xs)
  | VFulfilledRec x => base (VFulfilledRec x)
  | VRejectedRec x => base (VRejectedRec x)
  | VPromise a => base (VPromise a)
  | VPlainObject => base VPlainObject
  | VThrowingThen e => base (VThrowingThen e)
  end.
End ValueInduction.

(** ** Induction over function values *)

Section HandlerInduction.
Variable P : Handler -> Prop.
Hypothesis base :
  forall h, match h with HFinallyThen _ | HFinallyCatch _ => True | _ => P h end.
Hypothesis finally_then :
  forall cb, match cb with Some h => P h | None => True end -> P (HFinallyThen cb).
Hypothesis finally_catch :
  forall cb, match cb with Some h => P h | None => True end -> P (HFinallyCatch cb).

Fixpoint Handler_callback_ind (h : Handler) : P h :=
  match h with
  | HFinallyThen cb =>
      finally_then cb
        match cb with Some h' => Handler_callback_ind h' | None => I end
  | HFinallyCatch cb =>
      finally_catch cb
        match cb with Some h' => Handler_callback_ind h' | None => I end
  | HostFn tag f => base (HostFn tag f)
  | HIdentity => base HIdentity
  | HThrower => base HThrower
  | HOnResolved l p => base (HOnResolved l p)
  | HOnRejected l p => base (HOnRejected l p)
  | HResolveOf p => base (HResolveOf p)
  | HRejectOf p => base (HRejectOf p)
  | HAllItem c i p => base (HAllItem c i p)
  | HRaceItem p => base (HRaceItem p)
  | HSettledFulfilled c i p => base (HSettledFulfilled c i p)
  | HSettledRejected c i p => base (HSettledRejected c i p)
  end.
End HandlerInduction.

(** The reaction [then] builds for the transition [k]. *)
Definition reaction_of (k : Kind) (this : nat) (onFulfilled onRejected : option Handler)
    (next : nat) : Reaction :=
  mkReaction this k
    match k with
    | OnFulfilled => default HIdentity onFulfilled
    | OnRejected => default HThrower onRejected
    end next.

(** The record of a pending container after one more call of [then]. *)
Definition registered (this : nat) (onFulfilled onRejected : option Handler) (next : nat)
    (rec : PromiseRec) : PromiseRec :=
  mkPromise (state rec) (result rec) (reason rec)
    (onFulfilledCallbacks rec ++ [reaction_of OnFulfilled this onFulfilled onRejected next])
    (onRejectedCallbacks rec ++ [reaction_of OnRejected this onFulfilled onRejected next]).

(** Every container that has left [Pending] has had the queue of its
    transition emptied. *)
Definition drained (w : World) : Prop :=
  forall p rec, heap w !! p = Some rec -> settled_queue rec = [].

(** ** What can happen to a world *)

(** One step of the host program or of the host's loop: a call of a
    settlement function handed to some initializer, a construction, a call
    of a public method ([catch] and [finally] are calls of [then]), or one
    deferred turn. *)
Inductive step : World -> World -> Prop :=
| step_settleFulfilled p x w : step w (p_resolve p x w)
| step_settleRejected p x w : step w (p_reject p x w)
| step_construct executor w : step w (world_of (construct executor w))
| step_then this onF onR w : step w (snd (then_ this onF onR w))
| step_resolve v w : step w (snd (Promise_resolve v w))
| step_reject v w : step w (snd (Promise_reject v w))
| step_all target w : step w (snd (Promise_all target w))
| step_race target w : step w (snd (Promise_race target w))
| step_allSettled target w : step w (snd (Promise_allSettled target w))
| step_turn w w' : turn w = Some w' -> step w w'.

(** ** Adoption of a foreign thenable *)

(** The call [then.call(value, onResolved, onRejected)] of line 90, with the
    two closures of lines 92 and 97 as function values. *)
Definition adoption (HAS_CALLED promise : nat) (body : list Act) (w : World) : Outcome unit :=
  run_body (continuation (HOnResolved HAS_CALLED promise))
           (continuation (HOnRejected HAS_CALLED promise))
           (fun b w => setTimeout (TLater (HOnResolved HAS_CALLED promise)
                                          (HOnRejected HAS_CALLED promise) b) w)
           body w.


Definition is_later (a : Act) : Prop :=
  match a with Later _ => True | _ => False end.

(** ** Observing calls of host functions *)

(** What a call of [fn] with [args] adds to the trace. *)
Fixpoint logged (fn : Handler) (args : list Value) : list (nat * list Value) :=
  match fn with
  | HostFn tag _ => [(tag, args)]
  | HFinallyThen (Some cb) | HFinallyCatch (Some cb) => logged cb []
  | _ => []
  end.

(** Nothing was taken off a queue of the host. *)
Definition appended (w w' : World) : Prop :=
  (exists more, microtasks w' = microtasks w ++ more) /\
  (exists more, timers w' = timers w ++ more).

(** The payload of the transition [k]. *)
Definition payload (k : Kind) (rec : PromiseRec) : Value :=
  match k with OnFulfilled => result rec | OnRejected => reason rec end.

(** Successive calls [this.then(onFulfilled, onRejected)], one per pair. *)
Definition register_all (this : nat) (hs : list (option Handler * option Handler))
    (w : World) : World :=
  fold_left (fun w h => snd (then_ this (fst h) (snd h) w)) hs w.

(** The reactions these calls build, the first new container being [next]. *)
Fixpoint reactions_from (k : Kind) (this next : nat)
    (hs : list (option Handler * option Handler)) : list Reaction :=
  match hs with
  | [] => []
  | h :: rest => reaction_of k this (fst h) (snd h) next :: reactions_from k this (S next) rest
  end.

(** The argument a reaction passes to its handler. *)
Definition reaction_arg (r : Reaction) (w : World) : Value :=
  match r_kind r with
  | OnFulfilled => result_of (r_this r) w
  | OnRejected => reason_of (r_this r) w
  end.

(** The handler [then] keeps for the transition [k]. *)
Definition handler_of (k : Kind) (h : option Handler * option Handler) : Handler :=
  match k with
  | OnFulfilled => default HIdentity (fst h)
  | OnRejected => default HThrower (snd h)
  end.

(** What the handlers of the transition [k] add to the trace when called in
    the order of [hs] with the payload [x]. *)
Definition calls_in_order (k : Kind) (x : Value)
    (hs : list (option Handler * option Handler)) : list (nat * list Value) :=
  concat (map (fun h => logged (handler_of k h) [x]) hs).

(** ** [finally] *)

(** The container returned by [finally] after the turn that runs its
    reaction, in the two ways the reaction can come to run: registered on a
    settled container, or registered alone on a pending container that is
    settled afterwards. *)
Definition finally_outcomes (k : Kind) (this : nat) (x : Value) (tag : nat)
    (f : list Value -> Result) (w : World) (rec : PromiseRec) (w' : World) : Prop :=
  let cb := Some (HostFn tag f) in
  (state rec = target_state k /\ payload k rec = x /\
   w' = run 1 (snd (finally_ this cb w))) \/
  (state rec = Pending /\ queue k rec = [] /\
   w' = run 1 (settle k this x (snd (finally_ this cb w)))).

(** ** Items of [all] and [allSettled] *)

(** The reaction registered for one item: the position of the item, the
    container [resolve(item)] gave, the transition that container takes and
    the container its [then] call returned. *)
Record ItemTask : Type := mkItemTask {
  it_index : nat;
  it_source : nat;
  it_kind : Kind;
  it_next : nat;
}.

Definition item_task (onF onR : nat -> Handler) (t : ItemTask) : Task :=
  TReaction (reaction_of (it_kind t) (it_source t)
               (Some (onF (it_index t))) (Some (onR (it_index t))) (it_next t)).

Definition settled_in (q : nat) (w : World) : Prop :=
  exists rec, heap w !! q = Some rec /\ state rec <> Pending.

(** The state of the variables of a combinator call on [n] items after the
    items of the positions [D] have been recorded, [expected i] being the
    entry of position [i]. *)
Definition item_inv (c P n : nat) (expected : nat -> Value) (D : list nat) (w : World) : Prop :=
  exists R,
    cells w !! c = Some (mkCell (Z.of_nat n - Z.of_nat (length D)) R) /\
    (forall i, i ∈ D -> R !! i = Some (expected i)) /\
    length R <= n /\
    (length D < n -> state_of P w = Some Pending) /\
    (length D = n -> 0 < n -> state_of P w = Some Fulfilled /\ result_of P w = VArray R).

(** An item reaction that can run now: its source has settled, the entry
    it records is the expected one, and the container its [then] call
    returned is not the combinator's. *)
Definition ready_item (P : nat) (expected : nat -> Value)
    (entry_of : ItemTask -> World -> Value) (recording : ItemTask -> Prop)
    (w : World) (t : ItemTask) : Prop :=
  settled_in (it_source t) w /\ entry_of t w = expected (it_index t) /\
  it_next t <> P /\ recording t.

(** The item reactions of [all] and of [allSettled], and what they record. *)
Definition all_task (c P : nat) : ItemTask -> Task :=
  item_task (fun index => HAllItem c index P) (fun _ => HRejectOf P).

Definition all_entry (t : ItemTask) (w : World) : Value := result_of (it_source t) w.

Definition allSettled_task (c P : nat) : ItemTask -> Task :=
  item_task (fun index => HSettledFulfilled c index P)
            (fun index => HSettledRejected c index P).

Definition allSettled_entry (t : ItemTask) (w : World) : Value :=
  match it_kind t with
  | OnFulfilled => VFulfilledRec (result_of (it_source t) w)
  | OnRejected => VRejectedRec (reason_of (it_source t) w)
  end.

(** The transition a settled container has taken, with its payload. *)
Definition source_outcome (q : nat) (w : World) : Kind * Value :=
  match heap w !! q with
  | Some rec =>
      match state rec with
      | Rejected => (OnRejected, reason rec)
      | _ => (OnFulfilled, result rec)
      end
  | None => (OnFulfilled, VUndefined)
  end.

(** What the first thing the [then] of a thenable does with the two
    functions it is called with makes of the container: fulfilled by a call
    of the first, with the value passed, as it is; rejected by a call of the
    second or by an error.  Postponed work does not count. *)
Fixpoint first_act (body : list Act) : option (Kind * Value) :=
  match body with
  | [] => None
  | CallResolve v :: _ => Some (OnFulfilled, v)
  | CallReject r :: _ => Some (OnRejected, r)
  | Raise e :: _ => Some (OnRejected, e)
  | Later _ :: rest => first_act rest
  end.

(** An item whose normalisation by [resolve] is settled at once: a settled
    container, a thenable whose [then] calls back or raises before it
    returns, or anything that is not a callable-[then] object; and the
    outcome of that normalisation. *)
Definition item_ready (w : World) (item : Value) : Prop :=
  match item with
  | VPromise q => settled_in q w
  | VThenable body => first_act body <> None
  | _ => True
  end.

Definition item_outcome (w : World) (item : Value) : Kind * Value :=
  match item with
  | VPromise q => source_outcome q w
  | VThrowingThen e => (OnRejected, e)
  | VThenable body => default (OnFulfilled, VUndefined) (first_act body)
  | v => (OnFulfilled, v)
  end.

(** The containers of [w] are untouched in [w']. *)
Definition preserves_old (w w' : World) : Prop :=
  length (heap w) <= length (heap w') /\
  forall p, p < length (heap w) -> heap w' !! p = heap w !! p.

(** What registration establishes for an item and its reaction. *)
Definition registered_item (w0 w' : World) (item : Value) (t : ItemTask) : Prop :=
  settled_in (it_source t) w' /\
  source_outcome (it_source t) w' = item_outcome w0 item /\
  it_kind t = fst (item_outcome w0 item) /\
  length (heap w0) <= it_next t.

(** The entry expected at a position, given the outcomes of the items. *)
Definition expected_entry (entry : Kind * Value -> Value) (outs : list (Kind * Value))
    (i : nat) : Value :=
  default VUndefined (entry <$> outs !! i).

(** The outcome record [allSettled] stores for an item. *)
Definition outcome_record (o : Kind * Value) : Value :=
  match fst o with
  | OnFulfilled => VFulfilledRec (snd o)
  | OnRejected => VRejectedRec (snd o)
  end.

(** The world in which the items of a combinator call are registered: the
    combinator's container and its variables have been created. *)
Definition combinator_start (w : World) : World := snd (new_cell (snd (new_Promise w))).

(** What holds of an item and its reaction once all items are registered. *)
Definition item_registered (P : nat) (w0 w' : World) (item : Value) (t : ItemTask) : Prop :=
  settled_in (it_source t) w' /\
  source_outcome (it_source t) w' = item_outcome w0 item /\
  it_kind t = fst (item_outcome w0 item) /\
  it_next t <> P.

(** ** Items that are pending when a combinator is called *)

(** A pending container on which nothing has been registered. *)
Definition untouched (w : World) (q : nat) : Prop := heap w !! q = Some fresh_promise.

Definition source_at (qs : list nat) (j : nat) : nat := default 0 (qs !! j).

Definition outcome_at (outs : list (Kind * Value)) (j : nat) : Kind * Value :=
  default (OnFulfilled, VUndefined) (outs !! j).

(** The host settles the items in the order [order] of their positions, the
    item of position [j] with the outcome [outs !! j]. *)
Definition settle_in_order (qs : list nat) (outs : list (Kind * Value)) (order : list nat)
    (w : World) : World :=
  fold_left (fun w j => settle (fst (outcome_at outs j)) (source_at qs j)
                               (snd (outcome_at outs j)) w) order w.

(** The reaction of the item of position [j], [base] being the first
    container created by the registrations. *)
Definition pending_task (qs : list nat) (outs : list (Kind * Value)) (base j : nat) : ItemTask :=
  mkItemTask j (source_at qs j) (fst (outcome_at outs j)) (base + j).

(** * Further properties of the class: definitions *)

(** The world [w'] one turn after the reaction of a call
    [this.then(onFulfilled, onRejected)] came to run with the payload [x] of
    the transition [k]: the container was settled when [then] was called, or
    it was pending with nothing registered for [k] and was settled right
    after the call. *)
Definition then_outcomes (k : Kind) (this : nat) (x : Value)
    (onFulfilled onRejected : option Handler) (w : World) (rec : PromiseRec)
    (w' : World) : Prop :=
  (state rec = target_state k /\ payload k rec = x /\
   w' = run 1 (snd (then_ this onFulfilled onRejected w))) \/
  (state rec = Pending /\ queue k rec = [] /\
   w' = run 1 (settle k this x (snd (then_ this onFulfilled onRejected w)))).

(** A value the resolution procedure fulfils with as it is: anything but a
    container, an object with a callable [then] and an object whose [then]
    cannot be read. *)
Definition plain (v : Value) : bool :=
  match v with
  | VPromise _ | VThenable _ | VThrowingThen _ => false
  | _ => true
  end.

(** The same for a call [this.catch(onRejected)]. *)
Definition catch_outcomes (k : Kind) (this : nat) (x : Value) (onRejected : option Handler)
    (w : World) (rec : PromiseRec) (w' : World) : Prop :=
  (state rec = target_state k /\ payload k rec = x /\
   w' = run 1 (snd (catch_ this onRejected w))) \/
  (state rec = Pending /\ queue k rec = [] /\
   w' = run 1 (settle k this x (snd (catch_ this onRejected w)))).

(** What the first thing an initializer, or the [then] of a thenable handed
    to the static [resolve], does with its settlement functions makes of the
    container [p]. *)
Definition first_act_outcome (a : Act) (p : nat) (w' : World) : Prop :=
  match a with
  | CallResolve v => state_of p w' = Some Fulfilled /\ result_of p w' = v
  | CallReject r => state_of p w' = Some Rejected /\ reason_of p w' = r
  | Raise e => state_of p w' = Some Rejected /\ reason_of p w' = e
  | Later _ => True
  end.


(** [v] wrapped in one thenable per element of [rests]: the [then] of each
    calls its first argument with the next one (the innermost with [v]) and
    then does what its element of [rests] says. *)
Fixpoint nest (rests : list (list Act)) (v : Value) : Value :=
  match rests with
  | [] => v
  | rest :: more => VThenable (CallResolve (nest more v) :: rest)
  end.

(** The outcome of a value that is settled as soon as the resolution
    procedure looks at it: a value without a callable [then], an object
    whose [then] cannot be read, or a thenable whose [then] starts by
    calling its second argument or by raising. *)
Definition core_outcome (v : Value) : option (Kind * Value) :=
  match v with
  | VPromise _ => None
  | VThenable (CallReject r :: _) => Some (OnRejected, r)
  | VThenable (Raise e :: _) => Some (OnRejected, e)
  | VThenable _ => None
  | VThrowingThen e => Some (OnRejected, e)
  | _ => Some (OnFulfilled, v)
  end.

(** The state and payload of a container that took the transition [k]
    with [x]. *)
Definition settled_as (k : Kind) (x : Value) (p : nat) (w : World) : Prop :=
  state_of p w = Some (target_state k) /\
  match k with OnFulfilled => result_of p w | OnRejected => reason_of p w end = x.

(** A chain [this.then(..).then(..) ... .then(..)], one call per pair, each
    on the container the previous call returned; the last container and the
    world after the calls. *)
Fixpoint then_chain (hs : list (option Handler * option Handler)) (this : nat)
    (w : World) : nat * World :=
  match hs with
  | [] => (this, w)
  | h :: rest =>
      let '(next, w1) := then_ this (fst h) (snd h) w in
      then_chain rest next w1
  end.

(** A call of [then] that gives no function for the transition [k]. *)
Definition passes (k : Kind) (h : option Handler * option Handler) : Prop :=
  match k with OnFulfilled => fst h = None | OnRejected => snd h = None end.

(** ** [race] *)

(** One iteration of the loop of [race] (lines 283-287), [p] being the
    container [race] returns. *)
Definition race_register (p : nat) (w : World) (item : Value) : World :=
  let '(q, w1) := Promise_resolve item w in
  snd (then_ q (Some (HRaceItem p)) (Some (HRejectOf p)) w1).

(** An item that is a pending container. *)
Definition pending_container (w : World) (v : Value) : Prop :=
  match v with
  | VPromise q => state_of q w = Some Pending
  | _ => False
  end.

(** The containers of [w] have in [w'] the state they have in [w]. *)
Definition same_states (w w' : World) : Prop :=
  length (heap w) <= length (heap w') /\
  forall n, n < length (heap w) -> state_of n w' = state_of n w.

(** A reaction [race] registers on the container [q] for the transition
    [k]. *)
Definition race_reaction_of (p : nat) (k : Kind) (q : nat) (r : Reaction) : Prop :=
  exists next, r = reaction_of k q (Some (HRaceItem p)) (Some (HRejectOf p)) next.

(** ** Invariants of the reachable worlds *)

(** A container holds at most one payload: none while pending, no reason
    once fulfilled, no result once rejected. *)
Definition tidy_rec (rec : PromiseRec) : Prop :=
  match state rec with
  | Pending => result rec = VUndefined /\ reason rec = VUndefined
  | Fulfilled => reason rec = VUndefined
  | Rejected => result rec = VUndefined
  end.

Definition tidy (w : World) : Prop :=
  forall p rec, heap w !! p = Some rec -> tidy_rec rec.

(** A reaction that waits on a queue of the host runs for a container that
    has taken the reaction's transition. *)
Definition due (w : World) (t : Task) : Prop :=
  match t with
  | TReaction r => state_of (r_this r) w = Some (target_state (r_kind r))
  | TLater _ _ _ => True
  end.

(** A reaction kept by a container is one for that container, on the
    queue of its transition. *)
Definition filed (w : World) : Prop :=
  forall q rec k r, heap w !! q = Some rec -> r ∈ queue k rec ->
    r_this r = q /\ r_kind r = k.

Definition orderly (w : World) : Prop := filed w /\ Forall (due w) (microtasks w).

(** The transition a container settled by [k] did not take. *)
Definition other (k : Kind) : Kind :=
  match k with OnFulfilled => OnRejected | OnRejected => OnFulfilled end.

(** The host's timers hold postponed work of thenables and initializers
    only, never a reaction. *)
Definition timers_hold_no_reaction (w : World) : Prop :=
  Forall (fun t => match t with TLater _ _ _ => True | TReaction _ => False end) (timers w).

(** ** The three ways to register a reaction *)

Inductive Registration : Type :=
| ByThen (onFulfilled onRejected : option Handler)
| ByCatch (onRejected : option Handler)
| ByFinally (callback : option Handler).

(** The registering call. *)
Definition register (this : nat) (reg : Registration) (w : World) : nat * World :=
  match reg with
  | ByThen onFulfilled onRejected => then_ this onFulfilled onRejected w
  | ByCatch onRejected => catch_ this onRejected w
  | ByFinally callback => finally_ this callback w
  end.

(** Successive registering calls on one container. *)
Definition register_each (this : nat) (regs : list Registration) (w : World) : World :=
  fold_left (fun w reg => snd (register this reg w)) regs w.

(** The function a registration has called for the transition [k], if any:
    the function given to [then] for [k], the one given to [catch] for a
    rejection, the callback of [finally] for both. *)
Definition registered_function (k : Kind) (reg : Registration) : option Handler :=
  match reg, k with
  | ByThen onFulfilled _, OnFulfilled => onFulfilled
  | ByThen _ onRejected, OnRejected => onRejected
  | ByCatch _, OnFulfilled => None
  | ByCatch onRejected, OnRejected => onRejected
  | ByFinally callback, _ => callback
  end.

(** The arguments it is called with: the payload, and nothing for the
    callback of [finally]. *)
Definition call_arguments (x : Value) (reg : Registration) : list Value :=
  match reg with ByFinally _ => [] | _ => [x] end.

(** The calls of host functions the registrations [regs] lead to when the
    container takes the transition [k] with payload [x], in the order of
    the registrations. *)
Definition expected_calls (k : Kind) (x : Value) (regs : list Registration)
    : list (nat * list Value) :=
  concat (map (fun reg =>
                 match registered_function k reg with
                 | Some fn => logged fn (call_arguments x reg)
                 | None => []
                 end) regs).

(** The reaction a registration leaves, [next] being the container it
    returns. *)
Definition registration_reaction (k : Kind) (this : nat) (reg : Registration)
    (next : nat) : Reaction :=
  mkReaction this k
    match reg, k with
    | ByThen onFulfilled _, OnFulfilled => default HIdentity onFulfilled
    | ByThen _ onRejected, OnRejected => default HThrower onRejected
    | ByCatch _, OnFulfilled => HIdentity
    | ByCatch onRejected, OnRejected => default HThrower onRejected
    | ByFinally callback, OnFulfilled => HFinallyThen callback
    | ByFinally callback, OnRejected => HFinallyCatch callback
    end next.

(** The arguments with which the registering method calls [then]
    (lines 197 and 206-215). *)
Definition then_arguments (reg : Registration) : option Handler * option Handler :=
  match reg with
  | ByThen onFulfilled onRejected => (onFulfilled, onRejected)
  | ByCatch onRejected => (None, onRejected)
  | ByFinally callback => (Some (HFinallyThen callback), Some (HFinallyCatch callback))
  end.
(** * Basic facts *)

Arguments then_ : simpl never.
Arguments p_resolve : simpl never.
Arguments p_reject : simpl never.
Arguments fire : simpl never.
Arguments fired : simpl never.
Arguments setTimeout : simpl never.
Arguments createMicroTask : simpl never.
Arguments update_promise : simpl never.
Arguments update_cell : simpl never.

Lemma world_eta w :
  mkWorld (heap w) (latches w) (cells w) (microtasks w) (timers w) (trace w) (uncaught w) = w.
Proof. by destruct w. Qed.

Lemma set_queue_queue k q rec : queue k (set_queue k q rec) = q.
Proof. by destruct k. Qed.

Lemma set_queue_twice k q q' rec : set_queue k q (set_queue k q' rec) = set_queue k q rec.
Proof. by destruct k. Qed.

Lemma set_queue_same k rec : set_queue k (queue k rec) rec = rec.
Proof. by destruct k, rec. Qed.

Lemma update_promise_Some p f w rec :
  heap w !! p = Some rec ->
  update_promise p f w = set_heap (<[p := f rec]> (heap w)) w.
Proof. intros H. unfold update_promise. by rewrite H. Qed.

Lemma drain_spec k n : forall p w rec,
  heap w !! p = Some rec ->
  length (queue k rec) <= n ->
  drain k n p w =
  set_microtasks (microtasks w ++ map TReaction (queue k rec))
                 (set_heap (<[p := set_queue k [] rec]> (heap w)) w).
Proof.
  induction n as [|n IH]; intros p w rec Hp Hn.
  - destruct (queue k rec) as [|cb rest] eqn:Hq; [|simpl in Hn; lia].
    simpl. rewrite <- Hq, set_queue_same, list_insert_id by done.
    rewrite app_nil_r. by destruct w.
  - simpl. rewrite Hp.
    destruct (queue k rec) as [|cb rest] eqn:Hq.
    + rewrite <- Hq, set_queue_same, list_insert_id by done.
      rewrite Hq. simpl. rewrite app_nil_r. by destruct w.
    + rewrite (update_promise_Some _ _ _ _ Hp).
      assert (Hlt : p < length (heap w)) by by eapply lookup_lt_Some.
      rewrite (IH p _ (set_queue k rest rec)).
      * rewrite set_queue_queue, set_queue_twice. simpl.
        rewrite list_insert_insert_eq. unfold set_microtasks, set_heap. simpl.
        by rewrite <- app_assoc.
      * simpl. by apply list_lookup_insert_eq.
      * rewrite set_queue_queue. simpl in Hn. lia.
Qed.

Lemma settle_pending k p x w rec :
  heap w !! p = Some rec -> state rec = Pending ->
  settle k p x w =
  set_microtasks (microtasks w ++ map TReaction (queue k rec))
                 (set_heap (<[p := settled k x rec]> (heap w)) w).
Proof.
  intros Hp Hs.
  assert (Hlt : p < length (heap w)) by by eapply lookup_lt_Some.
  destruct k; simpl; unfold p_resolve, p_reject, state_of; rewrite Hp; simpl; rewrite Hs;
    rewrite (update_promise_Some _ _ _ _ Hp); unfold queue_length; simpl;
    rewrite list_lookup_insert_eq by done;
    (erewrite drain_spec; [|simpl; by apply list_lookup_insert_eq|simpl; lia]);
    simpl; by rewrite list_insert_insert_eq.
Qed.

Lemma settle_not_pending k p x w :
  state_of p w <> Some Pending -> settle k p x w = w.
Proof.
  intros H. destruct k; simpl; unfold p_resolve, p_reject;
    destruct (state_of p w) as [[]|]; congruence.
Qed.


(** ** Later worlds *)

Lemma later_refl w : later_world w w.
Proof. constructor; auto. Qed.

Lemma later_trans w1 w2 w3 : later_world w1 w2 -> later_world w2 w3 -> later_world w1 w3.
Proof.
  intros [A1 B1 E1 C1 D1] [A2 B2 E2 C2 D2]. constructor; eauto.
  intros p rec' H3. destruct (E2 _ _ H3) as [?|H2]; [by left|]. eauto.
Qed.

Lemma quiet_refl w : quiet w w.
Proof. constructor; try done; exists []; by rewrite app_nil_r. Qed.

Lemma quiet_trans w1 w2 w3 : quiet w1 w2 -> quiet w2 w3 -> quiet w1 w3.
Proof.
  intros [A1 B1 C1 [m1 D1] [t1 E1]] [A2 B2 C2 [m2 D2] [t2 E2]].
  constructor; try congruence.
  - exists (m1 ++ m2). by rewrite D2, D1, app_assoc.
  - exists (t1 ++ t2). by rewrite E2, E1, app_assoc.
Qed.

Lemma later_same_store w w' :
  heap w' = heap w -> latches w' = latches w -> later_world w w'.
Proof.
  intros Hh Hl. constructor; unfold fired; rewrite ?Hh, ?Hl; auto.
Qed.

Lemma settled_queue_settled k x rec : settled_queue (settled k x rec) = [].
Proof. by destruct k. Qed.

Lemma settled_queue_pending rec : state rec = Pending -> settled_queue rec = [].
Proof. unfold settled_queue. by intros ->. Qed.

Lemma createMicroTask_later t w : later_world w (createMicroTask t w).
Proof. by apply later_same_store. Qed.

Lemma createMicroTask_quiet t w : quiet w (createMicroTask t w).
Proof. constructor; try done; [by exists [t] | exists []; by rewrite app_nil_r]. Qed.

Lemma setTimeout_later t w : later_world w (setTimeout t w).
Proof. by apply later_same_store. Qed.

Lemma setTimeout_quiet t w : quiet w (setTimeout t w).
Proof. constructor; try done; [exists []; by rewrite app_nil_r | by exists [t]]. Qed.

Lemma settle_later k p x w : later_world w (settle k p x w).
Proof.
  destruct (heap w !! p) as [rec|] eqn:Hp.
  - destruct (state rec) eqn:Hs.
    + rewrite (settle_pending _ _ _ _ _ Hp Hs).
      constructor; simpl; try done.
      * intros q. by rewrite length_insert.
      * intros q rec' Hq Hne. destruct (decide (p = q)) as [->|Hpq].
        -- congruence.
        -- by rewrite list_lookup_insert_ne.
      * intros q rec' Hq. destruct (decide (p = q)) as [->|Hpq].
        -- rewrite list_lookup_insert_eq in Hq by by eapply lookup_lt_Some.
           injection Hq as <-. left. apply settled_queue_settled.
        -- rewrite list_lookup_insert_ne in Hq by done. by right.
    + rewrite settle_not_pending; [apply later_refl|].
      unfold state_of. rewrite Hp. simpl. congruence.
    + rewrite settle_not_pending; [apply later_refl|].
      unfold state_of. rewrite Hp. simpl. congruence.
  - rewrite settle_not_pending; [apply later_refl|].
    unfold state_of. by rewrite Hp.
Qed.

Lemma settle_quiet k p x w : quiet w (settle k p x w).
Proof.
  destruct (heap w !! p) as [rec|] eqn:Hp.
  - destruct (state rec) eqn:Hs.
    + rewrite (settle_pending _ _ _ _ _ Hp Hs).
      constructor; simpl; try done; [by eexists | exists []; by rewrite app_nil_r].
    + rewrite settle_not_pending; [apply quiet_refl|].
      unfold state_of. rewrite Hp. simpl. congruence.
    + rewrite settle_not_pending; [apply quiet_refl|].
      unfold state_of. rewrite Hp. simpl. congruence.
  - rewrite settle_not_pending; [apply quiet_refl|].
    unfold state_of. by rewrite Hp.
Qed.

Lemma p_resolve_later p x w : later_world w (p_resolve p x w).
Proof. apply (settle_later OnFulfilled). Qed.
Lemma p_reject_later p x w : later_world w (p_reject p x w).
Proof. apply (settle_later OnRejected). Qed.
Lemma p_resolve_quiet p x w : quiet w (p_resolve p x w).
Proof. apply (settle_quiet OnFulfilled). Qed.
Lemma p_reject_quiet p x w : quiet w (p_reject p x w).
Proof. apply (settle_quiet OnRejected). Qed.

Lemma new_Promise_later w : later_world w (snd (new_Promise w)).
Proof.
  constructor; simpl; try done.
  - intros p Hp. rewrite length_app. lia.
  - intros p rec Hp _. by apply lookup_app_l_Some.
  - intros p rec' Hp. apply lookup_app_Some in Hp as [Hp|[_ Hp]]; [by right|].
    left. destruct (p - length (heap w)) as [|n]; [|by destruct n].
    by injection Hp as <-.
Qed.

Lemma new_Promise_quiet w : quiet w (snd (new_Promise w)).
Proof. constructor; try done; exists []; by rewrite app_nil_r. Qed.

Lemma then_later this onF onR w : later_world w (snd (then_ this onF onR w)).
Proof.
  unfold then_.
  destruct (new_Promise w) as [next w1] eqn:Hn.
  assert (H1 : later_world w w1).
  { replace w1 with (snd (new_Promise w)) by by rewrite Hn. apply new_Promise_later. }
  simpl. eapply later_trans; [exact H1|].
  unfold state_of. destruct (heap w1 !! this) as [rec|] eqn:Hp; simpl; [|apply later_refl].
  destruct (state rec) eqn:Hs.
  - unfold update_promise. rewrite Hp.
    constructor; simpl; try done.
    + intros q. by rewrite length_insert.
    + intros q rec' Hq Hne. destruct (decide (this = q)) as [->|Hpq]; [congruence|].
      by rewrite list_lookup_insert_ne.
    + intros q rec' Hq. destruct (decide (this = q)) as [->|Hpq].
      * rewrite list_lookup_insert_eq in Hq by by eapply lookup_lt_Some.
        injection Hq as <-. left. by apply settled_queue_pending.
      * rewrite list_lookup_insert_ne in Hq by done. by right.
  - apply createMicroTask_later.
  - apply createMicroTask_later.
Qed.

Lemma then_quiet this onF onR w : quiet w (snd (then_ this onF onR w)).
Proof.
  unfold then_. simpl.
  eapply quiet_trans; [apply new_Promise_quiet|].
  set (w1 := set_heap _ w).
  unfold state_of. destruct (heap w1 !! this) as [rec|] eqn:Hp; simpl; [|apply quiet_refl].
  destruct (state rec).
  - unfold update_promise. rewrite Hp.
    constructor; try done; exists []; by rewrite app_nil_r.
  - apply createMicroTask_quiet.
  - apply createMicroTask_quiet.
Qed.

Lemma new_latch_later w : later_world w (snd (new_latch w)).
Proof.
  constructor; simpl; try done; [by right|..].
  - intros l Hl. rewrite length_app. lia.
  - intros l. unfold fired. simpl.
    destruct (latches w !! l) as [b|] eqn:Hl; simpl; [|done].
    intros ->. by rewrite (lookup_app_l_Some _ _ _ _ Hl).
Qed.

Lemma new_latch_quiet w : quiet w (snd (new_latch w)).
Proof. constructor; try done; exists []; by rewrite app_nil_r. Qed.

Lemma fire_later l w : later_world w (fire l w).
Proof.
  constructor; simpl; try done; [by right|..].
  - intros l'. by rewrite length_insert.
  - intros l'. unfold fired. simpl.
    destruct (decide (l = l')) as [->|Hne].
    + destruct (latches w !! l') as [b|] eqn:Hl; simpl; [|done].
      intros _. rewrite list_lookup_insert_eq; [done|by eapply lookup_lt_Some].
    + by rewrite list_lookup_insert_ne.
Qed.

Lemma fire_quiet l w : quiet w (fire l w).
Proof. constructor; try done; exists []; by rewrite app_nil_r. Qed.

Lemma fired_fire l w : l < length (latches w) -> fired l (fire l w) = true.
Proof. intros H. unfold fired, fire. simpl. by rewrite list_lookup_insert_eq. Qed.

(** ** Relating the world before and after a foreign [then] body *)

Section BodyRelation.
Variable I : World -> World -> Prop.
Hypothesis I_refl : forall w, I w w.
Hypothesis I_trans : forall w1 w2 w3, I w1 w2 -> I w2 w3 -> I w1 w3.
Variables onResolved onRejected : Value -> World -> Outcome unit.
Variable defer : list Act -> World -> World.
Hypothesis rejected_ok : forall r w, I w (world_of (onRejected r w)).
Hypothesis defer_ok : forall b w, I w (defer b w).

Lemma run_body_related body :
  Forall (fun v => forall w, I w (world_of (onResolved v w))) (resolved_values body) ->
  forall w, I w (world_of (run_body onResolved onRejected defer body w)).
Proof.
  induction body as [|a rest IH]; intros Hres w; simpl; [apply I_refl|].
  destruct a as [v|r|e|b]; simpl in *.
  - inversion Hres as [|? ? Hv Hrest]; subst.
    specialize (Hv w). destruct (onResolved v w) as [[] w'|e w']; simpl in *; [|done].
    eapply I_trans; [exact Hv|]. by apply IH.
  - specialize (rejected_ok r w).
    destruct (onRejected r w) as [[] w'|e w']; simpl in *; [|done].
    eapply I_trans; [exact rejected_ok|]. by apply IH.
  - apply I_refl.
  - eapply I_trans; [apply defer_ok|]. by apply IH.
Qed.
End BodyRelation.


Lemma calm_refl w : calm w w.
Proof. split; [apply later_refl | apply quiet_refl]. Qed.

Lemma calm_trans w1 w2 w3 : calm w1 w2 -> calm w2 w3 -> calm w1 w3.
Proof.
  intros [A1 B1] [A2 B2]. split; [by eapply later_trans | by eapply quiet_trans].
Qed.

Lemma resolveNextPromise_calm value :
  forall promise w, calm w (world_of (resolveNextPromise promise value w)).
Proof.
  revert value.
  apply (Value_adoption_ind (fun value =>
    forall promise w, calm w (world_of (resolveNextPromise promise value w)))).
  - intros v. destruct v; try exact I; intros promise w; cbn.
    1-4: split; [apply p_resolve_later | apply p_resolve_quiet].
    1-4,6: eapply calm_trans;
      [split; [apply new_latch_later | apply new_latch_quiet]|];
      eapply calm_trans;
      [split; [apply fire_later | apply fire_quiet]|];
      split; [apply p_resolve_later | apply p_resolve_quiet].
    + destruct (Nat.eqb addr promise); cbn; [apply calm_refl|].
      eapply calm_trans;
        [split; [apply new_latch_later | apply new_latch_quiet]|].
      split; [apply then_later | apply then_quiet].
    + eapply calm_trans;
        [split; [apply new_latch_later | apply new_latch_quiet]|].
      eapply calm_trans;
        [split; [apply fire_later | apply fire_quiet]|].
      split; [apply p_reject_later | apply p_reject_quiet].
  - intros body IH promise w. cbn.
    set (l := length (latches w)).
    set (w1 := set_latches _ w).
    assert (H1 : calm w w1) by (split; [apply new_latch_later | apply new_latch_quiet]).
    match goal with
    | |- calm _ (world_of (match ?rb with _ => _ end)) =>
        assert (Hb : calm w1 (world_of rb))
    end.
    { apply run_body_related.
      - apply calm_refl.
      - apply calm_trans.
      - intros r w0. destruct (fired l w0); simpl; [apply calm_refl|].
        eapply calm_trans; [split; [apply fire_later | apply fire_quiet]|].
        split; [apply p_reject_later | apply p_reject_quiet].
      - intros b w0. split; [apply setTimeout_later | apply setTimeout_quiet].
      - eapply Forall_impl; [exact IH|]. simpl. intros v Hv w0.
        destruct (fired l w0); simpl; [apply calm_refl|].
        eapply calm_trans; [split; [apply fire_later | apply fire_quiet]|].
        apply Hv. }
    match goal with
    | |- calm _ (world_of (match ?rb with _ => _ end)) => destruct rb as [[] w2|e w2]
    end; simpl in *.
    + by eapply calm_trans.
    + destruct (fired l w2); simpl; [by eapply calm_trans|].
      eapply calm_trans; [exact H1|]. eapply calm_trans; [exact Hb|].
      eapply calm_trans; [split; [apply fire_later | apply fire_quiet]|].
      split; [apply p_reject_later | apply p_reject_quiet].
Qed.


Lemma resolveNextPromise_later promise value w :
  later_world w (world_of (resolveNextPromise promise value w)).
Proof. apply resolveNextPromise_calm. Qed.

Lemma resolveNextPromise_quiet promise value w :
  quiet w (world_of (resolveNextPromise promise value w)).
Proof. apply resolveNextPromise_calm. Qed.

Lemma update_cell_later c f w : later_world w (update_cell c f w).
Proof.
  unfold update_cell. destruct (cells w !! c); [by apply later_same_store | apply later_refl].
Qed.

Lemma record_item_later c index p entry w : later_world w (record_item c index p entry w).
Proof.
  unfold record_item.
  set (w2 := update_cell c _ (update_cell c _ w)).
  assert (H2 : later_world w w2).
  { eapply later_trans; apply update_cell_later. }
  destruct (restNum_of c w2 =? 0)%Z; [|done].
  eapply later_trans; [exact H2 | apply p_resolve_later].
Qed.

Lemma call_later fn : forall args w, later_world w (world_of (call fn args w)).
Proof.
  revert fn.
  apply (Handler_callback_ind (fun fn =>
    forall args w, later_world w (world_of (call fn args w)))).
  - intros h. destruct h; try exact I; intros args w; cbn.
    + destruct (f args); cbn; by apply later_same_store.
    + apply later_refl.
    + apply later_refl.
    + destruct (fired latch w); cbn; [apply later_refl|].
      pose proof (resolveNextPromise_later promise (arg0 args) (fire latch w)) as H.
      destruct (resolveNextPromise promise (arg0 args) (fire latch w)); cbn in *;
        (eapply later_trans; [apply fire_later | exact H]).
    + destruct (fired latch w); cbn; [apply later_refl|].
      eapply later_trans; [apply fire_later | apply p_reject_later].
    + apply p_resolve_later.
    + apply p_reject_later.
    + apply record_item_later.
    + apply p_resolve_later.
    + apply record_item_later.
    + apply record_item_later.
  - intros [cb|] IH args w; cbn; [|apply later_refl].
    specialize (IH [] w). by destruct (call cb [] w).
  - intros [cb|] IH args w; cbn; [|apply later_refl].
    specialize (IH [] w). by destruct (call cb [] w).
Qed.

Lemma continuation_later fn v w : later_world w (world_of (continuation fn v w)).
Proof.
  unfold continuation. pose proof (call_later fn [v] w) as H.
  by destruct (call fn [v] w).
Qed.

Lemma run_reaction_later r w : later_world w (run_reaction r w).
Proof.
  unfold run_reaction.
  set (arg := match r_kind r with OnFulfilled => _ | OnRejected => _ end).
  pose proof (call_later (r_handler r) [arg] w) as H.
  destruct (call (r_handler r) [arg] w) as [value w1|e w1]; cbn in H.
  - pose proof (resolveNextPromise_later (r_next r) value w1) as H1.
    destruct (resolveNextPromise (r_next r) value w1) as [[] w2|e w2]; cbn in H1.
    + by eapply later_trans.
    + eapply later_trans; [exact H|]. eapply later_trans; [exact H1|apply p_reject_later].
  - eapply later_trans; [exact H | apply p_reject_later].
Qed.

Lemma run_task_later t w : later_world w (run_task t w).
Proof.
  destruct t as [r|onRes onRej body]; cbn; [apply run_reaction_later|].
  match goal with
  | |- later_world _ (match ?rb with _ => _ end) =>
      assert (Hb : later_world w (world_of rb))
  end.
  { apply run_body_related.
    - apply later_refl.
    - apply later_trans.
    - intros; apply continuation_later.
    - intros; apply setTimeout_later.
    - apply Forall_forall. intros; apply continuation_later. }
  match goal with
  | |- later_world _ (match ?rb with _ => _ end) => destruct rb as [[] w'|e w']
  end; cbn in *; [done|].
  eapply later_trans; [exact Hb|]. by apply later_same_store.
Qed.

Lemma turn_later w w' : turn w = Some w' -> later_world w w'.
Proof.
  unfold turn. destruct (microtasks w) as [|t rest].
  - destruct (timers w) as [|t rest]; [done|].
    intros [= <-]. eapply later_trans; [|apply run_task_later]. by apply later_same_store.
  - intros [= <-]. eapply later_trans; [|apply run_task_later]. by apply later_same_store.
Qed.

Lemma run_later n : forall w, later_world w (run n w).
Proof.
  induction n as [|n IH]; intros w; cbn; [apply later_refl|].
  destruct (turn w) as [w'|] eqn:Ht; [|apply later_refl].
  eapply later_trans; [by apply turn_later | apply IH].
Qed.

Lemma Promise_resolve_later value w : later_world w (snd (Promise_resolve value w)).
Proof.
  destruct value; cbn;
    try (eapply later_trans; [apply new_Promise_later | apply p_resolve_later]).
  - apply later_refl.
  - eapply later_trans; [apply new_Promise_later | apply p_reject_later].
  - set (p := length (heap w)). set (w1 := set_heap _ w).
    assert (H1 : later_world w w1) by apply new_Promise_later.
    match goal with
    | |- later_world _ (snd (match ?rb with _ => _ end)) =>
        assert (Hb : later_world w1 (world_of rb))
    end.
    { apply run_body_related.
      - apply later_refl.
      - apply later_trans.
      - intros; apply continuation_later.
      - intros; apply setTimeout_later.
      - apply Forall_forall. intros; apply continuation_later. }
    match goal with
    | |- later_world _ (snd (match ?rb with _ => _ end)) => destruct rb as [[] w2|e w2]
    end; cbn in *.
    + by eapply later_trans.
    + eapply later_trans; [exact H1|]. eapply later_trans; [exact Hb|apply p_reject_later].
Qed.

Lemma construct_later executor w : later_world w (world_of (construct executor w)).
Proof.
  destruct executor as [body|]; cbn; [|apply later_refl].
  set (p := length (heap w)). set (w1 := set_heap _ w).
  assert (H1 : later_world w w1) by apply new_Promise_later.
  match goal with
  | |- later_world _ (world_of (match ?rb with _ => _ end)) =>
      assert (Hb : later_world w1 (world_of rb))
  end.
  { apply run_body_related.
    - apply later_refl.
    - apply later_trans.
    - intros; apply continuation_later.
    - intros; apply setTimeout_later.
    - apply Forall_forall. intros; apply continuation_later. }
  match goal with
  | |- later_world _ (world_of (match ?rb with _ => _ end)) => destruct rb as [[] w2|e w2]
  end; cbn in *.
  - by eapply later_trans.
  - eapply later_trans; [exact H1|]. eapply later_trans; [exact Hb|apply p_reject_later].
Qed.

Lemma Promise_reject_later value w : later_world w (snd (Promise_reject value w)).
Proof. cbn. eapply later_trans; [apply new_Promise_later | apply p_reject_later]. Qed.

Lemma register_item_later c onF onR w item :
  later_world w (register_item c onF onR w item).
Proof.
  unfold register_item.
  set (w1 := update_cell c _ w).
  pose proof (Promise_resolve_later item w1) as H.
  destruct (Promise_resolve item w1) as [q w2]. cbn in H.
  eapply later_trans; [apply update_cell_later|].
  eapply later_trans; [exact H | apply then_later].
Qed.

Lemma fold_left_later {A} (f : World -> A -> World) xs :
  (forall w x, later_world w (f w x)) ->
  forall w, later_world w (fold_left f xs w).
Proof.
  intros Hf. induction xs as [|x xs IH]; intros w; cbn; [apply later_refl|].
  eapply later_trans; [apply Hf | apply IH].
Qed.

Lemma new_cell_later w : later_world w (snd (new_cell w)).
Proof. by apply later_same_store. Qed.

Lemma Promise_all_later target w : later_world w (snd (Promise_all target w)).
Proof.
  unfold Promise_all. cbn.
  set (w1 := set_cells _ _).
  assert (H1 : later_world w w1).
  { eapply later_trans; [apply new_Promise_later | by apply later_same_store]. }
  match goal with |- later_world _ (if _ then p_resolve _ _ ?w2 else _) =>
    assert (H2 : later_world w1 w2) by (apply fold_left_later; intros; apply register_item_later)
  end.
  destruct (_ =? _)%Z.
  - eapply later_trans; [exact H1|]. eapply later_trans; [exact H2 | apply p_resolve_later].
  - by eapply later_trans.
Qed.

Lemma Promise_allSettled_later target w : later_world w (snd (Promise_allSettled target w)).
Proof.
  unfold Promise_allSettled. cbn.
  set (w1 := set_cells _ _).
  assert (H1 : later_world w w1).
  { eapply later_trans; [apply new_Promise_later | by apply later_same_store]. }
  match goal with |- later_world _ (if _ then p_resolve _ _ ?w2 else _) =>
    assert (H2 : later_world w1 w2) by (apply fold_left_later; intros; apply register_item_later)
  end.
  destruct (_ =? _)%Z.
  - eapply later_trans; [exact H1|]. eapply later_trans; [exact H2 | apply p_resolve_later].
  - by eapply later_trans.
Qed.

Lemma Promise_race_later target w : later_world w (snd (Promise_race target w)).
Proof.
  unfold Promise_race. cbn.
  eapply later_trans; [apply new_Promise_later|].
  apply fold_left_later. intros w0 item.
  pose proof (Promise_resolve_later item w0) as H.
  destruct (Promise_resolve item w0) as [q w2]. cbn in H.
  eapply later_trans; [exact H | apply then_later].
Qed.

(** * The settlement state machine *)

Lemma step_later w w' : step w w' -> later_world w w'.
Proof.
  destruct 1.
  - apply p_resolve_later.
  - apply p_reject_later.
  - apply construct_later.
  - apply then_later.
  - apply Promise_resolve_later.
  - apply Promise_reject_later.
  - apply Promise_all_later.
  - apply Promise_race_later.
  - apply Promise_allSettled_later.
  - by apply turn_later.
Qed.

Lemma steps_later w w' : rtc step w w' -> later_world w w'.
Proof.
  induction 1 as [|w1 w2 w3 H12 _ IH]; [apply later_refl|].
  eapply later_trans; [by apply step_later | exact IH].
Qed.

Lemma state_of_Some p w s :
  state_of p w = Some s -> exists rec, heap w !! p = Some rec /\ state rec = s.
Proof.
  unfold state_of. destruct (heap w !! p) as [rec|]; [|done].
  intros [= <-]. by exists rec.
Qed.

Lemma settled_forever w w' p s :
  later_world w w' -> state_of p w = Some s -> s <> Pending ->
  state_of p w' = Some s /\ result_of p w' = result_of p w /\ reason_of p w' = reason_of p w.
Proof.
  intros Hl Hs Hne. destruct (state_of_Some _ _ _ Hs) as (rec & Hp & <-).
  pose proof (lw_settled _ _ Hl _ _ Hp Hne) as Hp'.
  unfold state_of, result_of, reason_of. by rewrite Hp, Hp'.
Qed.

Lemma settle_takes_effect k p x w :
  state_of p w = Some Pending ->
  state_of p (settle k p x w) = Some (target_state k) /\
  (match k with OnFulfilled => result_of | OnRejected => reason_of end) p (settle k p x w) = x.
Proof.
  intros Hs. destruct (state_of_Some _ _ _ Hs) as (rec & Hp & Hrec).
  rewrite (settle_pending _ _ _ _ _ Hp Hrec).
  assert (Hlt : p < length (heap w)) by by eapply lookup_lt_Some.
  unfold state_of, result_of, reason_of.
  destruct k; cbn; by rewrite list_lookup_insert_eq.
Qed.

(** C1: a settlement function called on a container that is not pending
    changes nothing; called on a pending one it moves the state to fulfilled
    (resp. rejected) and stores the payload; and whatever the program and the
    host's loop do afterwards, a container that has left pending keeps its
    state, result and reason. *)
Theorem settle_at_most_once :
  (forall p x y w, state_of p w <> Some Pending ->
     p_resolve p x w = w /\ p_reject p y w = w) /\
  (forall p x w, state_of p w = Some Pending ->
     (state_of p (p_resolve p x w) = Some Fulfilled /\ result_of p (p_resolve p x w) = x) /\
     (state_of p (p_reject p x w) = Some Rejected /\ reason_of p (p_reject p x w) = x)) /\
  (forall w w' p s, rtc step w w' -> state_of p w = Some s -> s <> Pending ->
     state_of p w' = Some s /\
     result_of p w' = result_of p w /\
     reason_of p w' = reason_of p w).
Proof.
  split; [|split].
  - intros p x y w H. split.
    + apply (settle_not_pending OnFulfilled _ _ _ H).
    + apply (settle_not_pending OnRejected _ _ _ H).
  - intros p x w H. split.
    + apply (settle_takes_effect OnFulfilled _ _ _ H).
    + apply (settle_takes_effect OnRejected _ _ _ H).
  - intros w w' p s Hsteps. apply settled_forever. by apply steps_later.
Qed.

Lemma settle_at_most_once_witness :
  let w0 := snd (new_Promise empty_world) in
  let w1 := p_resolve 0 (VNum 1) w0 in
  let w3 := p_reject 0 (VStr "late") (p_resolve 0 (VNum 2) w1) in
  state_of 0 w1 = Some Fulfilled /\
  (p_resolve 0 (VNum 2) w1 = w1 /\ p_reject 0 (VStr "late") w1 = w1) /\
  (state_of 0 w3 = Some Fulfilled /\
   result_of 0 w3 = result_of 0 w1 /\ reason_of 0 w3 = reason_of 0 w1).
Proof.
  intros w0 w1 w3. split; [|split].
  - apply (proj1 (proj1 (proj2 settle_at_most_once) 0 (VNum 1) w0 eq_refl)).
  - apply (proj1 settle_at_most_once 0). vm_compute. discriminate.
  - apply (proj2 (proj2 settle_at_most_once) w1 w3 0 Fulfilled).
    + eapply rtc_l; [apply (step_settleFulfilled 0 (VNum 2))|].
      eapply rtc_l; [apply (step_settleRejected 0 (VStr "late"))|]. apply rtc_refl.
    + reflexivity.
    + discriminate.
Defined.

(** An initializer that calls the fulfilling function twice and then the
    rejecting one: only the first call counts.  An initializer that raises
    after settling changes nothing either, and one that raises first
    rejects. *)
Example settle_three_times :
  construct (Some [CallResolve (VNum 1); CallResolve (VNum 2); CallReject (VStr "e")])
            empty_world =
  Normal 0 (mkWorld [mkPromise Fulfilled (VNum 1) VUndefined [] []] [] [] [] [] [] []) /\
  construct (Some [CallResolve (VNum 1); Raise (VStr "e")]) empty_world =
  Normal 0 (mkWorld [mkPromise Fulfilled (VNum 1) VUndefined [] []] [] [] [] [] [] []) /\
  construct (Some [Raise (VStr "e"); CallResolve (VNum 1)]) empty_world =
  Normal 0 (mkWorld [mkPromise Rejected VUndefined (VStr "e") [] []] [] [] [] [] [] []) /\
  construct None empty_world = Raised not_an_executor empty_world.
Proof. repeat split. Qed.

(** * The reaction queues *)

Lemma then_pending this onF onR w rec :
  heap w !! this = Some rec -> state rec = Pending ->
  then_ this onF onR w =
  (length (heap w),
   set_heap (<[this := registered this onF onR (length (heap w)) rec]>
               (heap w ++ [fresh_promise])) w).
Proof.
  intros Hp Hs. unfold then_. cbn. unfold state_of. cbn.
  rewrite (lookup_app_l_Some _ _ _ _ Hp). cbn. rewrite Hs.
  unfold update_promise. cbn. by rewrite (lookup_app_l_Some _ _ _ _ Hp).
Qed.

Lemma then_settled this onF onR w rec k :
  heap w !! this = Some rec -> state rec = target_state k ->
  then_ this onF onR w =
  (length (heap w),
   createMicroTask (TReaction (reaction_of k this onF onR (length (heap w))))
                   (snd (new_Promise w))).
Proof.
  intros Hp Hs. unfold then_. cbn. unfold state_of. cbn.
  rewrite (lookup_app_l_Some _ _ _ _ Hp). cbn. rewrite Hs. by destruct k.
Qed.

Lemma not_pending_target rec :
  state rec <> Pending -> exists k, state rec = target_state k.
Proof.
  destruct (state rec); [done | by exists OnFulfilled | by exists OnRejected].
Qed.

Lemma drained_later w w' : drained w -> later_world w w' -> drained w'.
Proof.
  intros Hd Hl p rec' Hp. destruct (lw_drained _ _ Hl _ _ Hp) as [?|Hp0]; [done|].
  by eapply Hd.
Qed.

Lemma drained_empty : drained empty_world.
Proof. intros p rec Hp. cbn in Hp. by destruct p. Qed.

(** C9 as stated fails: after a container with a registered reaction is
    fulfilled, its queue of rejection reactions still holds that reaction. *)
Lemma both_queues_empty_counterexample :
  let w := p_resolve 0 (VNum 1) (snd (then_ 0 None None (snd (new_Promise empty_world)))) in
  state_of 0 w = Some Fulfilled /\
  (onFulfilledCallbacks <$> heap w !! 0) = Some [] /\
  (onRejectedCallbacks <$> heap w !! 0) = Some [reaction_of OnRejected 0 None None 1] /\
  ~ (forall rec, heap w !! 0 = Some rec ->
       onFulfilledCallbacks rec = [] /\ onRejectedCallbacks rec = []).
Proof.
  cbv zeta. split; [reflexivity|]. split; [reflexivity|]. split; [reflexivity|].
  intros H. specialize (H _ eq_refl). destruct H as [_ H]. discriminate H.
Qed.

(** * The single-call latch *)

Lemma run_body_ext onRes onRes' onRej onRej' defer defer' body :
  (forall v w, onRes v w = onRes' v w) ->
  (forall r w, onRej r w = onRej' r w) ->
  (forall b w, defer b w = defer' b w) ->
  forall w, run_body onRes onRej defer body w = run_body onRes' onRej' defer' body w.
Proof.
  intros H1 H2 H3. induction body as [|a rest IH]; intros w; cbn; [done|].
  destruct a as [v|r|e|b].
  - rewrite H1. destruct (onRes' v w); [apply IH | done].
  - rewrite H2. destruct (onRej' r w); [apply IH | done].
  - done.
  - rewrite H3. apply IH.
Qed.

Lemma run_body_app onRes onRej defer pre post : forall w,
  run_body onRes onRej defer (pre ++ post) w =
  match run_body onRes onRej defer pre w with
  | Normal _ w' => run_body onRes onRej defer post w'
  | Raised e w' => Raised e w'
  end.
Proof.
  induction pre as [|a rest IH]; intros w; cbn; [done|].
  destruct a as [v|r|e|b]; try done.
  - destruct (onRes v w); [apply IH | done].
  - destruct (onRej r w); [apply IH | done].
Qed.

Lemma continuation_onResolved l p v w :
  continuation (HOnResolved l p) v w =
  if fired l w then Normal tt w else resolveNextPromise p v (fire l w).
Proof.
  unfold continuation. cbn. destruct (fired l w); [done|].
  by destruct (resolveNextPromise p v (fire l w)) as [[] ?|].
Qed.

Lemma continuation_onRejected l p r w :
  continuation (HOnRejected l p) r w =
  if fired l w then Normal tt w else Normal tt (p_reject p r (fire l w)).
Proof. unfold continuation. cbn. by destruct (fired l w). Qed.

Lemma resolveNextPromise_thenable promise body w :
  resolveNextPromise promise (VThenable body) w =
  let HAS_CALLED := length (latches w) in
  match adoption HAS_CALLED promise body (snd (new_latch w)) with
  | Normal _ w2 => Normal tt w2
  | Raised error w2 =>
      if fired HAS_CALLED w2 then Normal tt w2
      else Normal tt (p_reject promise error (fire HAS_CALLED w2))
  end.
Proof.
  cbn. unfold adoption.
  erewrite (run_body_ext (continuation (HOnResolved _ _))); [reflexivity|..].
  - intros. apply continuation_onResolved.
  - intros. apply continuation_onRejected.
  - done.
Qed.

Lemma fresh_latch_unfired w : fired (length (latches w)) (snd (new_latch w)) = false.
Proof. unfold fired. cbn. by rewrite list_lookup_middle. Qed.


Lemma adoption_later l p body w : later_world w (world_of (adoption l p body w)).
Proof.
  unfold adoption. apply run_body_related.
  - apply later_refl.
  - apply later_trans.
  - intros; apply continuation_later.
  - intros; apply setTimeout_later.
  - apply Forall_forall. intros; apply continuation_later.
Qed.




(** * Deferred turns *)

Lemma appended_refl w : appended w w.
Proof. split; exists []; by rewrite app_nil_r. Qed.

Lemma appended_trans w1 w2 w3 : appended w1 w2 -> appended w2 w3 -> appended w1 w3.
Proof.
  intros [[m1 A1] [t1 B1]] [[m2 A2] [t2 B2]]. split.
  - exists (m1 ++ m2). by rewrite A2, A1, app_assoc.
  - exists (t1 ++ t2). by rewrite B2, B1, app_assoc.
Qed.

Lemma quiet_appended w w' : quiet w w' -> appended w w'.
Proof. intros [_ _ _ A B]. by split. Qed.

Lemma appended_same_queues w w' :
  microtasks w' = microtasks w -> timers w' = timers w -> appended w w'.
Proof. intros A B. split; exists []; by rewrite app_nil_r. Qed.

Lemma update_cell_same c f w :
  heap (update_cell c f w) = heap w /\ latches (update_cell c f w) = latches w /\
  microtasks (update_cell c f w) = microtasks w /\ timers (update_cell c f w) = timers w /\
  trace (update_cell c f w) = trace w.
Proof. unfold update_cell. by destruct (cells w !! c). Qed.

Lemma record_item_trace c index p entry w :
  trace (record_item c index p entry w) = trace w.
Proof.
  unfold record_item.
  set (w2 := update_cell c _ (update_cell c _ w)).
  assert (H2 : trace w2 = trace w).
  { unfold w2. by rewrite !(proj2 (proj2 (proj2 (proj2 (update_cell_same _ _ _))))). }
  destruct (restNum_of c w2 =? 0)%Z; [|done].
  by rewrite (q_trace _ _ (p_resolve_quiet p _ w2)).
Qed.

Lemma record_item_appended c index p entry w : appended w (record_item c index p entry w).
Proof.
  unfold record_item.
  set (w2 := update_cell c _ (update_cell c _ w)).
  assert (H2 : appended w w2).
  { eapply appended_trans; apply appended_same_queues; apply update_cell_same. }
  destruct (restNum_of c w2 =? 0)%Z; [|done].
  eapply appended_trans; [exact H2 | apply quiet_appended, p_resolve_quiet].
Qed.

Lemma call_trace fn :
  forall args w, trace (world_of (call fn args w)) = trace w ++ logged fn args.
Proof.
  revert fn.
  apply (Handler_callback_ind (fun fn =>
    forall args w, trace (world_of (call fn args w)) = trace w ++ logged fn args)).
  - intros h. destruct h; try exact I; intros args w; cbn; rewrite ?app_nil_r; try done.
    + by destruct (f args).
    + destruct (fired latch w); cbn; [done|].
      pose proof (q_trace _ _ (resolveNextPromise_quiet promise (arg0 args) (fire latch w))) as H.
      by destruct (resolveNextPromise promise (arg0 args) (fire latch w)).
    + destruct (fired latch w); cbn; [done|].
      by rewrite (q_trace _ _ (p_reject_quiet _ _ _)).
    + by rewrite (q_trace _ _ (p_resolve_quiet _ _ _)).
    + by rewrite (q_trace _ _ (p_reject_quiet _ _ _)).
    + apply record_item_trace.
    + by rewrite (q_trace _ _ (p_resolve_quiet _ _ _)).
    + apply record_item_trace.
    + apply record_item_trace.
  - intros [cb|] IH args w; cbn; [|by rewrite app_nil_r].
    specialize (IH [] w). by destruct (call cb [] w).
  - intros [cb|] IH args w; cbn; [|by rewrite app_nil_r].
    specialize (IH [] w). by destruct (call cb [] w).
Qed.

Lemma call_appended fn : forall args w, appended w (world_of (call fn args w)).
Proof.
  revert fn.
  apply (Handler_callback_ind (fun fn =>
    forall args w, appended w (world_of (call fn args w)))).
  - intros h. destruct h; try exact I; intros args w; cbn; try apply appended_refl.
    + destruct (f args); cbn; by apply appended_same_queues.
    + destruct (fired latch w); cbn; [apply appended_refl|].
      pose proof (resolveNextPromise_quiet promise (arg0 args) (fire latch w)) as H.
      destruct (resolveNextPromise promise (arg0 args) (fire latch w)); cbn in *;
        (eapply appended_trans; [apply quiet_appended, fire_quiet | by apply quiet_appended]).
    + destruct (fired latch w); cbn; [apply appended_refl|].
      eapply appended_trans; apply quiet_appended; [apply fire_quiet | apply p_reject_quiet].
    + apply quiet_appended, p_resolve_quiet.
    + apply quiet_appended, p_reject_quiet.
    + apply record_item_appended.
    + apply quiet_appended, p_resolve_quiet.
    + apply record_item_appended.
    + apply record_item_appended.
  - intros [cb|] IH args w; cbn; [|apply appended_refl].
    specialize (IH [] w). by destruct (call cb [] w).
  - intros [cb|] IH args w; cbn; [|apply appended_refl].
    specialize (IH [] w). by destruct (call cb [] w).
Qed.

Lemma run_reaction_trace r w :
  trace (run_reaction r w) = trace w ++ logged (r_handler r) [reaction_arg r w].
Proof.
  unfold run_reaction. fold (reaction_arg r w).
  pose proof (call_trace (r_handler r) [reaction_arg r w] w) as H.
  destruct (call (r_handler r) [reaction_arg r w] w) as [value w1|e w1]; cbn in H.
  - pose proof (q_trace _ _ (resolveNextPromise_quiet (r_next r) value w1)) as H1.
    destruct (resolveNextPromise (r_next r) value w1) as [[] w2|e w2]; cbn in H1.
    + congruence.
    + rewrite (q_trace _ _ (p_reject_quiet _ _ _)). congruence.
  - rewrite (q_trace _ _ (p_reject_quiet _ _ _)). congruence.
Qed.

Lemma run_reaction_appended r w : appended w (run_reaction r w).
Proof.
  unfold run_reaction. fold (reaction_arg r w).
  pose proof (call_appended (r_handler r) [reaction_arg r w] w) as H.
  destruct (call (r_handler r) [reaction_arg r w] w) as [value w1|e w1]; cbn in H.
  - pose proof (resolveNextPromise_quiet (r_next r) value w1) as H1.
    destruct (resolveNextPromise (r_next r) value w1) as [[] w2|e w2]; cbn in H1.
    + eapply appended_trans; [exact H | by apply quiet_appended].
    + eapply appended_trans; [exact H|].
      eapply appended_trans; apply quiet_appended; [exact H1 | apply p_reject_quiet].
  - eapply appended_trans; [exact H | apply quiet_appended, p_reject_quiet].
Qed.

Lemma reactions_from_spec k this hs : forall next,
  Forall (fun r => r_this r = this /\ r_kind r = k) (reactions_from k this next hs).
Proof.
  induction hs as [|h rest IH]; intros next; cbn; [constructor|].
  constructor; [done | apply IH].
Qed.

Lemma reactions_from_logged k this x hs : forall next,
  concat (map (fun r => logged (r_handler r) [x]) (reactions_from k this next hs)) =
  calls_in_order k x hs.
Proof.
  unfold calls_in_order.
  induction hs as [|h rest IH]; intros next; cbn; [done|].
  rewrite IH. f_equal; by destruct k.
Qed.

Lemma reactions_from_length k this hs : forall next,
  length (reactions_from k this next hs) = length hs.
Proof. induction hs as [|h rest IH]; intros next; cbn; [done|]. by rewrite IH. Qed.

(** Running the reactions at the front of the microtask queue, all of them
    reactions of one settled container. *)
Lemma run_reactions k this rec rs : forall w more,
  Forall (fun r => r_this r = this /\ r_kind r = k) rs ->
  heap w !! this = Some rec -> state rec <> Pending ->
  microtasks w = map TReaction rs ++ more ->
  trace (run (length rs) w) =
  trace w ++ concat (map (fun r => logged (r_handler r) [payload k rec]) rs).
Proof.
  induction rs as [|r rest IH]; intros w more Hall Hp Hs Hq; cbn.
  - by rewrite app_nil_r.
  - inversion Hall as [|? ? [Hthis Hkind] Hrest]; subst.
    unfold turn. rewrite Hq. cbn.
    set (w0 := set_microtasks (map TReaction rest ++ more) w).
    assert (Harg : reaction_arg r w0 = payload (r_kind r) rec).
    { unfold reaction_arg, result_of, reason_of. cbn. rewrite Hp. by destruct (r_kind r). }
    pose proof (run_reaction_trace r w0) as Ht.
    destruct (run_reaction_appended r w0) as [[more1 Hm] _].
    pose proof (run_reaction_later r w0) as Hl.
    rewrite (IH (run_reaction r w0) (more ++ more1) Hrest).
    + rewrite Ht, Harg. cbn. by rewrite <- app_assoc.
    + by apply (lw_settled _ _ Hl).
    + done.
    + rewrite Hm. cbn. by rewrite app_assoc.
Qed.

Lemma register_all_settled k this rec hs : forall w,
  heap w !! this = Some rec -> state rec = target_state k ->
  microtasks (register_all this hs w) =
    microtasks w ++ map TReaction (reactions_from k this (length (heap w)) hs) /\
  trace (register_all this hs w) = trace w /\
  heap (register_all this hs w) !! this = Some rec.
Proof.
  induction hs as [|h rest IH]; intros w Hp Hs; cbn.
  - by rewrite app_nil_r.
  - rewrite (then_settled _ _ _ _ _ _ Hp Hs). cbn [snd].
    set (w1 := createMicroTask _ _).
    assert (Hp1 : heap w1 !! this = Some rec) by (cbn; by apply lookup_app_l_Some).
    assert (Hlen : length (heap w1) = S (length (heap w))).
    { unfold w1, createMicroTask. cbn. rewrite length_app. cbn. lia. }
    assert (Hm1 : microtasks w1 =
                  microtasks w ++ [TReaction (reaction_of k this h.1 h.2 (length (heap w)))])
      by reflexivity.
    destruct (IH w1 Hp1 Hs) as (Hm & Ht & Hh).
    unfold register_all in *. rewrite Hm, Ht, Hh, Hlen, Hm1. split; [|done].
    by rewrite <- app_assoc.
Qed.

Lemma register_all_pending this hs : forall w rec,
  heap w !! this = Some rec -> state rec = Pending ->
  heap (register_all this hs w) !! this =
    Some (mkPromise Pending (result rec) (reason rec)
            (onFulfilledCallbacks rec ++ reactions_from OnFulfilled this (length (heap w)) hs)
            (onRejectedCallbacks rec ++ reactions_from OnRejected this (length (heap w)) hs)) /\
  microtasks (register_all this hs w) = microtasks w /\
  trace (register_all this hs w) = trace w.
Proof.
  induction hs as [|h rest IH]; intros w rec Hp Hs; cbn.
  - rewrite !app_nil_r, <- Hs. by destruct rec.
  - rewrite (then_pending _ _ _ _ _ Hp Hs). cbn [snd].
    set (w1 := set_heap _ w).
    assert (Hlt : this < length (heap w)) by by eapply lookup_lt_Some.
    assert (Hp1 : heap w1 !! this = Some (registered this (fst h) (snd h) (length (heap w)) rec)).
    { cbn. rewrite list_lookup_insert_eq; [done|]. rewrite length_app. lia. }
    destruct (IH w1 _ Hp1 Hs) as (Hh & Hm & Ht).
    unfold register_all in *. rewrite Hh, Hm, Ht. split; [|done].
    cbn. rewrite length_insert, length_app, <- !app_assoc. cbn.
    by replace (length (heap w) + 1) with (S (length (heap w))) by lia.
Qed.

(** The scenario of the specification: a handler registered on a container
    that is already fulfilled has not been called when [then] returns, and
    is called on the next turn. *)
Example handler_runs_after_then_returns :
  let w := snd (Promise_resolve (VNum 7) empty_world) in
  let w' := snd (then_ 0 (Some (HostFn 1 (fun _ => Return VUndefined))) None w) in
  trace w' = [] /\ trace (run 1 w') = [(1, [VNum 7])].
Proof. split; reflexivity. Qed.

(** * The first turn after a registration *)

Lemma set_microtasks_nil w : microtasks w = [] -> set_microtasks [] w = w.
Proof. intros H. unfold set_microtasks. rewrite <- H. by destruct w. Qed.

(** A reaction registered on a settled container, the host's queue being
    empty, is what the next turn runs. *)
Lemma then_settled_turn k this onF onR w rec :
  heap w !! this = Some rec -> state rec = target_state k -> microtasks w = [] ->
  run 1 (snd (then_ this onF onR w)) =
  run_reaction (reaction_of k this onF onR (length (heap w))) (snd (new_Promise w)).
Proof.
  intros Hp Hs Hq. rewrite (then_settled _ _ _ _ _ _ Hp Hs).
  cbn. unfold turn, createMicroTask. cbn. rewrite Hq. cbn.
  f_equal. unfold set_microtasks, set_heap. cbn. by rewrite Hq.
Qed.

(** A reaction registered alone on a pending container is what the first
    turn after the settlement runs. *)
Lemma then_pending_turn k this x onF onR w rec :
  heap w !! this = Some rec -> state rec = Pending -> queue k rec = [] ->
  microtasks w = [] ->
  run 1 (settle k this x (snd (then_ this onF onR w))) =
  run_reaction (reaction_of k this onF onR (length (heap w)))
    (set_heap (<[this := settled k x (registered this onF onR (length (heap w)) rec)]>
                 (heap w ++ [fresh_promise])) w).
Proof.
  intros Hp Hs Hk Hq. rewrite (then_pending _ _ _ _ _ Hp Hs). cbn [snd].
  assert (Hlt : this < length (heap w)) by by eapply lookup_lt_Some.
  rewrite (settle_pending k this x _ (registered this onF onR (length (heap w)) rec));
    [|cbn; apply list_lookup_insert_eq; rewrite length_app; lia|exact Hs].
  cbn. unfold turn. cbn. rewrite Hq. cbn.
  replace (queue k (registered this onF onR (length (heap w)) rec))
    with [reaction_of k this onF onR (length (heap w))]
    by (destruct k; cbn in *; by rewrite Hk).
  cbn. f_equal. unfold set_microtasks, set_heap. cbn.
  by rewrite list_insert_insert_eq, Hq.
Qed.

Lemma fresh_after_construct w :
  state_of (length (heap w)) (snd (new_Promise w)) = Some Pending.
Proof. unfold state_of. cbn. by rewrite list_lookup_middle. Qed.

Lemma fresh_after_settle this rec' w :
  this < length (heap w) ->
  state_of (length (heap w))
    (set_heap (<[this := rec']> (heap w ++ [fresh_promise])) w) = Some Pending.
Proof.
  intros Hlt. unfold state_of. cbn.
  rewrite list_lookup_insert_ne by lia. by rewrite list_lookup_middle.
Qed.

(** * [finally] *)

(** What the reaction built by [finally] does when its callback is a host
    function. *)
Lemma run_finally_reaction k this next tag f w :
  let cb := Some (HostFn tag f) in
  run_reaction (reaction_of k this (Some (HFinallyThen cb)) (Some (HFinallyCatch cb)) next) w =
  match f [] with
  | Throw e => p_reject next e (log_call tag [] w)
  | Return _ =>
      match k with
      | OnFulfilled =>
          match resolveNextPromise next (result_of this w) (log_call tag [] w) with
          | Normal _ w2 => w2
          | Raised error w2 => p_reject next error w2
          end
      | OnRejected => p_reject next (reason_of this w) (log_call tag [] w)
      end
  end.
Proof.
  intros cb. unfold run_reaction. destruct k; cbn; by destruct (f []).
Qed.

Lemma log_call_state tag args p w : state_of p (log_call tag args w) = state_of p w.
Proof. done. Qed.

Lemma finally_outcome_reaction k this x tag f w rec w' :
  heap w !! this = Some rec -> microtasks w = [] ->
  finally_outcomes k this x tag f w rec w' ->
  exists w0,
    w' = run_reaction (reaction_of k this (Some (HFinallyThen (Some (HostFn tag f))))
                         (Some (HFinallyCatch (Some (HostFn tag f)))) (length (heap w))) w0 /\
    state_of (length (heap w)) w0 = Some Pending /\
    trace w0 = trace w /\
    match k with OnFulfilled => result_of this w0 | OnRejected => reason_of this w0 end = x.
Proof.
  intros Hp Hq [(Hs & Hx & ->) | (Hs & Hk & ->)].
  - eexists. split; [by eapply then_settled_turn|].
    split; [apply fresh_after_construct|]. split; [done|].
    unfold result_of, reason_of. cbn. rewrite (lookup_app_l_Some _ _ _ _ Hp).
    by destruct k.
  - assert (Hlt : this < length (heap w)) by by eapply lookup_lt_Some.
    eexists. split; [by eapply then_pending_turn|].
    split; [by apply fresh_after_settle|]. split; [done|].
    unfold result_of, reason_of. cbn.
    rewrite list_lookup_insert_eq by (rewrite length_app; lia).
    by destruct k.
Qed.

Lemma resolveNextPromise_primitive promise value w :
  is_object value = false ->
  resolveNextPromise promise value w = Normal tt (p_resolve promise value w).
Proof. by destruct value. Qed.

(** C10: when the callback passed to [finally] raises, on either settlement
    path, the container returned by [finally] is rejected with the raised
    error, whatever the result or reason of the upstream container. *)
Theorem finally_callback_throws k this x tag f e w rec w' :
  f [] = Throw e ->
  heap w !! this = Some rec -> microtasks w = [] ->
  finally_outcomes k this x tag f w rec w' ->
  let next := fst (finally_ this (Some (HostFn tag f)) w) in
  state_of next w' = Some Rejected /\
  reason_of next w' = e /\
  trace w' = trace w ++ [(tag, [])].
Proof.
  intros Hf Hp Hq Hout next.
  destruct (finally_outcome_reaction _ _ _ _ _ _ _ _ Hp Hq Hout) as (w0 & -> & Hnext & Ht & _).
  replace next with (length (heap w)) by reflexivity.
  rewrite run_finally_reaction, Hf.
  destruct (settle_takes_effect OnRejected (length (heap w)) e (log_call tag [] w0) Hnext)
    as [Hs Hr].
  split; [exact Hs|]. split; [exact Hr|].
  rewrite (q_trace _ _ (p_reject_quiet _ _ _)). cbn. by rewrite Ht.
Qed.

Lemma finally_callback_throws_witness :
  let f := fun _ : list Value => Throw (VStr "boom") in
  let w := snd (Promise_resolve (VNum 1) empty_world) in
  let w' := run 1 (snd (finally_ 0 (Some (HostFn 3 f)) w)) in
  state_of 1 w' = Some Rejected /\ reason_of 1 w' = VStr "boom" /\ trace w' = [(3, [])].
Proof.
  intros f w w'.
  apply (finally_callback_throws OnFulfilled 0 (VNum 1) 3 f (VStr "boom") w
           (mkPromise Fulfilled (VNum 1) VUndefined [] []) w').
  - reflexivity.
  - reflexivity.
  - reflexivity.
  - left. repeat split.
Defined.

(** C6 as stated fails: a callback that returns a rejected thenable, or a
    rejected container, does not make the container returned by [finally]
    reject; the original result is forwarded.  (And a result that is itself a
    thenable is not forwarded as it is: it is adopted.) *)
Lemma finally_rejected_thenable_counterexample :
  (let boom := VThenable [CallReject (VStr "boom")] in
   let w := snd (Promise_resolve (VNum 1) empty_world) in
   let '(next, w1) := finally_ 0 (Some (HostFn 3 (fun _ => Return boom))) w in
   let w' := run 10 w1 in
   quiescent w' /\ trace w' = [(3, [])] /\
   state_of next w' = Some Fulfilled /\ result_of next w' = VNum 1 /\
   state_of next w' <> Some Rejected) /\
  (let w := snd (Promise_reject (VStr "boom") (snd (Promise_resolve (VNum 1) empty_world))) in
   let '(next, w1) := finally_ 0 (Some (HostFn 3 (fun _ => Return (VPromise 1)))) w in
   let w' := run 10 w1 in
   quiescent w' /\ state_of 1 w' = Some Rejected /\
   state_of next w' = Some Fulfilled /\ result_of next w' = VNum 1) /\
  (let bad := VThenable [CallReject (VStr "bad")] in
   let w := p_resolve 0 bad (snd (new_Promise empty_world)) in
   let '(next, w1) := finally_ 0 (Some (HostFn 3 (fun _ => Return VUndefined))) w in
   let w' := run 10 w1 in
   quiescent w' /\ state_of 0 w' = Some Fulfilled /\
   state_of next w' = Some Rejected /\ reason_of next w' = VStr "bad").
Proof.
  split; [|split].
  - vm_compute. repeat split; discriminate.
  - vm_compute. repeat split.
  - vm_compute. repeat split.
Qed.

(** * Cycles *)

(** A reaction whose handler returns the container its own [then] call
    produced: that container is rejected with the cycle error. *)
Lemma direct_cycle_rejected k this tag f w rec :
  heap w !! this = Some rec -> state rec = target_state k -> microtasks w = [] ->
  f [payload k rec] = Return (VPromise (length (heap w))) ->
  let '(next, w1) :=
    then_ this (Some (HostFn tag f)) (Some (HostFn tag f)) w in
  state_of next (run 1 w1) = Some Rejected /\ reason_of next (run 1 w1) = cycle_error.
Proof.
  intros Hp Hs Hq Hf.
  pose proof (then_settled_turn k this (Some (HostFn tag f)) (Some (HostFn tag f)) w rec
                Hp Hs Hq) as Hrun.
  rewrite (then_settled _ _ _ _ _ _ Hp Hs) in *. cbn [snd] in Hrun. rewrite Hrun.
  unfold run_reaction.
  assert (Harg : reaction_arg (reaction_of k this (Some (HostFn tag f)) (Some (HostFn tag f))
                                 (length (heap w))) (snd (new_Promise w)) = payload k rec).
  { unfold reaction_arg, result_of, reason_of. cbn.
    rewrite (lookup_app_l_Some _ _ _ _ Hp). by destruct k. }
  unfold reaction_arg in Harg. rewrite Harg.
  replace (r_handler (reaction_of k this (Some (HostFn tag f)) (Some (HostFn tag f))
                        (length (heap w)))) with (HostFn tag f) by by destruct k.
  cbn [call]. rewrite Hf. cbn [resolveNextPromise r_next reaction_of].
  rewrite Nat.eqb_refl.
  apply (settle_takes_effect OnRejected).
  apply fresh_after_construct.
Qed.

(** The same cycle reached through a thenable: the error raised by the
    resolution procedure is swallowed by the latch and the container stays
    as it was. *)
Lemma thenable_cycle_swallowed p rest w :
  resolveNextPromise p (VThenable (CallResolve (VPromise p) :: rest)) w =
  Normal tt (fire (length (latches w)) (snd (new_latch w))).
Proof.
  rewrite resolveNextPromise_thenable. cbv zeta.
  unfold adoption. cbn [run_body].
  rewrite continuation_onResolved, fresh_latch_unfired.
  cbn [resolveNextPromise]. rewrite Nat.eqb_refl.
  rewrite fired_fire; [done|].
  unfold new_latch, set_latches. cbn. rewrite length_app. cbn. lia.
Qed.

(** C2, the failing input: the container [P] returned by [then] whose
    handler returns a thenable that calls back with [P], at once or later,
    or that adopts a container that was fulfilled with [P].  No host queue
    holds anything any more and [P] is still pending; in general the
    resolution procedure entered through a thenable's continuation leaves
    the state of [P] untouched and schedules nothing. *)
Theorem cycle_through_thenable_never_settles :
  (forall p rest w,
     let w' := world_of (resolveNextPromise p (VThenable (CallResolve (VPromise p) :: rest)) w) in
     state_of p w' = state_of p w /\ microtasks w' = microtasks w /\ timers w' = timers w) /\
  (let w0 := snd (Promise_resolve (VNum 0) empty_world) in
   let '(P, w1) := then_ 0 (Some (HostFn 7 (fun _ =>
                     Return (VThenable [CallResolve (VPromise 1)])))) None w0 in
   let w' := run 10 w1 in
   P = 1 /\ quiescent w' /\ trace w' = [(7, [VNum 0])] /\ state_of P w' = Some Pending) /\
  (let w0 := snd (Promise_resolve (VNum 0) empty_world) in
   let '(P, w1) := then_ 0 (Some (HostFn 7 (fun _ =>
                     Return (VThenable [Later [CallResolve (VPromise 1)]])))) None w0 in
   let w' := run 10 w1 in
   P = 1 /\ quiescent w' /\ state_of P w' = Some Pending /\ uncaught w' = [cycle_error]) /\
  (let w0 := snd (new_Promise (snd (Promise_resolve (VNum 0) empty_world))) in
   let '(P, w1) := then_ 0 (Some (HostFn 7 (fun _ => Return (VPromise 1)))) None w0 in
   let w' := run 10 (p_resolve 1 (VPromise P) w1) in
   P = 2 /\ quiescent w' /\ state_of P w' = Some Pending).
Proof.
  split; [|split; [|split]].
  - intros p rest w w'. unfold w'. by rewrite thenable_cycle_swallowed.
  - vm_compute. repeat split.
  - vm_compute. repeat split.
  - vm_compute. repeat split.
Qed.

(** * The static [resolve] *)

Lemma Promise_resolve_identity q w : Promise_resolve (VPromise q) w = (q, w).
Proof. done. Qed.

Lemma run_body_later onRes onRej body w :
  later_world w
    (world_of (run_body (continuation onRes) (continuation onRej)
                 (fun b w => setTimeout (TLater onRes onRej b) w) body w)).
Proof.
  apply run_body_related.
  - apply later_refl.
  - apply later_trans.
  - intros; apply continuation_later.
  - intros; apply setTimeout_later.
  - apply Forall_forall. intros; apply continuation_later.
Qed.

(** A thenable whose [then] calls back with [v] first: the container is
    fulfilled with [v] itself, whatever [v] is. *)
Lemma Promise_resolve_first_call v rest w :
  let '(p, w') := Promise_resolve (VThenable (CallResolve v :: rest)) w in
  p = length (heap w) /\ state_of p w' = Some Fulfilled /\ result_of p w' = v.
Proof.
  cbn [Promise_resolve new_Promise run_body].
  set (p := length (heap w)). set (w1 := set_heap _ w).
  assert (Hpend : state_of p w1 = Some Pending) by apply fresh_after_construct.
  unfold continuation at 1. cbn [call]. change (arg0 [v]) with v.
  destruct (settle_takes_effect OnFulfilled p v w1 Hpend) as [Hs Hr]. cbn [settle] in *.
  set (w2 := p_resolve p v w1) in *.
  pose proof (run_body_later (HResolveOf p) (HRejectOf p) rest w2) as Hl.
  assert (Hkeep : forall w3, later_world w2 w3 ->
            state_of p w3 = Some Fulfilled /\ result_of p w3 = v).
  { intros w3 H3. destruct (settled_forever _ _ _ _ H3 Hs) as (? & ? & ?); [done|].
    split; [exact H | by rewrite H0]. }
  destruct (run_body _ _ _ rest w2) as [[] w3|e w3]; cbn in Hl; cbv beta iota.
  - split; [done|]. by apply Hkeep.
  - split; [done|]. apply Hkeep. eapply later_trans; [exact Hl | apply p_reject_later].
Qed.

(** C3, the failing input: [resolve] called with a thenable whose [then]
    calls back with a second thenable that would call back with ["X"].  The
    container is fulfilled with the second thenable, which is never asked for
    its outcome, where the resolution procedure used by [then] adopts it. *)
Theorem static_resolve_does_not_unwrap :
  (forall inner rest w,
     let '(p, w') := Promise_resolve (VThenable (CallResolve (VThenable inner) :: rest)) w in
     state_of p w' = Some Fulfilled /\ result_of p w' = VThenable inner) /\
  (let nested := VThenable [CallResolve (VThenable [CallResolve (VStr "X")])] in
   let '(p, w) := Promise_resolve nested empty_world in
   let w' := run 10 w in
   quiescent w' /\ state_of p w' = Some Fulfilled /\
   result_of p w' = VThenable [CallResolve (VStr "X")] /\ result_of p w' <> VStr "X") /\
  (let nested := VThenable [Later [CallResolve (VThenable [Later [CallResolve (VStr "X")]])]] in
   let '(p, w) := Promise_resolve nested empty_world in
   let w' := run 10 w in
   quiescent w' /\ state_of p w' = Some Fulfilled /\
   result_of p w' = VThenable [Later [CallResolve (VStr "X")]]) /\
  (let nested := VThenable [Later [CallResolve (VThenable [Later [CallResolve (VStr "X")]])]] in
   let '(p, w) := then_ 0 (Some (HostFn 1 (fun _ => Return nested))) None
                    (snd (Promise_resolve VUndefined empty_world)) in
   let w' := run 10 w in
   quiescent w' /\ state_of p w' = Some Fulfilled /\ result_of p w' = VStr "X").
Proof.
  split; [|split; [|split]].
  - intros inner rest w.
    pose proof (Promise_resolve_first_call (VThenable inner) rest w) as H.
    destruct (Promise_resolve _ w) as [p w']. tauto.
  - vm_compute. repeat split. discriminate.
  - vm_compute. repeat split.
  - vm_compute. repeat split.
Qed.

(** What does hold of [resolve]: a container is returned as it is, and a
    thenable calling back with a value that is not an object, at once or
    later, yields a container fulfilled with that value. *)
Lemma static_resolve_one_level :
  (forall q w, Promise_resolve (VPromise q) w = (q, w)) /\
  (let '(p, w) := Promise_resolve (VThenable [CallResolve (VStr "X")]) empty_world in
   state_of p w = Some Fulfilled /\ result_of p w = VStr "X") /\
  (let '(p, w) := Promise_resolve (VThenable [Later [CallResolve (VStr "X")]]) empty_world in
   state_of p w = Some Pending /\
   state_of p (run 1 w) = Some Fulfilled /\ result_of p (run 1 w) = VStr "X").
Proof. repeat split. Qed.

(** * Recording items *)

Lemma array_set_lookup index res xs : array_set index res xs !! index = Some res.
Proof.
  unfold array_set. case_decide as H.
  - by apply list_lookup_insert_eq.
  - rewrite lookup_app_r by lia.
    rewrite lookup_app_r by (rewrite length_replicate; lia).
    rewrite length_replicate.
    assert (Hz : index - length xs - (index - length xs) = 0) by lia.
    by rewrite Hz.
Qed.

Lemma array_set_lookup_old index res xs j x :
  j <> index -> xs !! j = Some x -> array_set index res xs !! j = Some x.
Proof.
  intros Hne Hj. unfold array_set. case_decide.
  - by rewrite list_lookup_insert_ne.
  - by apply lookup_app_l_Some.
Qed.

Lemma array_set_length index res xs :
  length (array_set index res xs) = max (length xs) (S index).
Proof.
  unfold array_set. case_decide.
  - rewrite length_insert. lia.
  - rewrite !length_app, length_replicate. cbn. lia.
Qed.

Lemma run_add a : forall b w, run (a + b) w = run b (run a w).
Proof.
  induction a as [|a IH]; intros b w; cbn; [done|].
  destruct (turn w) as [w'|] eqn:Ht; [apply IH|].
  destruct b; cbn; [done|]. by rewrite Ht.
Qed.

Lemma settle_other k p x w q : q <> p -> heap (settle k p x w) !! q = heap w !! q.
Proof.
  intros Hne. destruct (heap w !! p) as [rec|] eqn:Hp.
  - destruct (state rec) eqn:Hs.
    + rewrite (settle_pending _ _ _ _ _ Hp Hs). cbn. by rewrite list_lookup_insert_ne.
    + rewrite settle_not_pending; [done|]. unfold state_of. rewrite Hp. cbn. congruence.
    + rewrite settle_not_pending; [done|]. unfold state_of. rewrite Hp. cbn. congruence.
  - rewrite settle_not_pending; [done|]. unfold state_of. by rewrite Hp.
Qed.

Lemma state_of_other k p x w q : q <> p -> state_of q (settle k p x w) = state_of q w.
Proof. intros H. unfold state_of. by rewrite settle_other. Qed.

Lemma result_of_other k p x w q : q <> p -> result_of q (settle k p x w) = result_of q w.
Proof. intros H. unfold result_of. by rewrite settle_other. Qed.

Lemma NoDup_bounded_length (l : list nat) n :
  NoDup l -> (forall i, i ∈ l -> i < n) -> length l <= n.
Proof.
  intros Hnd Hb. rewrite <- (length_seq n 0).
  apply submseteq_length, NoDup_submseteq; [done|].
  intros i Hi. apply elem_of_seq. specialize (Hb i Hi). lia.
Qed.

Section ItemInvariant.
Variables (c P n : nat) (expected : nat -> Value).

Lemma item_inv_frame D w w' :
  cells w' = cells w -> heap w' !! P = heap w !! P ->
  item_inv c P n expected D w -> item_inv c P n expected D w'.
Proof.
  intros Hc Hh (R & HR & Hexp & Hlen & Hpend & Hdone).
  exists R. unfold state_of, result_of in *. rewrite Hc, Hh. done.
Qed.

Lemma item_inv_settle_other k next x D w :
  next <> P -> item_inv c P n expected D w ->
  item_inv c P n expected D (settle k next x w).
Proof.
  intros Hne. apply item_inv_frame.
  - apply (q_cells _ _ (settle_quiet _ _ _ _)).
  - by apply settle_other.
Qed.

(** Recording the entry of one more position. *)
Lemma item_inv_record D w i :
  item_inv c P n expected D w -> i < n -> length D < n ->
  item_inv c P n expected (i :: D) (record_item c i P (expected i) w).
Proof.
  intros (R & HR & Hexp & Hlen & Hpend & _) Hi HD.
  assert (Hc : c < length (cells w)) by by eapply lookup_lt_Some.
  set (R' := array_set i (expected i) R).
  assert (HlenR' : length R' <= n) by (unfold R'; rewrite array_set_length; lia).
  assert (Hexp' : forall j, j ∈ i :: D -> R' !! j = Some (expected j)).
  { intros j Hj. destruct (decide (j = i)) as [->|Hne]; [apply array_set_lookup|].
    apply array_set_lookup_old; [done|]. apply Hexp.
    apply elem_of_cons in Hj as [?|?]; [done|done]. }
  unfold record_item.
  set (w1 := update_cell c _ w).
  assert (Hw1 : w1 = set_cells (<[c := mkCell (Z.of_nat n - Z.of_nat (length D)) R']>
                                  (cells w)) w).
  { unfold w1, update_cell. by rewrite HR. }
  set (w2 := update_cell c _ w1).
  assert (Hw2 : w2 = set_cells (<[c := mkCell (Z.of_nat n - Z.of_nat (length (i :: D))) R']>
                                  (cells w)) w).
  { unfold w2, update_cell. rewrite Hw1. cbn [cells set_cells].
    rewrite list_lookup_insert_eq by done. cbn [restNum results].
    rewrite list_insert_insert_eq. unfold set_cells. cbn. do 3 f_equal. lia. }
  clearbody w2. subst w2. clear w1 Hw1.
  set (w2 := set_cells _ w).
  assert (Hcell : cells w2 !! c =
                  Some (mkCell (Z.of_nat n - Z.of_nat (length (i :: D))) R')).
  { cbn. by apply list_lookup_insert_eq. }
  assert (Hrest : restNum_of c w2 = (Z.of_nat n - Z.of_nat (length (i :: D)))%Z).
  { unfold restNum_of. by rewrite Hcell. }
  assert (Hres : results_of c w2 = R').
  { unfold results_of. by rewrite Hcell. }
  rewrite Hrest, Hres.
  destruct (Z.eqb_spec (Z.of_nat n - Z.of_nat (length (i :: D))) 0) as [Hz|Hz].
  - assert (Hfull : length (i :: D) = n) by lia.
    destruct (settle_takes_effect OnFulfilled P (VArray R') w2 (Hpend HD)) as [Hs Hr].
    exists R'. split; [|split; [|split; [|split]]]; try done.
    + by rewrite (q_cells _ _ (p_resolve_quiet _ _ _)).
    + lia.
  - exists R'. split; [|split; [|split; [|split]]]; try done.
    + intros _. by apply Hpend.
    + cbn in *. lia.
Qed.

(** When every position has been recorded the array is the expected one. *)
Lemma item_inv_complete D w :
  item_inv c P n expected D w -> 0 < n -> D ≡ₚ seq 0 n ->
  state_of P w = Some Fulfilled /\ result_of P w = VArray (map expected (seq 0 n)).
Proof.
  intros (R & HR & Hexp & Hlen & _ & Hdone) Hn Hperm.
  assert (HD : length D = n) by by rewrite Hperm, length_seq.
  destruct (Hdone HD Hn) as [Hs Hr]. split; [done|]. rewrite Hr. f_equal.
  apply list_eq. intros i. rewrite list_lookup_fmap.
  destruct (decide (i < n)) as [Hi|Hi].
  - rewrite Hexp by (rewrite Hperm; apply elem_of_seq; lia).
    by rewrite lookup_seq_lt.
  - rewrite lookup_ge_None_2 by lia.
    by rewrite lookup_seq_ge by lia.
Qed.

End ItemInvariant.

Lemma settled_in_later q w w' : settled_in q w -> later_world w w' -> settled_in q w'.
Proof.
  intros (rec & Hq & Hs) Hl. exists rec. split; [|done]. by apply (lw_settled _ _ Hl).
Qed.

Lemma settled_payload_later q w w' :
  settled_in q w -> later_world w w' ->
  result_of q w' = result_of q w /\ reason_of q w' = reason_of q w.
Proof.
  intros (rec & Hq & Hs) Hl. unfold result_of, reason_of.
  by rewrite Hq, (lw_settled _ _ Hl _ _ Hq Hs).
Qed.

Lemma item_inv_perm c P n expected D D' w :
  D ≡ₚ D' -> item_inv c P n expected D w -> item_inv c P n expected D' w.
Proof.
  intros Hperm (R & HR & Hexp & Hlen & Hpend & Hdone).
  exists R. rewrite <- Hperm. split; [done|]. split; [|done].
  intros i Hi. apply Hexp. by rewrite Hperm.
Qed.

(** * Running the item reactions of a combinator, in any order *)

Section ItemRun.
Variables (c P n : nat) (expected : nat -> Value).
Variable task_of : ItemTask -> Task.
Variable entry_of : ItemTask -> World -> Value.
Variable recording : ItemTask -> Prop.
Hypothesis task_runs : forall t w, recording t ->
  run_task (task_of t) w =
  p_resolve (it_next t) VUndefined (record_item c (it_index t) P (entry_of t w) w).
Hypothesis entry_later : forall t w w',
  settled_in (it_source t) w -> later_world w w' -> entry_of t w' = entry_of t w.

Local Abbreviation ready := (ready_item P expected entry_of recording).

Lemma ready_later w w' t : later_world w w' -> ready w t -> ready w' t.
Proof.
  intros Hl (Hs & He & Hn & Hr). split; [by eapply settled_in_later|].
  split; [|done]. by rewrite (entry_later _ _ _ Hs Hl).
Qed.

Lemma run_items ts : forall D w more,
  NoDup (map it_index ts ++ D) ->
  (forall i, i ∈ map it_index ts ++ D -> i < n) ->
  Forall (ready w) ts ->
  item_inv c P n expected D w ->
  microtasks w = map task_of ts ++ more ->
  item_inv c P n expected (map it_index ts ++ D) (run (length ts) w) /\
  later_world w (run (length ts) w) /\
  exists more', microtasks (run (length ts) w) = more ++ more'.
Proof.
  induction ts as [|t rest IH]; intros D w more Hnd Hb Hready Hinv Hq.
  - cbn. split; [done|]. split; [apply later_refl|]. exists []. by rewrite app_nil_r.
  - inversion Hready as [|? ? Ht Hrest]; subst.
    cbn [length run]. unfold turn. rewrite Hq. cbn [map app].
    set (w0 := set_microtasks (map task_of rest ++ more) w).
    assert (Hl0 : later_world w w0) by by apply later_same_store.
    destruct (ready_later _ _ _ Hl0 Ht) as (Hs0 & He0 & Hnext & Hrec).
    rewrite (task_runs _ _ Hrec), He0.
    assert (Hlen : length (map it_index (t :: rest) ++ D) <= n)
      by by apply NoDup_bounded_length.
    assert (HD : length D < n).
    { cbn in Hlen. rewrite length_app in Hlen. lia. }
    assert (Hi : it_index t < n) by (apply Hb; cbn; left).
    assert (Hinv0 : item_inv c P n expected D w0) by by eapply item_inv_frame.
    pose proof (item_inv_record c P n expected D w0 (it_index t) Hinv0 Hi HD) as Hinv1.
    set (w1 := record_item c (it_index t) P (expected (it_index t)) w0) in *.
    pose proof (item_inv_settle_other c P n expected OnFulfilled (it_next t) VUndefined
                  _ w1 Hnext Hinv1) as Hinv2.
    cbn [settle] in Hinv2.
    set (w2 := p_resolve (it_next t) VUndefined w1) in *.
    assert (Hl2 : later_world w0 w2).
    { eapply later_trans; [apply record_item_later | apply p_resolve_later]. }
    assert (Hq2 : exists extra, microtasks w2 = (map task_of rest ++ more) ++ extra).
    { destruct (appended_trans _ _ _ (record_item_appended c (it_index t) P
                  (expected (it_index t)) w0)
                  (quiet_appended _ _ (p_resolve_quiet (it_next t) VUndefined w1)))
        as [[extra Hextra] _].
      by exists extra. }
    destruct Hq2 as [extra Hq2].
    destruct (IH (it_index t :: D) w2 (more ++ extra)) as (Hinv3 & Hl3 & more' & Hq3).
    + cbn in Hnd. by rewrite <- Permutation_middle.
    + intros i Hi'. apply Hb. cbn. by rewrite <- Permutation_middle in Hi'.
    + eapply Forall_impl; [exact Hrest|]. intros t' Ht'.
      eapply ready_later; [|exact Ht']. by eapply later_trans.
    + done.
    + by rewrite Hq2, app_assoc.
    + split; [|split].
      * eapply item_inv_perm; [|exact Hinv3]. cbn. by rewrite <- Permutation_middle.
      * eapply later_trans; [exact Hl0|]. by eapply later_trans.
      * exists (extra ++ more'). by rewrite Hq3, app_assoc.
Qed.

(** The reactions of all [n] items, in any order, with nothing recorded
    before: the container is fulfilled with the entries in the order of the
    positions. *)
Lemma run_items_complete ts w more :
  0 < n ->
  map it_index ts ≡ₚ seq 0 n ->
  Forall (ready w) ts ->
  item_inv c P n expected [] w ->
  microtasks w = map task_of ts ++ more ->
  state_of P (run (length ts) w) = Some Fulfilled /\
  result_of P (run (length ts) w) = VArray (map expected (seq 0 n)).
Proof.
  intros Hn Hperm Hready Hinv Hq.
  destruct (run_items ts [] w more) as (Hinv' & _ & _); try done.
  - rewrite app_nil_r, Hperm. apply NoDup_seq.
  - intros i. rewrite app_nil_r, Hperm, elem_of_seq. lia.
  - eapply item_inv_complete; [exact Hinv' | done |]. by rewrite app_nil_r.
Qed.

End ItemRun.

Lemma all_task_runs c P t w :
  it_kind t = OnFulfilled ->
  run_task (all_task c P t) w =
  p_resolve (it_next t) VUndefined (record_item c (it_index t) P (all_entry t w) w).
Proof. intros Hk. unfold all_task, item_task. rewrite Hk. reflexivity. Qed.

Lemma all_task_rejects c P t w :
  it_kind t = OnRejected ->
  run_task (all_task c P t) w =
  p_resolve (it_next t) VUndefined (p_reject P (reason_of (it_source t) w) w).
Proof. intros Hk. unfold all_task, item_task. rewrite Hk. reflexivity. Qed.

Lemma allSettled_task_runs c P t w :
  run_task (allSettled_task c P t) w =
  p_resolve (it_next t) VUndefined (record_item c (it_index t) P (allSettled_entry t w) w).
Proof. unfold allSettled_task, allSettled_entry, item_task. by destruct (it_kind t). Qed.

Lemma all_entry_later t w w' :
  settled_in (it_source t) w -> later_world w w' -> all_entry t w' = all_entry t w.
Proof. intros Hs Hl. apply (settled_payload_later _ _ _ Hs Hl). Qed.

Lemma allSettled_entry_later t w w' :
  settled_in (it_source t) w -> later_world w w' ->
  allSettled_entry t w' = allSettled_entry t w.
Proof.
  intros Hs Hl. destruct (settled_payload_later _ _ _ Hs Hl) as [Hr He].
  unfold allSettled_entry. by rewrite Hr, He.
Qed.

(** * Registering the items of a combinator *)

Lemma preserves_old_refl w : preserves_old w w.
Proof. by split. Qed.

Lemma preserves_old_trans w1 w2 w3 :
  preserves_old w1 w2 -> preserves_old w2 w3 -> preserves_old w1 w3.
Proof.
  intros [L1 H1] [L2 H2]. split; [lia|].
  intros p Hp. rewrite H2 by lia. by apply H1.
Qed.

Lemma preserves_old_same_heap w w' : heap w' = heap w -> preserves_old w w'.
Proof. intros H. unfold preserves_old. by rewrite H. Qed.

Lemma new_Promise_old w : preserves_old w (snd (new_Promise w)).
Proof.
  split; cbn; [rewrite length_app; lia|].
  intros p Hp. by apply lookup_app_l.
Qed.

Lemma settle_fresh_old k w x :
  preserves_old w (settle k (length (heap w)) x (snd (new_Promise w))).
Proof.
  split.
  - assert (H : length (heap w) < length (heap (snd (new_Promise w)))).
    { cbn. rewrite length_app. cbn. lia. }
    apply (lw_heap _ _ (settle_later k (length (heap w)) x (snd (new_Promise w)))) in H. lia.
  - intros p Hp. rewrite settle_other by lia. cbn. by apply lookup_app_l.
Qed.

Lemma source_outcome_settled q w :
  settled_in q w ->
  exists rec, heap w !! q = Some rec /\
              state rec = target_state (fst (source_outcome q w)) /\
              payload (fst (source_outcome q w)) rec = snd (source_outcome q w).
Proof.
  intros (rec & Hq & Hs). exists rec. unfold source_outcome. rewrite Hq.
  by destruct (state rec).
Qed.

Lemma source_outcome_later q w w' :
  settled_in q w -> later_world w w' -> source_outcome q w' = source_outcome q w.
Proof.
  intros (rec & Hq & Hs) Hl. unfold source_outcome.
  by rewrite Hq, (lw_settled _ _ Hl _ _ Hq Hs).
Qed.

Lemma item_ready_later item w w' : item_ready w item -> later_world w w' -> item_ready w' item.
Proof. destruct item; try done. cbn. apply settled_in_later. Qed.

Lemma item_outcome_later item w w' :
  item_ready w item -> later_world w w' -> item_outcome w' item = item_outcome w item.
Proof. destruct item; try done. cbn. apply source_outcome_later. Qed.

Lemma fresh_settle_facts k x w :
  let p := length (heap w) in
  let w' := settle k p x (snd (new_Promise w)) in
  settled_in p w' /\ source_outcome p w' = (k, x) /\ preserves_old w w' /\
  microtasks w' = microtasks w /\ cells w' = cells w.
Proof.
  intros p w'.
  pose proof (fresh_after_construct w) as Hs.
  destruct (state_of_Some _ _ _ Hs) as (rec & Hrec & Hst).
  assert (Hrec' : rec = fresh_promise).
  { cbn in Hrec. rewrite list_lookup_middle in Hrec by done. by injection Hrec. }
  assert (Hw' : heap w' !! p = Some (settled k x rec)).
  { unfold w'. rewrite (settle_pending _ _ _ _ _ Hrec Hst). cbn.
    apply list_lookup_insert_eq. rewrite length_app. cbn. lia. }
  split; [|split; [|split; [|split]]].
  - exists (settled k x rec). split; [done|]. by destruct k.
  - unfold source_outcome. rewrite Hw'. by destruct k.
  - apply settle_fresh_old.
  - unfold w'. rewrite (settle_pending _ _ _ _ _ Hrec Hst), Hrec'. cbn.
    destruct k; cbn; by rewrite app_nil_r.
  - unfold w'. by rewrite (q_cells _ _ (settle_quiet _ _ _ _)).
Qed.

(** The [then] of a thenable run with the settlement functions of a
    container that is already settled: nothing but timers changes. *)
Lemma script_on_settled p body : forall W,
  state_of p W <> Some Pending ->
  let o := run_body (continuation (HResolveOf p)) (continuation (HRejectOf p))
             (fun b w => setTimeout (TLater (HResolveOf p) (HRejectOf p) b) w) body W in
  heap (world_of o) = heap W /\ microtasks (world_of o) = microtasks W /\
  cells (world_of o) = cells W.
Proof.
  induction body as [|a rest IH]; intros W Hs; [done|]. cbn zeta.
  destruct a as [v|r|e|b]; cbn [run_body].
  - change (continuation (HResolveOf p) v W) with (Normal tt (settle OnFulfilled p v W)).
    cbv iota. rewrite settle_not_pending by done. by apply IH.
  - change (continuation (HRejectOf p) r W) with (Normal tt (settle OnRejected p r W)).
    cbv iota. rewrite settle_not_pending by done. by apply IH.
  - done.
  - by apply (IH (setTimeout (TLater (HResolveOf p) (HRejectOf p) b) W)).
Qed.

(** The same with the settlement functions of a container that is pending
    and has nothing registered: its first call, or an error before any
    call, settles the container and nothing else changes but timers. *)
Lemma script_on_fresh p body : forall W k x,
  first_act body = Some (k, x) -> heap W !! p = Some fresh_promise ->
  let o := run_body (continuation (HResolveOf p)) (continuation (HRejectOf p))
             (fun b w => setTimeout (TLater (HResolveOf p) (HRejectOf p) b) w) body W in
  let W' := match o with Normal _ w2 => w2 | Raised e w2 => p_reject p e w2 end in
  heap W' = <[p := settled k x fresh_promise]> (heap W) /\
  microtasks W' = microtasks W /\ cells W' = cells W.
Proof.
  assert (Hsettle : forall k x W, heap W !! p = Some fresh_promise ->
            settle k p x W = set_heap (<[p := settled k x fresh_promise]> (heap W)) W).
  { intros k x W Hp. rewrite (settle_pending _ _ _ _ _ Hp eq_refl).
    replace (queue k fresh_promise) with (@nil Reaction) by by destruct k.
    cbn. rewrite app_nil_r. by destruct W. }
  assert (Hafter : forall k x W rest, heap W !! p = Some fresh_promise ->
            let o := run_body (continuation (HResolveOf p)) (continuation (HRejectOf p))
                       (fun b w => setTimeout (TLater (HResolveOf p) (HRejectOf p) b) w)
                       rest (settle k p x W) in
            let W' := match o with Normal _ w2 => w2 | Raised e w2 => p_reject p e w2 end in
            heap W' = <[p := settled k x fresh_promise]> (heap W) /\
            microtasks W' = microtasks W /\ cells W' = cells W).
  { intros k x W rest Hp. cbn zeta.
    assert (Hlt : p < length (heap W)) by by eapply lookup_lt_Some.
    assert (Hs : state_of p (settle k p x W) <> Some Pending).
    { rewrite (Hsettle _ _ _ Hp). unfold state_of. cbn.
      rewrite list_lookup_insert_eq by done. by destruct k. }
    destruct (script_on_settled p rest (settle k p x W) Hs) as (A & B & C).
    cbn zeta in A, B, C.
    assert (Hs' : forall w2, heap w2 = heap (settle k p x W) ->
              state_of p w2 <> Some Pending).
    { intros w2 Hw2. unfold state_of in *. by rewrite Hw2. }
    destruct (run_body _ _ _ rest (settle k p x W)) as [[] w2|e w2]; cbn [world_of] in *.
    - rewrite A, B, C, (Hsettle _ _ _ Hp). done.
    - change (p_reject p e w2) with (settle OnRejected p e w2).
      rewrite settle_not_pending by by apply Hs'.
      rewrite A, B, C, (Hsettle _ _ _ Hp). done. }
  induction body as [|a rest IH]; intros W k x Hfirst Hp; [done|]. cbn zeta.
  destruct a as [v|r|e|b]; cbn [run_body first_act] in *.
  - injection Hfirst as <- <-.
    change (continuation (HResolveOf p) v W) with (Normal tt (settle OnFulfilled p v W)).
    cbv iota. by apply Hafter.
  - injection Hfirst as <- <-.
    change (continuation (HRejectOf p) r W) with (Normal tt (settle OnRejected p r W)).
    cbv iota. by apply Hafter.
  - injection Hfirst as <- <-.
    change (p_reject p e W) with (settle OnRejected p e W).
    by rewrite (Hsettle _ _ _ Hp).
  - by apply (IH (setTimeout (TLater (HResolveOf p) (HRejectOf p) b) W)).
Qed.

Lemma thenable_ready body w :
  first_act body <> None ->
  let p := length (heap w) in
  let w' := snd (Promise_resolve (VThenable body) w) in
  fst (Promise_resolve (VThenable body) w) = p /\
  settled_in p w' /\
  source_outcome p w' = default (OnFulfilled, VUndefined) (first_act body) /\
  preserves_old w w' /\ microtasks w' = microtasks w /\ cells w' = cells w.
Proof.
  intros Hfirst p w'.
  destruct (first_act body) as [[k x]|] eqn:Hf; [|done].
  pose proof (script_on_fresh p body (snd (new_Promise w)) k x Hf) as Hscript.
  assert (Hp : heap (snd (new_Promise w)) !! p = Some fresh_promise)
    by (cbn; by rewrite list_lookup_middle).
  specialize (Hscript Hp). cbn zeta in Hscript.
  assert (Hw' : heap w' = <[p := settled k x fresh_promise]> (heap w ++ [fresh_promise]) /\
                microtasks w' = microtasks w /\ cells w' = cells w /\
                fst (Promise_resolve (VThenable body) w) = p).
  { unfold w'. unfold p in *. cbn [Promise_resolve new_Promise snd] in *.
    destruct (run_body _ _ _ body _) as [[] w2|e w2]; cbn [fst snd];
      destruct Hscript as (A & B & C); by rewrite A, B, C. }
  destruct Hw' as (Hh & Hm & Hc & Hfst).
  assert (Hlook : heap w' !! p = Some (settled k x fresh_promise)).
  { rewrite Hh. apply list_lookup_insert_eq. rewrite length_app. cbn. unfold p. lia. }
  split; [exact Hfst|]. split; [|split; [|split; [|split]]]; try done.
  - exists (settled k x fresh_promise). split; [done|]. by destruct k.
  - unfold source_outcome. rewrite Hlook. by destruct k.
  - split.
    + rewrite Hh, length_insert, length_app. lia.
    + intros n Hn. rewrite Hh. rewrite list_lookup_insert_ne by (unfold p; lia).
      by apply lookup_app_l.
Qed.

Lemma Promise_resolve_ready item w :
  item_ready w item ->
  settled_in (fst (Promise_resolve item w)) (snd (Promise_resolve item w)) /\
  source_outcome (fst (Promise_resolve item w)) (snd (Promise_resolve item w))
    = item_outcome w item /\
  preserves_old w (snd (Promise_resolve item w)) /\
  microtasks (snd (Promise_resolve item w)) = microtasks w /\
  cells (snd (Promise_resolve item w)) = cells w.
Proof.
  intros Hready.
  destruct item; try done;
    try apply (fresh_settle_facts OnFulfilled _ w);
    try apply (fresh_settle_facts OnRejected _ w).
  destruct (thenable_ready body w Hready) as (Hfst & A & B & C & D & E).
  rewrite Hfst. done.
Qed.

Lemma register_item_ready c onF onR w item i R :
  cells w !! c = Some (mkCell (Z.of_nat i) R) -> item_ready w item ->
  exists t,
    it_index t = i /\
    microtasks (register_item c onF onR w item) = microtasks w ++ [item_task onF onR t] /\
    cells (register_item c onF onR w item) = <[c := mkCell (Z.of_nat (S i)) R]> (cells w) /\
    preserves_old w (register_item c onF onR w item) /\
    settled_in (it_source t) (register_item c onF onR w item) /\
    source_outcome (it_source t) (register_item c onF onR w item) = item_outcome w item /\
    it_kind t = fst (item_outcome w item) /\
    length (heap w) <= it_next t.
Proof.
  intros Hc Hready. unfold register_item.
  assert (Hrest : restNum_of c w = Z.of_nat i) by (unfold restNum_of; by rewrite Hc).
  rewrite Hrest, Nat2Z.id.
  set (w1 := update_cell c _ w).
  assert (Hw1 : w1 = set_cells (<[c := mkCell (Z.of_nat (S i)) R]> (cells w)) w).
  { unfold w1, update_cell. rewrite Hc. cbn. do 3 f_equal. lia. }
  assert (Hready1 : item_ready w1 item).
  { eapply item_ready_later; [exact Hready|]. rewrite Hw1. by apply later_same_store. }
  assert (Hout1 : item_outcome w1 item = item_outcome w item).
  { apply item_outcome_later; [done|]. rewrite Hw1. by apply later_same_store. }
  destruct (Promise_resolve_ready item w1 Hready1) as (Hs & Ho & Hold & Hm & Hcells).
  destruct (Promise_resolve item w1) as [q w2]. cbn [fst snd] in *.
  destruct (source_outcome_settled q w2 Hs) as (rec & Hq & Hst & Hpay).
  rewrite (then_settled _ _ _ _ _ _ Hq Hst). cbn [snd].
  exists (mkItemTask i q (fst (source_outcome q w2)) (length (heap w2))).
  assert (Hlt : q < length (heap w2)) by by eapply lookup_lt_Some.
  split; [done|]. split; [|split; [|split; [|split; [|split; [|split]]]]].
  - unfold createMicroTask. cbn. rewrite Hm, Hw1. done.
  - unfold createMicroTask. cbn. by rewrite Hcells, Hw1.
  - eapply preserves_old_trans; [|apply preserves_old_trans with (w2 := snd (new_Promise w2))].
    + eapply preserves_old_trans; [|exact Hold]. apply preserves_old_same_heap. by rewrite Hw1.
    + apply new_Promise_old.
    + by apply preserves_old_same_heap.
  - exists rec. cbn. split; [by apply lookup_app_l_Some|]. rewrite Hst. by destruct (fst _).
  - rewrite <- Hout1, <- Ho. unfold source_outcome, createMicroTask. cbn.
    by rewrite (lookup_app_l_Some _ _ _ _ Hq), Hq.
  - cbn. by rewrite Ho, Hout1.
  - cbn. destruct Hold as [Hlen _]. rewrite Hw1 in Hlen. cbn in Hlen. lia.
Qed.

Lemma Forall2_impl_Forall {A B} (P : A -> Prop) (Q Q' : A -> B -> Prop) xs ys :
  Forall P xs -> Forall2 Q xs ys -> (forall x y, P x -> Q x y -> Q' x y) ->
  Forall2 Q' xs ys.
Proof.
  intros HP HQ Himpl. induction HQ as [|x y xs ys Hxy _ IH]; [constructor|].
  inversion HP; subst. constructor; auto.
Qed.

Lemma register_items c onF onR items : forall w i R,
  cells w !! c = Some (mkCell (Z.of_nat i) R) ->
  Forall (item_ready w) items ->
  exists ts,
    map it_index ts = seq i (length items) /\
    microtasks (fold_left (register_item c onF onR) items w) =
      microtasks w ++ map (item_task onF onR) ts /\
    cells (fold_left (register_item c onF onR) items w) =
      <[c := mkCell (Z.of_nat (i + length items)) R]> (cells w) /\
    preserves_old w (fold_left (register_item c onF onR) items w) /\
    Forall2 (registered_item w (fold_left (register_item c onF onR) items w)) items ts.
Proof.
  induction items as [|item rest IH]; intros w i R Hc Hready.
  - exists []. cbn. rewrite app_nil_r, Nat.add_0_r, list_insert_id by done.
    repeat split; try done.
  - inversion Hready as [|? ? Hitem Hrest]; subst.
    destruct (register_item_ready c onF onR w item i R Hc Hitem)
      as (t & Hidx & Hm & Hcells & Hold & Hs & Ho & Hk & Hnext).
    cbn [fold_left].
    set (w1 := register_item c onF onR w item) in *.
    assert (Hl1 : later_world w w1) by apply register_item_later.
    assert (Hc1 : cells w1 !! c = Some (mkCell (Z.of_nat (S i)) R)).
    { rewrite Hcells. apply list_lookup_insert_eq. by eapply lookup_lt_Some. }
    destruct (IH w1 (S i) R Hc1) as (ts & Hidxs & Hms & Hcs & Holds & Hall).
    { eapply Forall_impl; [exact Hrest|]. intros x Hx. by eapply item_ready_later. }
    set (w' := fold_left (register_item c onF onR) rest w1) in *.
    assert (Hl' : later_world w1 w').
    { apply fold_left_later. intros. apply register_item_later. }
    exists (t :: ts). split; [|split; [|split; [|split]]].
    + cbn. by rewrite Hidx, Hidxs.
    + rewrite Hms, Hm. cbn. by rewrite <- app_assoc.
    + rewrite Hcs, Hcells, list_insert_insert_eq. do 3 f_equal. cbn. lia.
    + by eapply preserves_old_trans.
    + constructor.
      * split; [by eapply settled_in_later|].
        split; [by rewrite (source_outcome_later _ _ _ Hs Hl')|]. done.
      * eapply Forall2_impl_Forall; [exact Hrest | exact Hall |].
        intros x y Hx (A & B & C & D). destruct Hold as [Hlen _].
        rewrite (item_outcome_later _ _ _ Hx Hl1) in B, C.
        split; [done|]. split; [done|]. split; [done|]. lia.
Qed.

Lemma combinator_registered onF onR items w :
  Forall (item_ready w) items ->
  let P := length (heap w) in
  let c := length (cells w) in
  let w2 := fold_left (register_item c onF onR) items (combinator_start w) in
  exists ts,
    map it_index ts = seq 0 (length items) /\
    microtasks w2 = microtasks w ++ map (item_task onF onR) ts /\
    cells w2 !! c = Some (mkCell (Z.of_nat (length items)) []) /\
    restNum_of c w2 = Z.of_nat (length items) /\
    state_of P w2 = Some Pending /\
    later_world w w2 /\
    Forall2 (item_registered P w w2) items ts.
Proof.
  intros Hready P c w2.
  set (w1 := combinator_start w) in *.
  assert (Hl1 : later_world w w1).
  { eapply later_trans; [apply new_Promise_later | by apply later_same_store]. }
  assert (Hc1 : cells w1 !! c = Some (mkCell (Z.of_nat 0) [])).
  { cbn. by rewrite list_lookup_middle. }
  assert (Hready1 : Forall (item_ready w1) items).
  { eapply Forall_impl; [exact Hready|]. intros x Hx. by eapply item_ready_later. }
  destruct (register_items c onF onR items w1 0 [] Hc1 Hready1)
    as (ts & Hidx & Hm & Hcells & [Hlen Hold] & Hall).
  fold w2 in Hm, Hcells, Hlen, Hold, Hall.
  assert (Hcell : cells w2 !! c = Some (mkCell (Z.of_nat (length items)) [])).
  { rewrite Hcells. cbn. apply list_lookup_insert_eq. rewrite length_app. cbn. lia. }
  exists ts. split; [done|]. split; [done|]. split; [done|].
  split; [unfold restNum_of; by rewrite Hcell|].
  split; [|split].
  - unfold state_of. rewrite Hold by (cbn; rewrite length_app; cbn; lia).
    cbn. by rewrite list_lookup_middle.
  - eapply later_trans; [exact Hl1|]. apply fold_left_later. intros. apply register_item_later.
  - eapply Forall2_impl_Forall; [exact Hready | exact Hall |].
    intros x y Hx (A & B & C & D).
    rewrite (item_outcome_later _ _ _ Hx Hl1) in B, C.
    split; [done|]. split; [done|]. split; [done|].
    cbn in D. rewrite length_app in D. cbn in D. unfold P. lia.
Qed.

Lemma task_index_position ts n j t :
  map it_index ts = seq 0 n -> ts !! j = Some t -> it_index t = j.
Proof.
  intros Hidx Ht.
  assert (H : map it_index ts !! j = Some (it_index t)).
  { change (map it_index ts) with (it_index <$> ts). by rewrite list_lookup_fmap, Ht. }
  rewrite Hidx in H. apply lookup_seq in H. lia.
Qed.

Lemma source_outcome_payload q w :
  settled_in q w ->
  match fst (source_outcome q w) with
  | OnFulfilled => result_of q w = snd (source_outcome q w)
  | OnRejected => reason_of q w = snd (source_outcome q w)
  end.
Proof.
  intros (rec & Hq & Hs). unfold source_outcome, result_of, reason_of. rewrite Hq.
  by destruct (state rec).
Qed.

Lemma expected_entry_lookup entry (outs : list (Kind * Value)) j o :
  outs !! j = Some o -> expected_entry entry outs j = entry o.
Proof. intros H. unfold expected_entry. by rewrite H. Qed.

Lemma expected_entry_all entry (outs : list (Kind * Value)) :
  map (expected_entry entry outs) (seq 0 (length outs)) = map entry outs.
Proof.
  apply list_eq. intros j.
  change (map ?f ?l) with (f <$> l). rewrite !list_lookup_fmap.
  destruct (outs !! j) as [o|] eqn:Ho.
  - rewrite lookup_seq_lt by by eapply lookup_lt_Some.
    cbn. by rewrite (expected_entry_lookup _ _ _ _ Ho).
  - rewrite lookup_seq_ge; [done|]. by apply lookup_ge_None.
Qed.

Lemma all_tasks_ready P w w2 items ts :
  map it_index ts = seq 0 (length items) ->
  Forall2 (item_registered P w w2) items ts ->
  Forall (fun item => fst (item_outcome w item) = OnFulfilled) items ->
  Forall (ready_item P (expected_entry snd (map (item_outcome w) items)) all_entry
            (fun t => it_kind t = OnFulfilled) w2) ts.
Proof.
  intros Hidx Hall Hful. apply Forall_lookup. intros j t Ht.
  destruct (Forall2_lookup_r _ _ _ _ _ Hall Ht) as (item & Hitem & Hs & Ho & Hk & Hnext).
  assert (Hf : fst (item_outcome w item) = OnFulfilled).
  { by apply (proj1 (Forall_lookup _ _) Hful j). }
  unfold ready_item. rewrite (task_index_position _ _ _ _ Hidx Ht).
  split; [done|]. split; [|split; [done|congruence]].
  rewrite (expected_entry_lookup _ _ _ (item_outcome w item))
    by (change (map ?f ?l) with (f <$> l); by rewrite list_lookup_fmap, Hitem).
  pose proof (source_outcome_payload _ _ Hs) as Hp. rewrite Ho, Hf in Hp.
  exact Hp.
Qed.

Lemma allSettled_tasks_ready P w w2 items ts :
  map it_index ts = seq 0 (length items) ->
  Forall2 (item_registered P w w2) items ts ->
  Forall (ready_item P (expected_entry outcome_record (map (item_outcome w) items))
            allSettled_entry (fun _ => True) w2) ts.
Proof.
  intros Hidx Hall. apply Forall_lookup. intros j t Ht.
  destruct (Forall2_lookup_r _ _ _ _ _ Hall Ht) as (item & Hitem & Hs & Ho & Hk & Hnext).
  unfold ready_item. rewrite (task_index_position _ _ _ _ Hidx Ht).
  split; [done|]. split; [|done].
  rewrite (expected_entry_lookup _ _ _ (item_outcome w item))
    by (change (map ?f ?l) with (f <$> l); by rewrite list_lookup_fmap, Hitem).
  pose proof (source_outcome_payload _ _ Hs) as Hp. rewrite Ho in Hp.
  unfold allSettled_entry, outcome_record. rewrite Hk.
  destruct (fst (item_outcome w item)); by rewrite Hp.
Qed.

(** * [all] *)

Lemma Promise_all_unfold items w :
  Promise_all items w =
  (length (heap w),
   let c := length (cells w) in
   let P := length (heap w) in
   let w2 := fold_left (register_item c (fun index => HAllItem c index P)
                                        (fun _ => HRejectOf P)) items (combinator_start w) in
   if (restNum_of c w2 =? 0)%Z then p_resolve P (VArray []) w2 else w2).
Proof. reflexivity. Qed.

Lemma item_inv_start c P n expected w :
  cells w !! c = Some (mkCell (Z.of_nat n) []) -> state_of P w = Some Pending -> 0 < n ->
  item_inv c P n expected [] w.
Proof.
  intros Hc Hp Hn. exists []. cbn [length]. rewrite Z.sub_0_r.
  split; [done|]. split; [by intros i Hi%elem_of_nil|].
  split; [cbn; lia|]. split; [done|]. intros Hz. lia.
Qed.

Lemma tasks_length ts n : map it_index ts = seq 0 n -> length ts = n.
Proof. intros H. by rewrite <- (length_map it_index), H, length_seq. Qed.

Lemma all_empty w :
  state_of (fst (Promise_all [] w)) (snd (Promise_all [] w)) = Some Fulfilled /\
  result_of (fst (Promise_all [] w)) (snd (Promise_all [] w)) = VArray [].
Proof.
  rewrite Promise_all_unfold. cbn [fst snd fold_left].
  assert (Hr : restNum_of (length (cells w)) (combinator_start w) = 0%Z).
  { unfold restNum_of. cbn. by rewrite list_lookup_middle. }
  cbv zeta. rewrite Hr. cbn [Z.eqb].
  apply (settle_takes_effect OnFulfilled).
  unfold state_of. cbn. by rewrite list_lookup_middle.
Qed.

Lemma all_fulfilled items w :
  items <> [] -> microtasks w = [] ->
  Forall (item_ready w) items ->
  Forall (fun item => fst (item_outcome w item) = OnFulfilled) items ->
  let P := fst (Promise_all items w) in
  let w' := snd (Promise_all items w) in
  state_of P w' = Some Pending /\
  state_of P (run (length items) w') = Some Fulfilled /\
  result_of P (run (length items) w') =
    VArray (map (fun item => snd (item_outcome w item)) items).
Proof.
  intros Hne Hq Hready Hful. rewrite Promise_all_unfold. cbn [fst snd]. cbv zeta.
  destruct (combinator_registered (fun index => HAllItem (length (cells w)) index (length (heap w)))
              (fun _ => HRejectOf (length (heap w))) items w Hready)
    as (ts & Hidx & Hm & Hcell & Hrest & Hpend & Hl & Hall).
  set (w2 := fold_left _ items (combinator_start w)) in *.
  assert (Hn : 0 < length items) by (destruct items; [done | cbn; lia]).
  rewrite Hrest.
  destruct (Z.eqb_spec (Z.of_nat (length items)) 0) as [Hz|_]; [lia|].
  split; [done|].
  rewrite <- (tasks_length _ _ Hidx).
  rewrite <- (map_map (item_outcome w) snd), <- expected_entry_all, length_map.
  eapply (run_items_complete _ _ _ _ (all_task _ _) all_entry
            (fun t => it_kind t = OnFulfilled)) with (more := []).
  - intros. by apply all_task_runs.
  - apply all_entry_later.
  - done.
  - by rewrite Hidx.
  - by apply all_tasks_ready.
  - by apply item_inv_start.
  - by rewrite Hm, Hq, app_nil_r.
Qed.

(** Item reactions of fewer than [n] fulfilled items, in any order, followed
    by the reaction of a rejected item. *)
Lemma all_run_rejection c P n expected ts tb w more :
  length ts < n ->
  NoDup (map it_index ts) ->
  (forall i, i ∈ map it_index ts -> i < n) ->
  Forall (ready_item P expected all_entry (fun t => it_kind t = OnFulfilled) w) ts ->
  it_kind tb = OnRejected ->
  settled_in (it_source tb) w ->
  cells w !! c = Some (mkCell (Z.of_nat n) []) ->
  state_of P w = Some Pending ->
  microtasks w = map (all_task c P) ts ++ all_task c P tb :: more ->
  state_of P (run (S (length ts)) w) = Some Rejected /\
  reason_of P (run (S (length ts)) w) = reason_of (it_source tb) w.
Proof.
  intros Hlen Hnd Hb Hready Hkb Hsb Hcell Hpend Hq.
  destruct (run_items c P n expected (all_task c P) all_entry
              (fun t => it_kind t = OnFulfilled)
              ltac:(intros; by apply all_task_runs) all_entry_later
              ts [] w (all_task c P tb :: more))
    as (Hinv & Hl3 & more' & Hq3); try done.
  - by rewrite app_nil_r.
  - intros i. rewrite app_nil_r. apply Hb.
  - apply item_inv_start; [done | done | lia].
  - replace (S (length ts)) with (length ts + 1) by lia.
    rewrite run_add. set (w3 := run (length ts) w) in *.
    destruct Hinv as (R & _ & _ & _ & Hpend3 & _).
    rewrite app_nil_r, length_map in Hpend3.
    specialize (Hpend3 Hlen).
    cbn [run]. unfold turn. rewrite Hq3. cbn [app].
    set (w4 := set_microtasks _ w3).
    assert (Hl4 : later_world w w4).
    { eapply later_trans; [exact Hl3|]. by apply later_same_store. }
    rewrite all_task_rejects by done.
    destruct (settled_payload_later _ _ _ Hsb Hl4) as [_ Hreason].
    rewrite Hreason.
    destruct (settle_takes_effect OnRejected P (reason_of (it_source tb) w) w4 Hpend3)
      as [Hs Hr]. cbn [settle] in *.
    destruct (settled_forever _ _ P Rejected (p_resolve_later (it_next tb) VUndefined
                (p_reject P (reason_of (it_source tb) w) w4)) Hs) as (Hs' & _ & Hr'); [done|].
    split; [exact Hs'|]. by rewrite Hr'.
Qed.

Lemma all_first_rejection pre bad post e w :
  microtasks w = [] ->
  Forall (item_ready w) (pre ++ bad :: post) ->
  Forall (fun item => fst (item_outcome w item) = OnFulfilled) pre ->
  item_outcome w bad = (OnRejected, e) ->
  let P := fst (Promise_all (pre ++ bad :: post) w) in
  let w' := snd (Promise_all (pre ++ bad :: post) w) in
  state_of P w' = Some Pending /\
  state_of P (run (S (length pre)) w') = Some Rejected /\
  reason_of P (run (S (length pre)) w') = e.
Proof.
  intros Hq Hready Hful Hbad. rewrite Promise_all_unfold. cbn [fst snd]. cbv zeta.
  set (items := pre ++ bad :: post) in *.
  set (c := length (cells w)). set (P := length (heap w)).
  destruct (combinator_registered (fun index => HAllItem c index P)
              (fun _ => HRejectOf P) items w Hready)
    as (ts & Hidx & Hm & Hcell & Hrest & Hpend & Hl & Hall).
  fold c P in Hidx, Hm, Hcell, Hrest, Hpend, Hl, Hall.
  set (w2 := fold_left _ items (combinator_start w)) in *.
  assert (Hlen : length items = length pre + S (length post)).
  { unfold items. rewrite length_app. cbn. lia. }
  rewrite Hrest.
  destruct (Z.eqb_spec (Z.of_nat (length items)) 0) as [Hz|_]; [lia|].
  split; [done|].
  apply Forall2_app_inv_l in Hall as (ts1 & ts2 & Hall1 & Hall2 & ->).
  apply Forall2_cons_inv_l in Hall2 as (tb & ts3 & (Hsb & Hob & Hkb & Hnb) & Hall3 & ->).
  assert (Hlen1 : length ts1 = length pre) by (symmetry; by eapply Forall2_length).
  assert (Hidx1 : map it_index ts1 = seq 0 (length pre)).
  { rewrite map_app, Hlen, seq_app in Hidx.
    apply app_inj_1 in Hidx as [H1 _]; [done|]. by rewrite length_map, length_seq. }
  pose proof (source_outcome_payload _ _ Hsb) as Hpay. rewrite Hob, Hbad in Hpay.
  cbn in Hpay. rewrite <- Hpay, <- Hlen1.
  apply (all_run_rejection c P (length items)
           (expected_entry snd (map (item_outcome w) pre)) ts1 tb w2
           (map (all_task c P) ts3)).
  - lia.
  - rewrite Hidx1. apply NoDup_seq.
  - intros i. rewrite Hidx1, elem_of_seq. lia.
  - by apply all_tasks_ready.
  - by rewrite Hkb, Hbad.
  - done.
  - done.
  - done.
  - unfold all_task in *. by rewrite Hm, Hq, map_app.
Qed.

(** * [allSettled] *)

Lemma Promise_allSettled_unfold items w :
  Promise_allSettled items w =
  (length (heap w),
   let c := length (cells w) in
   let P := length (heap w) in
   let w2 := fold_left (register_item c (fun index => HSettledFulfilled c index P)
                                        (fun index => HSettledRejected c index P))
                       items (combinator_start w) in
   if (restNum_of c w2 =? 0)%Z then p_resolve P (VArray []) w2 else w2).
Proof. reflexivity. Qed.

Lemma allSettled_empty w :
  state_of (fst (Promise_allSettled [] w)) (snd (Promise_allSettled [] w)) = Some Fulfilled /\
  result_of (fst (Promise_allSettled [] w)) (snd (Promise_allSettled [] w)) = VArray [].
Proof.
  rewrite Promise_allSettled_unfold. cbn [fst snd fold_left].
  assert (Hr : restNum_of (length (cells w)) (combinator_start w) = 0%Z).
  { unfold restNum_of. cbn. by rewrite list_lookup_middle. }
  cbv zeta. rewrite Hr. cbn [Z.eqb].
  apply (settle_takes_effect OnFulfilled).
  unfold state_of. cbn. by rewrite list_lookup_middle.
Qed.

(** While item reactions of [allSettled] run, in any order, the container
    is pending or fulfilled. *)
Lemma allSettled_run_not_rejected c P n expected ts w more k :
  0 < n ->
  NoDup (map it_index ts) ->
  (forall i, i ∈ map it_index ts -> i < n) ->
  Forall (ready_item P expected allSettled_entry (fun _ => True) w) ts ->
  cells w !! c = Some (mkCell (Z.of_nat n) []) ->
  state_of P w = Some Pending ->
  microtasks w = map (allSettled_task c P) ts ++ more ->
  k <= length ts ->
  state_of P (run k w) <> Some Rejected.
Proof.
  intros Hn Hnd Hb Hready Hcell Hpend Hq Hk.
  assert (Hts : ts = take k ts ++ drop k ts) by by rewrite take_drop.
  assert (Hidx : map it_index ts = map it_index (take k ts) ++ map it_index (drop k ts)).
  { by rewrite <- map_app, <- Hts. }
  assert (Hnd1 : NoDup (map it_index (take k ts))).
  { rewrite Hidx in Hnd. by apply NoDup_app in Hnd as [? _]. }
  assert (Hb1 : forall i, i ∈ map it_index (take k ts) -> i < n).
  { intros i Hi. apply Hb. rewrite Hidx. apply elem_of_app. by left. }
  destruct (run_items c P n expected (allSettled_task c P) allSettled_entry
              (fun _ => True)
              ltac:(intros; by apply allSettled_task_runs) allSettled_entry_later
              (take k ts) [] w (map (allSettled_task c P) (drop k ts) ++ more))
    as ((R & _ & _ & _ & Hp & Hf) & _ & _).
  - by rewrite app_nil_r.
  - intros i. rewrite app_nil_r. apply Hb1.
  - rewrite Hts in Hready. by apply Forall_app in Hready as [? _].
  - by apply item_inv_start.
  - rewrite Hq, app_assoc, <- map_app. by rewrite <- Hts.
  - rewrite length_take_le in * by done.
    rewrite app_nil_r, length_map, length_take_le in Hp, Hf by done.
    pose proof (NoDup_bounded_length _ n Hnd1 Hb1) as Hle.
    rewrite length_map, length_take_le in Hle by done.
    destruct (decide (k < n)) as [Hlt|Hge].
    + rewrite (Hp Hlt). discriminate.
    + destruct (Hf ltac:(lia) Hn) as [-> _]. discriminate.
Qed.

Lemma allSettled_fulfils items w :
  items <> [] -> microtasks w = [] ->
  Forall (item_ready w) items ->
  let P := fst (Promise_allSettled items w) in
  let w' := snd (Promise_allSettled items w) in
  state_of P w' = Some Pending /\
  state_of P (run (length items) w') = Some Fulfilled /\
  result_of P (run (length items) w') =
    VArray (map (fun item => outcome_record (item_outcome w item)) items) /\
  forall k, state_of P (run k w') <> Some Rejected.
Proof.
  intros Hne Hq Hready. rewrite Promise_allSettled_unfold. cbn [fst snd]. cbv zeta.
  set (c := length (cells w)). set (P := length (heap w)).
  destruct (combinator_registered (fun index => HSettledFulfilled c index P)
              (fun index => HSettledRejected c index P) items w Hready)
    as (ts & Hidx & Hm & Hcell & Hrest & Hpend & Hl & Hall).
  fold c P in Hidx, Hm, Hcell, Hrest, Hpend, Hl, Hall.
  set (w2 := fold_left _ items (combinator_start w)) in *.
  assert (Hn : 0 < length items) by (destruct items; [done | cbn; lia]).
  rewrite Hrest.
  destruct (Z.eqb_spec (Z.of_nat (length items)) 0) as [Hz|_]; [lia|].
  split; [done|].
  pose proof (allSettled_tasks_ready P w w2 items ts Hidx Hall) as Hrdy.
  assert (Hmq : microtasks w2 = map (allSettled_task c P) ts ++ []).
  { unfold allSettled_task. by rewrite Hm, Hq, app_nil_r. }
  assert (Hdone : state_of P (run (length items) w2) = Some Fulfilled /\
                  result_of P (run (length items) w2) =
                  VArray (map (fun item => outcome_record (item_outcome w item)) items)).
  { rewrite <- (tasks_length _ _ Hidx).
    rewrite <- (map_map (item_outcome w) outcome_record), <- expected_entry_all, length_map.
    eapply (run_items_complete _ _ _ _ (allSettled_task c P) allSettled_entry
              (fun _ => True)) with (more := []).
    - intros. by apply allSettled_task_runs.
    - apply allSettled_entry_later.
    - done.
    - by rewrite Hidx.
    - exact Hrdy.
    - by apply item_inv_start.
    - exact Hmq. }
  split; [apply Hdone|]. split; [apply Hdone|].
  intros k. destruct (decide (k <= length ts)) as [Hk|Hk].
  - eapply (allSettled_run_not_rejected c P (length items) _ ts w2 []); try done.
    + rewrite Hidx. apply NoDup_seq.
    + intros i. rewrite Hidx, elem_of_seq. lia.
  - rewrite (tasks_length _ _ Hidx) in Hk.
    replace k with (length items + (k - length items)) by lia.
    rewrite run_add.
    destruct (settled_forever _ _ P Fulfilled (run_later (k - length items) _) (proj1 Hdone))
      as (-> & _); [done|discriminate].
Qed.

(** * Items that settle after the combinator call, in any order *)

Lemma register_pending c onF onR qs : forall w i0 R0,
  NoDup qs -> Forall (untouched w) qs ->
  cells w !! c = Some (mkCell (Z.of_nat i0) R0) ->
  (forall j q, qs !! j = Some q ->
     heap (fold_left (register_item c onF onR) (map VPromise qs) w) !! q =
     Some (registered q (Some (onF (i0 + j))) (Some (onR (i0 + j)))
             (length (heap w) + j) fresh_promise)) /\
  (forall p, p < length (heap w) -> p ∉ qs ->
     heap (fold_left (register_item c onF onR) (map VPromise qs) w) !! p = heap w !! p) /\
  cells (fold_left (register_item c onF onR) (map VPromise qs) w) =
    <[c := mkCell (Z.of_nat (i0 + length qs)) R0]> (cells w) /\
  microtasks (fold_left (register_item c onF onR) (map VPromise qs) w) = microtasks w.
Proof.
  induction qs as [|q rest IH]; intros w i0 R0 Hnd Hun Hc.
  - cbn. rewrite Nat.add_0_r, list_insert_id by done. repeat split; try done.
  - apply NoDup_cons in Hnd as [Hq Hnd].
    apply Forall_cons in Hun as [Hunq Hun].
    cbn [map fold_left].
    assert (Hlt : q < length (heap w)) by by eapply lookup_lt_Some.
    assert (Hstep : register_item c onF onR w (VPromise q) =
              set_heap (<[q := registered q (Some (onF i0)) (Some (onR i0))
                                  (length (heap w)) fresh_promise]>
                          (heap w ++ [fresh_promise]))
                (set_cells (<[c := mkCell (Z.of_nat (S i0)) R0]> (cells w)) w)).
    { unfold register_item.
      assert (Hrest : restNum_of c w = Z.of_nat i0) by (unfold restNum_of; by rewrite Hc).
      rewrite Hrest, Nat2Z.id. cbn [Promise_resolve].
      assert (Hw1 : update_cell c (fun cell => mkCell (restNum cell + 1) (results cell)) w =
                    set_cells (<[c := mkCell (Z.of_nat (S i0)) R0]> (cells w)) w).
      { unfold update_cell. rewrite Hc. cbn. do 3 f_equal. lia. }
      rewrite Hw1.
      by rewrite (then_pending q _ _ _ fresh_promise). }
    rewrite Hstep. set (w1 := set_heap _ _).
    assert (Hlen1 : length (heap w1) = S (length (heap w))).
    { cbn. rewrite length_insert, length_app. cbn. lia. }
    assert (Hun1 : Forall (untouched w1) rest).
    { apply Forall_forall. intros q' Hq'.
      assert (q' <> q) by (intros ->; done).
      pose proof (proj1 (Forall_forall _ _) Hun q' Hq') as Hu. unfold untouched in *.
      cbn. rewrite list_lookup_insert_ne by done. by apply lookup_app_l_Some. }
    assert (Hc1 : cells w1 !! c = Some (mkCell (Z.of_nat (S i0)) R0)).
    { cbn. apply list_lookup_insert_eq. by eapply lookup_lt_Some. }
    destruct (IH w1 (S i0) R0 Hnd Hun1 Hc1) as (H1 & H2 & H3 & H4).
    split; [|split; [|split]].
    + intros [|j] q' Hj; cbn in Hj.
      * injection Hj as <-. rewrite H2 by (rewrite ?Hlen1; done || lia).
        cbn. rewrite !Nat.add_0_r. apply list_lookup_insert_eq. rewrite length_app. lia.
      * rewrite (H1 j q' Hj), Hlen1. do 2 f_equal; [f_equal; f_equal; lia.. | lia].
    + intros p Hp Hnin. apply not_elem_of_cons in Hnin as [Hpq Hnin].
      rewrite H2 by (rewrite ?Hlen1; done || lia).
      cbn. rewrite list_lookup_insert_ne by done. by apply lookup_app_l.
    + rewrite H3. cbn. rewrite list_insert_insert_eq. do 3 f_equal. lia.
    + by rewrite H4.
Qed.

Lemma source_at_lookup qs j : j < length qs -> qs !! j = Some (source_at qs j).
Proof.
  intros Hj. unfold source_at.
  destruct (lookup_lt_is_Some_2 qs j Hj) as [q Hq]. by rewrite Hq.
Qed.

Lemma source_at_inj qs j j' :
  NoDup qs -> j < length qs -> j' < length qs -> source_at qs j = source_at qs j' -> j = j'.
Proof.
  intros Hnd Hj Hj' Heq.
  apply (NoDup_lookup qs j j' (source_at qs j)); [done|by apply source_at_lookup|].
  rewrite Heq. by apply source_at_lookup.
Qed.

Lemma queue_registered k q onF onR next :
  queue k (registered q onF onR next fresh_promise) = [reaction_of k q onF onR next].
Proof. by destruct k. Qed.

Lemma settle_in_order_spec onF onR qs outs base order : forall w,
  NoDup qs -> NoDup order -> (forall j, j ∈ order -> j < length qs) ->
  (forall j, j ∈ order ->
     heap w !! source_at qs j =
     Some (registered (source_at qs j) (Some (onF j)) (Some (onR j)) (base + j)
             fresh_promise)) ->
  microtasks (settle_in_order qs outs order w) =
    microtasks w ++ map (item_task onF onR) (map (pending_task qs outs base) order) /\
  cells (settle_in_order qs outs order w) = cells w /\
  (forall p, (forall j, j ∈ order -> p <> source_at qs j) ->
     heap (settle_in_order qs outs order w) !! p = heap w !! p) /\
  (forall j, j ∈ order ->
     settled_in (source_at qs j) (settle_in_order qs outs order w) /\
     source_outcome (source_at qs j) (settle_in_order qs outs order w) = outcome_at outs j).
Proof.
  induction order as [|j rest IH]; intros w Hqs Hnd Hb Hreg.
  - cbn. rewrite app_nil_r. split; [done|]. split; [done|]. split; [done|].
    intros j Hj. by apply elem_of_nil in Hj.
  - apply NoDup_cons in Hnd as [Hj Hnd].
    cbn [settle_in_order fold_left].
    set (q := source_at qs j). set (k := fst (outcome_at outs j)).
    set (x := snd (outcome_at outs j)).
    pose proof (Hreg j ltac:(left)) as Hq. fold q in Hq.
    assert (Hw1 : settle k q x w =
              set_microtasks (microtasks w ++ [item_task onF onR (pending_task qs outs base j)])
                (set_heap (<[q := settled k x (registered q (Some (onF j)) (Some (onR j))
                                                 (base + j) fresh_promise)]> (heap w)) w)).
    { rewrite (settle_pending _ _ _ _ _ Hq eq_refl). by rewrite queue_registered. }
    set (w1 := settle k q x w) in *.
    assert (Hother : forall j', j' ∈ rest -> source_at qs j' <> q).
    { intros j' Hj' Heq. apply Hj.
      rewrite (source_at_inj qs j j' Hqs); [done| | |done].
      - apply Hb. by left.
      - apply Hb. by right. }
    destruct (IH w1 Hqs Hnd) as (H1 & H2 & H3 & H4).
    { intros j' Hj'. apply Hb. by right. }
    { intros j' Hj'. rewrite Hw1. cbn.
      rewrite list_lookup_insert_ne by (intros Heq; by apply (Hother j')).
      apply Hreg. by right. }
    fold (settle_in_order qs outs rest w1) in *.
    assert (Hlt : q < length (heap w)) by by eapply lookup_lt_Some.
    split; [|split; [|split]].
    + rewrite H1, Hw1. cbn. by rewrite <- app_assoc.
    + rewrite H2, Hw1. done.
    + intros p Hp. rewrite H3 by (intros j' Hj'; apply Hp; by right).
      rewrite Hw1. cbn. apply list_lookup_insert_ne.
      intros Heq. by apply (Hp j); [left|].
    + intros j' Hj'. apply elem_of_cons in Hj' as [->|Hj']; [|by apply H4].
      assert (Hrec : heap (settle_in_order qs outs rest w1) !! q =
                Some (settled k x (registered q (Some (onF j)) (Some (onR j))
                                     (base + j) fresh_promise))).
      { rewrite H3 by (intros j' Hj'; apply not_eq_sym; by apply Hother).
        rewrite Hw1. cbn. by apply list_lookup_insert_eq. }
      split.
      * eexists. split; [exact Hrec|]. by destruct k.
      * unfold source_outcome. fold q. rewrite Hrec.
        unfold k, x. destruct (outcome_at outs j) as [[] ?]; done.
Qed.

Lemma combinator_pending onF onR qs outs order w :
  NoDup qs -> Forall (untouched w) qs -> order ≡ₚ seq 0 (length qs) ->
  let P := length (heap w) in
  let c := length (cells w) in
  let w1 := fold_left (register_item c onF onR) (map VPromise qs) (combinator_start w) in
  let w2 := settle_in_order qs outs order w1 in
  restNum_of c w1 = Z.of_nat (length qs) /\
  state_of P w1 = Some Pending /\
  microtasks w2 =
    microtasks w ++ map (item_task onF onR) (map (pending_task qs outs (S P)) order) /\
  cells w2 !! c = Some (mkCell (Z.of_nat (length qs)) []) /\
  state_of P w2 = Some Pending /\
  (forall j, j < length qs ->
     settled_in (source_at qs j) w2 /\
     source_outcome (source_at qs j) w2 = outcome_at outs j).
Proof.
  intros Hnd Hun Hperm P c w1 w2.
  set (w0 := combinator_start w) in *.
  assert (Hlen0 : length (heap w0) = S P).
  { cbn. rewrite length_app. cbn. unfold P. lia. }
  assert (Hqs : forall q, q ∈ qs -> q < P).
  { intros q Hq. pose proof (proj1 (Forall_forall _ _) Hun q Hq) as Hu.
    by eapply lookup_lt_Some. }
  assert (Hun0 : Forall (untouched w0) qs).
  { eapply Forall_impl; [exact Hun|]. intros q Hq. unfold untouched in *.
    cbn. by apply lookup_app_l_Some. }
  assert (Hc0 : cells w0 !! c = Some (mkCell (Z.of_nat 0) [])).
  { cbn. by rewrite list_lookup_middle. }
  destruct (register_pending c onF onR qs w0 0 [] Hnd Hun0 Hc0) as (H1 & H2 & H3 & H4).
  fold w1 in H1, H2, H3, H4.
  assert (HP0 : heap w0 !! P = Some fresh_promise).
  { cbn. by rewrite list_lookup_middle. }
  assert (HPnot : P ∉ qs) by (intros HP; specialize (Hqs P HP); lia).
  assert (HP1 : heap w1 !! P = Some fresh_promise).
  { rewrite H2; [done | lia | done]. }
  assert (Hcell1 : cells w1 !! c = Some (mkCell (Z.of_nat (length qs)) [])).
  { rewrite H3. cbn. apply list_lookup_insert_eq. rewrite length_app. cbn. unfold c. lia. }
  assert (Hb : forall j, j ∈ order -> j < length qs).
  { intros j. rewrite Hperm, elem_of_seq. lia. }
  assert (Hsrc : forall j, j < length qs -> source_at qs j < P).
  { intros j Hj. apply Hqs. apply list_elem_of_lookup. exists j. by apply source_at_lookup. }
  destruct (settle_in_order_spec onF onR qs outs (S P) order w1 Hnd) as (S1 & S2 & S3 & S4).
  { rewrite Hperm. apply NoDup_seq. }
  { exact Hb. }
  { intros j Hj. rewrite (H1 j (source_at qs j)) by by apply source_at_lookup, Hb.
    by rewrite Hlen0. }
  fold w2 in S1, S2, S3, S4.
  split; [unfold restNum_of; by rewrite Hcell1|].
  split; [unfold state_of; by rewrite HP1|].
  split; [by rewrite S1, H4|].
  split; [by rewrite S2|].
  split.
  - unfold state_of. rewrite S3, HP1; [done|].
    intros j Hj. specialize (Hsrc j (Hb j Hj)). lia.
  - intros j Hj. apply S4. rewrite Hperm, elem_of_seq. lia.
Qed.

Lemma outcome_at_expected entry outs j :
  j < length outs -> expected_entry entry outs j = entry (outcome_at outs j).
Proof.
  intros Hj. destruct (lookup_lt_is_Some_2 outs j Hj) as [o Ho].
  unfold expected_entry, outcome_at. by rewrite Ho.
Qed.

Lemma pending_task_indices qs outs base order :
  map it_index (map (pending_task qs outs base) order) = order.
Proof. rewrite map_map. cbn. apply map_id. Qed.

Lemma outcome_at_fulfilled outs j :
  Forall (fun o => fst o = OnFulfilled) outs -> fst (outcome_at outs j) = OnFulfilled.
Proof.
  intros Hall. unfold outcome_at. destruct (outs !! j) as [o|] eqn:Ho; [|done].
  by apply (proj1 (Forall_lookup _ _) Hall j).
Qed.

(** Pending items fulfilled by the host in any order after [all] was
    called. *)
Lemma all_pending qs outs order w :
  qs <> [] -> NoDup qs -> Forall (untouched w) qs -> length outs = length qs ->
  order ≡ₚ seq 0 (length qs) -> microtasks w = [] ->
  Forall (fun o => fst o = OnFulfilled) outs ->
  let P := fst (Promise_all (map VPromise qs) w) in
  let w2 := settle_in_order qs outs order (snd (Promise_all (map VPromise qs) w)) in
  state_of P w2 = Some Pending /\
  state_of P (run (length qs) w2) = Some Fulfilled /\
  result_of P (run (length qs) w2) = VArray (map snd outs).
Proof.
  intros Hne Hnd Hun Hlen Hperm Hq Hful. rewrite Promise_all_unfold. cbn [fst snd]. cbv zeta.
  set (c := length (cells w)). set (P := length (heap w)).
  destruct (combinator_pending (fun index => HAllItem c index P) (fun _ => HRejectOf P)
              qs outs order w Hnd Hun Hperm) as (Hrest & _ & Hm & Hcell & Hpend & Hsrc).
  fold c P in Hrest, Hm, Hcell, Hpend, Hsrc.
  assert (Hn : 0 < length qs) by (destruct qs; [done | cbn; lia]).
  rewrite Hrest.
  destruct (Z.eqb_spec (Z.of_nat (length qs)) 0) as [Hz|_]; [lia|].
  set (w2 := settle_in_order qs outs order _) in *.
  split; [done|].
  assert (Hlo : length order = length qs) by by rewrite Hperm, length_seq.
  rewrite <- Hlo, <- (length_map (pending_task qs outs (S P)) order).
  rewrite <- (expected_entry_all snd outs), Hlen.
  eapply (run_items_complete _ _ _ _ (all_task c P) all_entry
            (fun t => it_kind t = OnFulfilled)) with (more := []).
  - intros. by apply all_task_runs.
  - apply all_entry_later.
  - done.
  - by rewrite pending_task_indices.
  - apply Forall_map, Forall_forall. intros j Hj.
    assert (Hjn : j < length qs) by (rewrite Hperm, elem_of_seq in Hj; lia).
    destruct (Hsrc j Hjn) as [Hs Ho].
    split; [done|]. cbn [pending_task it_index it_source it_kind it_next].
    split; [|split; [lia | by apply outcome_at_fulfilled]].
    rewrite outcome_at_expected by lia.
    pose proof (source_outcome_payload _ _ Hs) as Hp.
    rewrite Ho, (outcome_at_fulfilled outs j Hful) in Hp. exact Hp.
  - by apply item_inv_start.
  - unfold all_task. by rewrite Hm, Hq, app_nil_r.
Qed.

(** Pending items settled by the host in any order after [all] was called,
    the first rejection coming after the fulfilments [pre]. *)
Lemma all_pending_rejection qs outs pre j post e w :
  NoDup qs -> Forall (untouched w) qs -> length outs = length qs ->
  pre ++ j :: post ≡ₚ seq 0 (length qs) -> microtasks w = [] ->
  (forall i, i ∈ pre -> fst (outcome_at outs i) = OnFulfilled) ->
  outcome_at outs j = (OnRejected, e) ->
  let P := fst (Promise_all (map VPromise qs) w) in
  let w2 := settle_in_order qs outs (pre ++ j :: post)
              (snd (Promise_all (map VPromise qs) w)) in
  state_of P w2 = Some Pending /\
  state_of P (run (S (length pre)) w2) = Some Rejected /\
  reason_of P (run (S (length pre)) w2) = e.
Proof.
  intros Hnd Hun Hlen Hperm Hq Hful Hbad. rewrite Promise_all_unfold. cbn [fst snd]. cbv zeta.
  set (c := length (cells w)). set (P := length (heap w)).
  destruct (combinator_pending (fun index => HAllItem c index P) (fun _ => HRejectOf P)
              qs outs (pre ++ j :: post) w Hnd Hun Hperm)
    as (Hrest & _ & Hm & Hcell & Hpend & Hsrc).
  fold c P in Hrest, Hm, Hcell, Hpend, Hsrc.
  assert (Hlo : length (pre ++ j :: post) = length qs) by by rewrite Hperm, length_seq.
  rewrite length_app in Hlo. cbn in Hlo.
  rewrite Hrest.
  destruct (Z.eqb_spec (Z.of_nat (length qs)) 0) as [Hz|_]; [lia|].
  set (w2 := settle_in_order qs outs _ _) in *.
  split; [done|].
  assert (Hndo : NoDup (pre ++ j :: post)) by (rewrite Hperm; apply NoDup_seq).
  assert (Hb : forall i, i ∈ pre ++ j :: post -> i < length qs).
  { intros i. rewrite Hperm, elem_of_seq. lia. }
  assert (Hjn : j < length qs) by (apply Hb, elem_of_app; right; left).
  destruct (Hsrc j Hjn) as [Hsj Hoj].
  pose proof (source_outcome_payload _ _ Hsj) as Hpay. rewrite Hoj, Hbad in Hpay.
  cbn in Hpay. rewrite <- Hpay.
  rewrite <- (length_map (pending_task qs outs (S P)) pre).
  apply (all_run_rejection c P (length qs) (expected_entry snd outs)
           (map (pending_task qs outs (S P)) pre) (pending_task qs outs (S P) j) w2
           (map (all_task c P) (map (pending_task qs outs (S P)) post))).
  - rewrite length_map. lia.
  - rewrite pending_task_indices. by apply NoDup_app in Hndo as [? _].
  - intros i. rewrite pending_task_indices. intros Hi. apply Hb, elem_of_app. by left.
  - apply Forall_map, Forall_forall. intros i Hi.
    assert (Hin : i < length qs) by (apply Hb, elem_of_app; by left).
    destruct (Hsrc i Hin) as [Hs Ho].
    split; [done|]. cbn [pending_task it_index it_source it_kind it_next].
    split; [|split; [lia | by apply Hful]].
    rewrite outcome_at_expected by lia.
    pose proof (source_outcome_payload _ _ Hs) as Hp.
    rewrite Ho, (Hful i Hi) in Hp. exact Hp.
  - cbn. by rewrite Hbad.
  - done.
  - done.
  - done.
  - unfold all_task in *. rewrite Hm, Hq. cbn [app]. by rewrite !map_app.
Qed.

(** Pending items settled by the host, fulfilled or rejected, in any order
    after [allSettled] was called. *)
Lemma allSettled_pending qs outs order w :
  qs <> [] -> NoDup qs -> Forall (untouched w) qs -> length outs = length qs ->
  order ≡ₚ seq 0 (length qs) -> microtasks w = [] ->
  let P := fst (Promise_allSettled (map VPromise qs) w) in
  let w2 := settle_in_order qs outs order (snd (Promise_allSettled (map VPromise qs) w)) in
  state_of P w2 = Some Pending /\
  state_of P (run (length qs) w2) = Some Fulfilled /\
  result_of P (run (length qs) w2) = VArray (map outcome_record outs) /\
  forall k, state_of P (run k w2) <> Some Rejected.
Proof.
  intros Hne Hnd Hun Hlen Hperm Hq. rewrite Promise_allSettled_unfold.
  cbn [fst snd]. cbv zeta.
  set (c := length (cells w)). set (P := length (heap w)).
  destruct (combinator_pending (fun index => HSettledFulfilled c index P)
              (fun index => HSettledRejected c index P)
              qs outs order w Hnd Hun Hperm) as (Hrest & _ & Hm & Hcell & Hpend & Hsrc).
  fold c P in Hrest, Hm, Hcell, Hpend, Hsrc.
  assert (Hn : 0 < length qs) by (destruct qs; [done | cbn; lia]).
  rewrite Hrest.
  destruct (Z.eqb_spec (Z.of_nat (length qs)) 0) as [Hz|_]; [lia|].
  set (w2 := settle_in_order qs outs order _) in *.
  split; [done|].
  assert (Hlo : length order = length qs) by by rewrite Hperm, length_seq.
  set (ts := map (pending_task qs outs (S P)) order).
  assert (Hlts : length ts = length qs) by (unfold ts; by rewrite length_map).
  assert (Hrdy : Forall (ready_item P (expected_entry outcome_record outs)
                           allSettled_entry (fun _ => True) w2) ts).
  { apply Forall_map, Forall_forall. intros j Hj.
    assert (Hjn : j < length qs) by (rewrite Hperm, elem_of_seq in Hj; lia).
    destruct (Hsrc j Hjn) as [Hs Ho].
    split; [done|]. cbn [pending_task it_index it_source it_kind it_next].
    split; [|split; [lia | done]].
    rewrite outcome_at_expected by lia.
    pose proof (source_outcome_payload _ _ Hs) as Hp. rewrite Ho in Hp.
    unfold allSettled_entry, outcome_record. cbn [pending_task it_source it_kind].
    destruct (fst (outcome_at outs j)); by rewrite Hp. }
  assert (Hmq : microtasks w2 = map (allSettled_task c P) ts ++ []).
  { unfold allSettled_task, ts. by rewrite Hm, Hq, app_nil_r. }
  assert (Hdone : state_of P (run (length qs) w2) = Some Fulfilled /\
                  result_of P (run (length qs) w2) = VArray (map outcome_record outs)).
  { rewrite <- Hlts, <- (expected_entry_all outcome_record outs), Hlen.
    eapply (run_items_complete _ _ _ _ (allSettled_task c P) allSettled_entry
              (fun _ => True)) with (more := []).
    - intros. by apply allSettled_task_runs.
    - apply allSettled_entry_later.
    - done.
    - unfold ts. by rewrite pending_task_indices.
    - exact Hrdy.
    - by apply item_inv_start.
    - exact Hmq. }
  split; [apply Hdone|]. split; [apply Hdone|].
  intros k. destruct (decide (k <= length ts)) as [Hk|Hk].
  - eapply (allSettled_run_not_rejected c P (length qs) _ ts w2 []); try done.
    + unfold ts. rewrite pending_task_indices, Hperm. apply NoDup_seq.
    + intros i. unfold ts. rewrite pending_task_indices, Hperm, elem_of_seq. lia.
  - rewrite Hlts in Hk.
    replace k with (length qs + (k - length qs)) by lia.
    rewrite run_add.
    destruct (settled_forever _ _ P Fulfilled (run_later (k - length qs) _) (proj1 Hdone))
      as (-> & _); [done|discriminate].
Qed.

(** * The combinators *)

(** X19: what does hold of [all].  [all] of no item returns a container that
    is fulfilled with the empty array.  Called while no job is waiting, on
    items each of which [resolve] turns into a settled container before it
    returns (a settled container, a value that is not a thenable, a thenable
    whose [then] calls back or raises before it returns): when every item is
    fulfilled, the returned container is pending when [all] returns and,
    after as many turns as there are items, fulfilled with the values in the
    order of the items, the value a thenable calls back with as it is; when
    an item is rejected and the items before it are fulfilled, the returned
    container is rejected with the reason of that item after the turns of the
    items up to it, and stays so whatever runs afterwards.  Called while no
    job is waiting, on distinct pending containers nothing is registered on,
    which the host settles before the first turn in any order of their
    positions: when all are fulfilled, the returned container is pending
    until the turns run and fulfilled, after as many turns as items, with
    the values at the positions of their containers; when one is rejected
    after fulfilments only, the returned container is rejected with that
    reason after the turns up to it, whatever happens to the remaining items
    and whatever runs afterwards. *)
Theorem all_combinator :
  (forall w,
     state_of (fst (Promise_all [] w)) (snd (Promise_all [] w)) = Some Fulfilled /\
     result_of (fst (Promise_all [] w)) (snd (Promise_all [] w)) = VArray []) /\
  (forall items w,
     items <> [] -> microtasks w = [] ->
     Forall (item_ready w) items ->
     Forall (fun item => fst (item_outcome w item) = OnFulfilled) items ->
     let P := fst (Promise_all items w) in
     let w' := snd (Promise_all items w) in
     state_of P w' = Some Pending /\
     state_of P (run (length items) w') = Some Fulfilled /\
     result_of P (run (length items) w') =
       VArray (map (fun item => snd (item_outcome w item)) items)) /\
  (forall pre bad post e w w3,
     microtasks w = [] ->
     Forall (item_ready w) (pre ++ bad :: post) ->
     Forall (fun item => fst (item_outcome w item) = OnFulfilled) pre ->
     item_outcome w bad = (OnRejected, e) ->
     let P := fst (Promise_all (pre ++ bad :: post) w) in
     let w' := snd (Promise_all (pre ++ bad :: post) w) in
     rtc step (run (S (length pre)) w') w3 ->
     state_of P w3 = Some Rejected /\ reason_of P w3 = e) /\
  (forall qs outs order w,
     qs <> [] -> NoDup qs -> Forall (untouched w) qs -> length outs = length qs ->
     order ≡ₚ seq 0 (length qs) -> microtasks w = [] ->
     Forall (fun o => fst o = OnFulfilled) outs ->
     let P := fst (Promise_all (map VPromise qs) w) in
     let w2 := settle_in_order qs outs order (snd (Promise_all (map VPromise qs) w)) in
     state_of P w2 = Some Pending /\
     state_of P (run (length qs) w2) = Some Fulfilled /\
     result_of P (run (length qs) w2) = VArray (map snd outs)) /\
  (forall qs outs pre j post e w w3,
     NoDup qs -> Forall (untouched w) qs -> length outs = length qs ->
     pre ++ j :: post ≡ₚ seq 0 (length qs) -> microtasks w = [] ->
     (forall i, i ∈ pre -> fst (outcome_at outs i) = OnFulfilled) ->
     outcome_at outs j = (OnRejected, e) ->
     let P := fst (Promise_all (map VPromise qs) w) in
     let w2 := settle_in_order qs outs (pre ++ j :: post)
                 (snd (Promise_all (map VPromise qs) w)) in
     rtc step (run (S (length pre)) w2) w3 ->
     state_of P w3 = Some Rejected /\ reason_of P w3 = e).
Proof.
  split; [|split; [|split; [|split]]].
  - apply all_empty.
  - apply all_fulfilled.
  - intros pre bad post e w w3 Hq Hready Hful Hbad P w' Hsteps.
    destruct (all_first_rejection pre bad post e w Hq Hready Hful Hbad) as (_ & Hs & Hr).
    destruct (settled_forever _ _ _ _ (steps_later _ _ Hsteps) Hs) as (Hs' & _ & Hr');
      [done|].
    subst P w'. split; [exact Hs'|]. by rewrite Hr'.
  - apply all_pending.
  - intros qs outs pre j post e w w3 Hnd Hun Hlen Hperm Hq Hful Hbad P w2 Hsteps.
    destruct (all_pending_rejection qs outs pre j post e w Hnd Hun Hlen Hperm Hq Hful Hbad)
      as (_ & Hs & Hr).
    destruct (settled_forever _ _ _ _ (steps_later _ _ Hsteps) Hs) as (Hs' & _ & Hr');
      [done|].
    subst P w2. split; [exact Hs'|]. by rewrite Hr'.
Qed.

(** The scenario of the specification,
    [all([resolve(1), resolve(2), reject("e")])]; plain values; two pending
    items fulfilled in the reverse of their order; two pending items of
    which the second is rejected first. *)
Lemma all_combinator_witness :
  (let w := snd (Promise_reject (VStr "e")
             (snd (Promise_resolve (VNum 2) (snd (Promise_resolve (VNum 1) empty_world))))) in
   let items := [VPromise 0; VPromise 1] ++ VPromise 2 :: [] in
   state_of (fst (Promise_all items w)) (run 3 (snd (Promise_all items w))) = Some Rejected /\
   reason_of (fst (Promise_all items w)) (run 3 (snd (Promise_all items w))) = VStr "e") /\
  (let items := [VNum 1; VStr "a"; VPlainObject] in
   state_of (fst (Promise_all items empty_world)) (snd (Promise_all items empty_world))
     = Some Pending /\
   state_of (fst (Promise_all items empty_world)) (run 3 (snd (Promise_all items empty_world)))
     = Some Fulfilled /\
   result_of (fst (Promise_all items empty_world)) (run 3 (snd (Promise_all items empty_world)))
     = VArray [VNum 1; VStr "a"; VPlainObject]) /\
  (let w0 := snd (new_Promise (snd (new_Promise empty_world))) in
   let outs := [(OnFulfilled, VStr "a"); (OnFulfilled, VStr "b")] in
   let w2 := settle_in_order [0; 1] outs [1; 0] (snd (Promise_all (map VPromise [0; 1]) w0)) in
   state_of (fst (Promise_all (map VPromise [0; 1]) w0)) w2 = Some Pending /\
   state_of (fst (Promise_all (map VPromise [0; 1]) w0)) (run 2 w2) = Some Fulfilled /\
   result_of (fst (Promise_all (map VPromise [0; 1]) w0)) (run 2 w2)
     = VArray [VStr "a"; VStr "b"]) /\
  (let w0 := snd (new_Promise (snd (new_Promise empty_world))) in
   let outs := [(OnFulfilled, VStr "a"); (OnRejected, VStr "x")] in
   let w2 := settle_in_order [0; 1] outs ([] ++ 1 :: [0])
               (snd (Promise_all (map VPromise [0; 1]) w0)) in
   state_of (fst (Promise_all (map VPromise [0; 1]) w0)) (run 1 w2) = Some Rejected /\
   reason_of (fst (Promise_all (map VPromise [0; 1]) w0)) (run 1 w2) = VStr "x").
Proof.
  split; [|split; [|split]].
  - intros w items.
    apply (proj1 (proj2 (proj2 all_combinator)) [VPromise 0; VPromise 1] (VPromise 2) []
             (VStr "e") w).
    + reflexivity.
    + repeat constructor; eexists; (split; [reflexivity | discriminate]).
    + repeat constructor.
    + reflexivity.
    + apply rtc_refl.
  - intros items.
    apply (proj1 (proj2 all_combinator) items empty_world).
    + discriminate.
    + reflexivity.
    + repeat constructor.
    + repeat constructor.
  - intros w0 outs w2.
    apply (proj1 (proj2 (proj2 (proj2 all_combinator))) [0; 1] outs [1; 0] w0).
    + discriminate.
    + exact (NoDup_seq 0 2).
    + repeat constructor.
    + reflexivity.
    + apply perm_swap.
    + reflexivity.
    + repeat constructor.
  - intros w0 outs w2.
    apply (proj2 (proj2 (proj2 (proj2 all_combinator))) [0; 1] outs [] 1 [0] (VStr "x") w0).
    + exact (NoDup_seq 0 2).
    + repeat constructor.
    + reflexivity.
    + apply perm_swap.
    + reflexivity.
    + intros i Hi. by apply elem_of_nil in Hi.
    + reflexivity.
    + apply rtc_refl.
Defined.

(** X20: what does hold of [allSettled].  [allSettled] of no item returns a
    container that is fulfilled with the empty array.  Called while no job is
    waiting, on items each of which [resolve] turns into a settled container
    before it returns (a settled container, a value that is not a thenable, a
    thenable whose [then] calls back or raises before it returns), or on
    distinct pending containers nothing is registered on, which the host
    fulfils or rejects before the first turn in any order of their
    positions: the returned container is pending when [allSettled] returns
    (and still after the host's settlements), it is rejected after no number
    of turns, and after as many turns as there are items it is fulfilled
    with one outcome record per item at the position of the item, tagged
    fulfilled with the value (the value a thenable calls back with as it is)
    or rejected with the reason. *)
Theorem allSettled_combinator :
  (forall w,
     state_of (fst (Promise_allSettled [] w)) (snd (Promise_allSettled [] w))
       = Some Fulfilled /\
     result_of (fst (Promise_allSettled [] w)) (snd (Promise_allSettled [] w)) = VArray []) /\
  (forall items w,
     items <> [] -> microtasks w = [] ->
     Forall (item_ready w) items ->
     let P := fst (Promise_allSettled items w) in
     let w' := snd (Promise_allSettled items w) in
     state_of P w' = Some Pending /\
     state_of P (run (length items) w') = Some Fulfilled /\
     result_of P (run (length items) w') =
       VArray (map (fun item => outcome_record (item_outcome w item)) items) /\
     forall k, state_of P (run k w') <> Some Rejected) /\
  (forall qs outs order w,
     qs <> [] -> NoDup qs -> Forall (untouched w) qs -> length outs = length qs ->
     order ≡ₚ seq 0 (length qs) -> microtasks w = [] ->
     let P := fst (Promise_allSettled (map VPromise qs) w) in
     let w2 := settle_in_order qs outs order
                 (snd (Promise_allSettled (map VPromise qs) w)) in
     state_of P w2 = Some Pending /\
     state_of P (run (length qs) w2) = Some Fulfilled /\
     result_of P (run (length qs) w2) = VArray (map outcome_record outs) /\
     forall k, state_of P (run k w2) <> Some Rejected).
Proof.
  split; [|split].
  - apply allSettled_empty.
  - apply allSettled_fulfils.
  - apply allSettled_pending.
Qed.

(** The scenario of the specification,
    [allSettled([resolve(1), reject("e")])], and two pending items of which
    the second is rejected before the first is fulfilled. *)
Lemma allSettled_combinator_witness :
  (let w := snd (Promise_reject (VStr "e") (snd (Promise_resolve (VNum 1) empty_world))) in
   let items := [VPromise 0; VPromise 1] in
   state_of (fst (Promise_allSettled items w)) (snd (Promise_allSettled items w))
     = Some Pending /\
   state_of (fst (Promise_allSettled items w)) (run 2 (snd (Promise_allSettled items w)))
     = Some Fulfilled /\
   result_of (fst (Promise_allSettled items w)) (run 2 (snd (Promise_allSettled items w)))
     = VArray [VFulfilledRec (VNum 1); VRejectedRec (VStr "e")] /\
   forall k, state_of (fst (Promise_allSettled items w))
               (run k (snd (Promise_allSettled items w))) <> Some Rejected) /\
  (let w0 := snd (new_Promise (snd (new_Promise empty_world))) in
   let outs := [(OnFulfilled, VStr "a"); (OnRejected, VStr "b")] in
   let P := fst (Promise_allSettled (map VPromise [0; 1]) w0) in
   let w2 := settle_in_order [0; 1] outs [1; 0]
               (snd (Promise_allSettled (map VPromise [0; 1]) w0)) in
   state_of P w2 = Some Pending /\
   state_of P (run 2 w2) = Some Fulfilled /\
   result_of P (run 2 w2) = VArray [VFulfilledRec (VStr "a"); VRejectedRec (VStr "b")] /\
   forall k, state_of P (run k w2) <> Some Rejected).
Proof.
  split.
  - intros w items.
    apply (proj1 (proj2 allSettled_combinator) items w).
    + discriminate.
    + reflexivity.
    + repeat constructor; eexists; (split; [reflexivity | discriminate]).
  - intros w0 outs P w2.
    apply (proj2 (proj2 allSettled_combinator) [0; 1] outs [1; 0] w0).
    + discriminate.
    + exact (NoDup_seq 0 2).
    + repeat constructor.
    + reflexivity.
    + apply perm_swap.
    + reflexivity.
Defined.

(** * Further properties of the class *)

(** ** What [then] returns *)

Lemma then_outcome_reaction k this x onF onR w rec w' :
  heap w !! this = Some rec -> microtasks w = [] ->
  then_outcomes k this x onF onR w rec w' ->
  exists w0,
    w' = run_reaction (reaction_of k this onF onR (length (heap w))) w0 /\
    heap w0 !! length (heap w) = Some fresh_promise /\
    length (heap w0) = S (length (heap w)) /\
    trace w0 = trace w /\ microtasks w0 = [] /\ timers w0 = timers w /\
    latches w0 = latches w /\
    later_world w w0 /\
    match k with OnFulfilled => result_of this w0 | OnRejected => reason_of this w0 end = x.
Proof.
  intros Hp Hq [(Hs & Hx & ->) | (Hs & Hk & ->)].
  - eexists. split; [by eapply then_settled_turn|].
    split; [cbn; by rewrite list_lookup_middle|].
    split; [cbn; rewrite length_app; cbn; lia|].
    split; [done|]. split; [done|]. split; [done|]. split; [done|].
    split; [apply new_Promise_later|].
    unfold result_of, reason_of. cbn. rewrite (lookup_app_l_Some _ _ _ _ Hp).
    by destruct k.
  - assert (Hlt : this < length (heap w)) by by eapply lookup_lt_Some.
    eexists. split; [by eapply then_pending_turn|].
    split; [cbn; rewrite list_lookup_insert_ne by lia; by rewrite list_lookup_middle|].
    split; [cbn; rewrite length_insert, length_app; cbn; lia|].
    split; [done|]. split; [done|]. split; [done|]. split; [done|].
    split.
    + constructor; cbn; try done.
      * intros p Hp'. rewrite length_insert, length_app. lia.
      * intros p rec' Hp' Hne. destruct (decide (this = p)) as [->|Hpq]; [congruence|].
        rewrite list_lookup_insert_ne by done. by apply lookup_app_l_Some.
      * intros p rec' Hp'. destruct (decide (this = p)) as [->|Hpq].
        -- rewrite list_lookup_insert_eq in Hp' by (rewrite length_app; lia).
           injection Hp' as <-. left. apply settled_queue_settled.
        -- rewrite list_lookup_insert_ne in Hp' by done.
           apply lookup_app_Some in Hp' as [Hp'|[_ Hp']]; [by right|].
           left. destruct (p - length (heap w)) as [|n]; [|by destruct n].
           by injection Hp' as <-.
    + unfold result_of, reason_of. cbn.
      rewrite list_lookup_insert_eq by (rewrite length_app; lia).
      by destruct k.
Qed.

Lemma fresh_is_pending p w : heap w !! p = Some fresh_promise -> state_of p w = Some Pending.
Proof. intros H. unfold state_of. by rewrite H. Qed.

(** Settling a container nothing is registered on changes that container
    and nothing else. *)
Lemma settle_fresh k p x w :
  heap w !! p = Some fresh_promise ->
  settle k p x w = set_heap (<[p := settled k x fresh_promise]> (heap w)) w.
Proof.
  intros Hp. rewrite (settle_pending _ _ _ _ _ Hp eq_refl).
  replace (queue k fresh_promise) with (@nil Reaction) by by destruct k.
  cbn. rewrite app_nil_r. by destruct w.
Qed.

Lemma resolveNextPromise_plain promise value w :
  plain value = true ->
  world_of (resolveNextPromise promise value w) =
  p_resolve promise value
    (if is_object value then fire (length (latches w)) (snd (new_latch w)) else w) /\
  exists w', resolveNextPromise promise value w = Normal tt w'.
Proof. intros Hv. destruct value; try done; cbn; split; try done; by eexists. Qed.

Lemma state_of_latches p w w' : heap w' = heap w -> state_of p w' = state_of p w.
Proof. intros H. unfold state_of. by rewrite H. Qed.

(** The container a plain value is resolved into. *)
Lemma resolve_plain_pending promise value w :
  plain value = true -> state_of promise w = Some Pending ->
  state_of promise (world_of (resolveNextPromise promise value w)) = Some Fulfilled /\
  result_of promise (world_of (resolveNextPromise promise value w)) = value /\
  trace (world_of (resolveNextPromise promise value w)) = trace w.
Proof.
  intros Hv Hs. rewrite (proj1 (resolveNextPromise_plain promise value w Hv)).
  set (w1 := if is_object value then _ else w).
  assert (Hs1 : state_of promise w1 = Some Pending).
  { unfold w1. by destruct (is_object value). }
  destruct (settle_takes_effect OnFulfilled promise value w1 Hs1) as [A B].
  split; [exact A|]. split; [exact B|].
  rewrite (q_trace _ _ (p_resolve_quiet _ _ _)). unfold w1. by destruct (is_object value).
Qed.

(** X1: [then] returns a container that did not exist before the call, so
    one distinct from its receiver and from every other container; at the
    return it is pending with nothing registered on it, the receiver has the
    state it had and no other container was touched. *)
Theorem then_returns_new_container this onF onR w :
  this < length (heap w) ->
  let next := fst (then_ this onF onR w) in
  let w' := snd (then_ this onF onR w) in
  heap w !! next = None /\ next <> this /\
  heap w' !! next = Some fresh_promise /\
  length (heap w') = S (length (heap w)) /\
  state_of this w' = state_of this w /\
  forall p, p <> this -> p < length (heap w) -> heap w' !! p = heap w !! p.
Proof.
  intros Hlt next w'.
  destruct (lookup_lt_is_Some_2 _ _ Hlt) as [rec Hp].
  assert (Hnext : next = length (heap w)) by done.
  split; [rewrite Hnext; by apply lookup_ge_None_2|].
  split; [lia|].
  destruct (state rec) eqn:Hs; unfold w'.
  - rewrite (then_pending _ _ _ _ _ Hp Hs), Hnext. cbn.
    split; [rewrite list_lookup_insert_ne by lia; by rewrite list_lookup_middle|].
    split; [rewrite length_insert, length_app; cbn; lia|].
    split.
    + unfold state_of. cbn. rewrite list_lookup_insert_eq by (rewrite length_app; lia).
      rewrite Hp. cbn. done.
    + intros p Hne Hpl. rewrite list_lookup_insert_ne by done. by apply lookup_app_l.
  - rewrite (then_settled _ _ _ _ _ OnFulfilled Hp Hs), Hnext. unfold createMicroTask. cbn.
    split; [by rewrite list_lookup_middle|].
    split; [rewrite length_app; cbn; lia|].
    split; [unfold state_of; cbn; by rewrite (lookup_app_l_Some _ _ _ _ Hp), Hp|].
    intros p Hne Hpl. by apply lookup_app_l.
  - rewrite (then_settled _ _ _ _ _ OnRejected Hp Hs), Hnext. unfold createMicroTask. cbn.
    split; [by rewrite list_lookup_middle|].
    split; [rewrite length_app; cbn; lia|].
    split; [unfold state_of; cbn; by rewrite (lookup_app_l_Some _ _ _ _ Hp), Hp|].
    intros p Hne Hpl. by apply lookup_app_l.
Qed.

Lemma then_returns_new_container_witness :
  let w := snd (Promise_resolve (VNum 1) empty_world) in
  let next := fst (then_ 0 None None w) in
  let w' := snd (then_ 0 None None w) in
  heap w !! next = None /\ next <> 0 /\
  heap w' !! next = Some fresh_promise /\
  length (heap w') = S (length (heap w)) /\
  state_of 0 w' = state_of 0 w /\
  forall p, p <> 0 -> p < length (heap w) -> heap w' !! p = heap w !! p.
Proof.
  apply (then_returns_new_container 0 None None
           (snd (Promise_resolve (VNum 1) empty_world))).
  vm_compute. lia.
Defined.

(** ** Handlers and default handlers *)

Lemma reaction_handler k this onF onR next :
  r_handler (reaction_of k this onF onR next) = handler_of k (onF, onR).
Proof. by destruct k. Qed.

(** The reaction of a host handler. *)
Lemma reaction_host_outcome k this x onF onR tag f w rec w' :
  heap w !! this = Some rec -> microtasks w = [] ->
  handler_of k (onF, onR) = HostFn tag f ->
  then_outcomes k this x onF onR w rec w' ->
  trace w' = trace w ++ [(tag, [x])] /\
  (forall e, f [x] = Throw e ->
     state_of (length (heap w)) w' = Some Rejected /\ reason_of (length (heap w)) w' = e) /\
  (forall v, f [x] = Return v -> plain v = true ->
     state_of (length (heap w)) w' = Some Fulfilled /\ result_of (length (heap w)) w' = v) /\
  (forall e, f [x] = Return (VThrowingThen e) ->
     state_of (length (heap w)) w' = Some Rejected /\ reason_of (length (heap w)) w' = e).
Proof.
  intros Hp Hq Hh Hout.
  destruct (then_outcome_reaction _ _ _ _ _ _ _ _ Hp Hq Hout)
    as (w0 & -> & Hnext & _ & Ht & _ & _ & _ & _ & Hx).
  pose proof (fresh_is_pending _ _ Hnext) as Hpend.
  assert (Harg : reaction_arg (reaction_of k this onF onR (length (heap w))) w0 = x).
  { unfold reaction_arg. destruct k; exact Hx. }
  assert (Htr : trace (run_reaction (reaction_of k this onF onR (length (heap w))) w0)
                = trace w ++ [(tag, [x])]).
  { by rewrite run_reaction_trace, reaction_handler, Hh, Ht, Harg. }
  split; [exact Htr|].
  unfold run_reaction.
  fold (reaction_arg (reaction_of k this onF onR (length (heap w))) w0).
  rewrite reaction_handler, Hh, Harg.
  cbn [call r_next reaction_of].
  split; [|split].
  - intros e ->. by apply (settle_takes_effect OnRejected).
  - intros v -> Hv.
    destruct (resolve_plain_pending (length (heap w)) v (log_call tag [x] w0) Hv Hpend)
      as (A & B & _).
    destruct (proj2 (resolveNextPromise_plain (length (heap w)) v (log_call tag [x] w0) Hv))
      as [w2 Hw2].
    rewrite Hw2 in *. cbn in A, B. done.
  - intros e ->. cbn [resolveNextPromise new_latch].
    apply (settle_takes_effect OnRejected). exact Hpend.
Qed.

(** The reaction of a default handler. *)
Lemma reaction_default_outcome k this x onF onR w rec w' :
  heap w !! this = Some rec -> microtasks w = [] ->
  match k with OnFulfilled => onF = None | OnRejected => onR = None end ->
  (k = OnFulfilled -> plain x = true) ->
  then_outcomes k this x onF onR w rec w' ->
  state_of (length (heap w)) w' = Some (target_state k) /\
  match k with
  | OnFulfilled => result_of (length (heap w)) w'
  | OnRejected => reason_of (length (heap w)) w'
  end = x /\
  trace w' = trace w.
Proof.
  intros Hp Hq Hdef Hplain Hout.
  destruct (then_outcome_reaction _ _ _ _ _ _ _ _ Hp Hq Hout)
    as (w0 & -> & Hnext & _ & Ht & _ & _ & _ & _ & Hx).
  pose proof (fresh_is_pending _ _ Hnext) as Hpend.
  unfold run_reaction. destruct k; rewrite Hdef;
    cbn [reaction_of r_kind r_this r_handler r_next];
    rewrite Hx; cbn [default call]; change (arg0 [x]) with x.
  - destruct (resolve_plain_pending (length (heap w)) x w0 (Hplain eq_refl) Hpend)
      as (A & B & C).
    destruct (proj2 (resolveNextPromise_plain (length (heap w)) x w0 (Hplain eq_refl)))
      as [w2 Hw2].
    rewrite Hw2 in *. cbn in A, B, C. split; [done|]. split; [done|]. congruence.
  - destruct (settle_takes_effect OnRejected (length (heap w)) x w0 Hpend) as [A B].
    split; [done|]. split; [done|].
    by rewrite (q_trace _ _ (p_reject_quiet _ _ _)).
Qed.

(** X2: a handler of the host registered with [then] is called once with
    the payload of the transition and nothing else, and decides the
    container [then] returned: rejected with what the handler raises,
    fulfilled with what it returns when that is not a container or a
    thenable, rejected with the error of reading [then] off what it returns
    when that read raises. *)
Theorem then_handler_decides k this x onF onR tag f w rec w' :
  heap w !! this = Some rec -> microtasks w = [] ->
  handler_of k (onF, onR) = HostFn tag f ->
  then_outcomes k this x onF onR w rec w' ->
  let next := fst (then_ this onF onR w) in
  trace w' = trace w ++ [(tag, [x])] /\
  (forall e, f [x] = Throw e ->
     state_of next w' = Some Rejected /\ reason_of next w' = e) /\
  (forall v, f [x] = Return v -> plain v = true ->
     state_of next w' = Some Fulfilled /\ result_of next w' = v) /\
  (forall e, f [x] = Return (VThrowingThen e) ->
     state_of next w' = Some Rejected /\ reason_of next w' = e).
Proof. intros Hp Hq Hh Hout next. by eapply reaction_host_outcome. Qed.

Lemma then_handler_decides_witness :
  let f := fun args : list Value =>
             match args with [VNum n] => Return (VNum (n + 1)) | _ => Throw (VStr "no") end in
  let w := snd (new_Promise empty_world) in
  let w' := run 1 (settle OnFulfilled 0 (VNum 41) (snd (then_ 0 (Some (HostFn 5 f)) None w))) in
  trace w' = [(5, [VNum 41])] /\
  state_of 1 w' = Some Fulfilled /\ result_of 1 w' = VNum 42.
Proof.
  intros f w w'.
  destruct (then_handler_decides OnFulfilled 0 (VNum 41) (Some (HostFn 5 f)) None 5 f w
              fresh_promise w' eq_refl eq_refl eq_refl) as (Ht & _ & Hv & _).
  - right. repeat split.
  - split; [exact Ht|]. by apply (Hv (VNum 42)).
Defined.



(** X4: when the reaction of a call [catch(h)] runs (no job was waiting at
    the call; the receiver was settled before it, or is settled afterwards
    with nothing else registered for that transition): on a rejection the
    host function [h] is called once with the reason, and the returned
    container is fulfilled with what [h] returns (when that is not a
    container, a thenable or an object whose [then] cannot be read) and
    rejected with what it raises.  On a fulfilment [h] is not called,
    whatever the value; the value is handed on to the returned container when
    it is not a container, a thenable or an object whose [then] cannot be
    read (such a value goes through the resolution procedure instead). *)
Theorem catch_handles_rejection this x tag f w rec w' :
  heap w !! this = Some rec -> microtasks w = [] ->
  let next := fst (catch_ this (Some (HostFn tag f)) w) in
  (catch_outcomes OnRejected this x (Some (HostFn tag f)) w rec w' ->
     trace w' = trace w ++ [(tag, [x])] /\
     (forall v, f [x] = Return v -> plain v = true ->
        state_of next w' = Some Fulfilled /\ result_of next w' = v) /\
     (forall e, f [x] = Throw e ->
        state_of next w' = Some Rejected /\ reason_of next w' = e)) /\
  (catch_outcomes OnFulfilled this x (Some (HostFn tag f)) w rec w' ->
     trace w' = trace w /\
     (plain x = true ->
        state_of next w' = Some Fulfilled /\ result_of next w' = x)).
Proof.
  intros Hp Hq next. split.
  - intros Hout.
    destruct (reaction_host_outcome OnRejected this x None (Some (HostFn tag f)) tag f
                w rec w' Hp Hq eq_refl Hout) as (A & B & C & _).
    split; [exact A|]. split; [exact C | exact B].
  - intros Hout. split.
    + destruct (then_outcome_reaction OnFulfilled this x None (Some (HostFn tag f))
                  w rec w' Hp Hq Hout) as (w0 & -> & _ & _ & Ht & _).
      rewrite run_reaction_trace, Ht. cbn. by rewrite app_nil_r.
    + intros Hx.
      destruct (reaction_default_outcome OnFulfilled this x None (Some (HostFn tag f))
                  w rec w' Hp Hq eq_refl (fun _ => Hx) Hout) as (A & B & C).
      done.
Qed.

Lemma catch_handles_rejection_witness :
  let f := fun _ : list Value => Return (VStr "recovered") in
  (let w := snd (Promise_reject (VStr "why") empty_world) in
   let w' := run 1 (snd (catch_ 0 (Some (HostFn 9 f)) w)) in
   trace w' = [] ++ [(9, [VStr "why"])] /\
   state_of 1 w' = Some Fulfilled /\ result_of 1 w' = VStr "recovered") /\
  (let w := snd (Promise_resolve (VArray [VNum 5]) empty_world) in
   let w' := run 1 (snd (catch_ 0 (Some (HostFn 9 f)) w)) in
   trace w' = [] /\ state_of 1 w' = Some Fulfilled /\ result_of 1 w' = VArray [VNum 5]).
Proof.
  intros f. split.
  - intros w w'.
    destruct (catch_handles_rejection 0 (VStr "why") 9 f w
                (mkPromise Rejected VUndefined (VStr "why") [] []) w' eq_refl eq_refl)
      as [H _].
    destruct H as (Ht & Hv & _).
    + left. repeat split.
    + split; [exact Ht|]. by apply Hv.
  - intros w w'.
    destruct (catch_handles_rejection 0 (VArray [VNum 5]) 9 f w
                (mkPromise Fulfilled (VArray [VNum 5]) VUndefined [] []) w' eq_refl eq_refl)
      as [_ H].
    destruct H as (Ht & Hv).
    + left. repeat split.
    + split; [exact Ht|]. by apply Hv.
Defined.

(** ** Initializers and the static [resolve] *)

Lemma run_body_only_later onRes onRej mk body : forall w,
  Forall is_later body ->
  exists more,
    run_body onRes onRej (fun b w => setTimeout (mk b) w) body w =
    Normal tt (set_timers (timers w ++ more) w).
Proof.
  induction body as [|a rest IH]; intros w Hall.
  - exists []. cbn. rewrite app_nil_r. by destruct w.
  - inversion Hall as [|? ? Ha Hrest]; subst. destruct a as [| | |b]; try done.
    destruct (IH (setTimeout (mk b) w) Hrest) as [more Hmore].
    exists (mk b :: more). cbn. rewrite Hmore. f_equal.
    unfold setTimeout, set_timers. cbn. by rewrite <- app_assoc.
Qed.

Lemma settle_script p pre a rest w1 :
  state_of p w1 = Some Pending -> Forall is_later pre ->
  first_act_outcome a p
    match run_body (continuation (HResolveOf p)) (continuation (HRejectOf p))
            (fun b w => setTimeout (TLater (HResolveOf p) (HRejectOf p) b) w)
            (pre ++ a :: rest) w1 with
    | Normal _ w2 => w2
    | Raised e w2 => p_reject p e w2
    end.
Proof.
  intros Hpend Hpre. rewrite run_body_app.
  destruct (run_body_only_later (continuation (HResolveOf p)) (continuation (HRejectOf p))
              (TLater (HResolveOf p) (HRejectOf p)) pre w1 Hpre) as [more ->].
  set (w2 := set_timers _ w1).
  assert (Hpend2 : state_of p w2 = Some Pending) by done.
  assert (Hkeep : forall k x w3, later_world (settle k p x w2) w3 ->
            state_of p w3 = Some (target_state k) /\
            match k with OnFulfilled => result_of | OnRejected => reason_of end p w3 = x).
  { intros k x w3 H3. destruct (settle_takes_effect k p x w2 Hpend2) as [A B].
    destruct (settled_forever _ _ _ _ H3 A) as (A' & B' & C'); [by destruct k|].
    split; [done|]. destruct k; congruence. }
  destruct a as [v|r|e|b]; cbn [run_body first_act_outcome]; [| | |done].
  - change (continuation (HResolveOf p) v w2) with (Normal tt (p_resolve p v w2)).
    cbv iota.
    pose proof (run_body_later (HResolveOf p) (HRejectOf p) rest (p_resolve p v w2)) as Hl.
    destruct (run_body _ _ _ rest (p_resolve p v w2)) as [[] w3|e w3]; cbn in Hl.
    + by apply (Hkeep OnFulfilled).
    + apply (Hkeep OnFulfilled). eapply later_trans; [exact Hl | apply p_reject_later].
  - change (continuation (HRejectOf p) r w2) with (Normal tt (p_reject p r w2)).
    cbv iota.
    pose proof (run_body_later (HResolveOf p) (HRejectOf p) rest (p_reject p r w2)) as Hl.
    destruct (run_body _ _ _ rest (p_reject p r w2)) as [[] w3|e w3]; cbn in Hl.
    + by apply (Hkeep OnRejected).
    + apply (Hkeep OnRejected). eapply later_trans; [exact Hl | apply p_reject_later].
  - apply (Hkeep OnRejected). apply later_refl.
Qed.

(** X5: constructing a container from something that is not a function
    raises and changes nothing; from a function it never raises and returns
    a new container, whatever the function does.  That container is decided
    by the first thing the function does with its settlement functions:
    fulfilled by a first call of the first one, rejected by a first call of
    the second or by an error raised before any call, and nothing the
    function does afterwards (further calls, an error) changes it; a
    function that only postpones its calls leaves it pending. *)
Theorem initializer_contract :
  (forall w, construct None w = Raised not_an_executor w) /\
  (forall body w, exists w',
     construct (Some body) w = Normal (length (heap w)) w' /\ later_world w w') /\
  (forall pre a rest w, Forall is_later pre ->
     first_act_outcome a (length (heap w))
       (world_of (construct (Some (pre ++ a :: rest)) w))) /\
  (forall body w, Forall is_later body ->
     state_of (length (heap w)) (world_of (construct (Some body) w)) = Some Pending).
Proof.
  split; [done|]. split; [|split].
  - intros body w. pose proof (construct_later (Some body) w) as Hl.
    cbn in *. destruct (run_body _ _ _ body _) as [[] w2|e w2]; eexists; split; done.
  - intros pre a rest w Hpre.
    pose proof (settle_script (length (heap w)) pre a rest (snd (new_Promise w))
                  (fresh_after_construct w) Hpre) as H.
    cbn [construct new_Promise]. cbn [snd new_Promise] in H.
    by destruct (run_body _ _ _ (pre ++ a :: rest) _) as [[] w2|e w2].
  - intros body w Hbody. cbn [construct new_Promise].
    destruct (run_body_only_later (continuation (HResolveOf (length (heap w))))
                (continuation (HRejectOf (length (heap w))))
                (TLater (HResolveOf (length (heap w))) (HRejectOf (length (heap w))))
                body (set_heap (heap w ++ [fresh_promise]) w) Hbody) as [more ->].
    cbn [world_of]. apply (fresh_after_construct w).
Qed.

Lemma initializer_contract_witness :
  let late := [Later [CallResolve (VNum 1)]] in
  first_act_outcome (Raise (VStr "e")) 0
    (world_of (construct (Some (late ++ Raise (VStr "e") :: [CallResolve (VNum 2)]))
                 empty_world)) /\
  state_of 0 (world_of (construct (Some late) empty_world)) = Some Pending.
Proof.
  intros late. split.
  - apply (proj1 (proj2 (proj2 initializer_contract)) late (Raise (VStr "e"))
             [CallResolve (VNum 2)] empty_world).
    repeat constructor.
  - apply (proj2 (proj2 (proj2 initializer_contract)) late empty_world).
    repeat constructor.
Defined.

(** X6: the static [resolve] called with anything that is not a container
    and has no [then] to call or to fail on returns a new container
    fulfilled with that very value, objects and arrays included, and
    schedules nothing; with an object whose [then] cannot be read, a new
    container rejected with the error of the read; with a thenable, a new
    container decided by the first thing its [then] does with the two
    functions it is given, later calls and errors being without effect. *)
Theorem static_resolve_contract :
  (forall v w, plain v = true ->
     fst (Promise_resolve v w) = length (heap w) /\
     heap (snd (Promise_resolve v w)) = heap w ++ [mkPromise Fulfilled v VUndefined [] []] /\
     microtasks (snd (Promise_resolve v w)) = microtasks w /\
     timers (snd (Promise_resolve v w)) = timers w) /\
  (forall e w,
     fst (Promise_resolve (VThrowingThen e) w) = length (heap w) /\
     heap (snd (Promise_resolve (VThrowingThen e) w)) =
       heap w ++ [mkPromise Rejected VUndefined e [] []]) /\
  (forall pre a rest w, Forall is_later pre ->
     fst (Promise_resolve (VThenable (pre ++ a :: rest)) w) = length (heap w) /\
     first_act_outcome a (length (heap w))
       (snd (Promise_resolve (VThenable (pre ++ a :: rest)) w))).
Proof.
  assert (Hfresh : forall k x w,
            settle k (length (heap w)) x (snd (new_Promise w)) =
            set_heap (heap w ++ [settled k x fresh_promise]) w).
  { intros k x w. rewrite settle_fresh by (cbn; by rewrite list_lookup_middle).
    cbn. unfold set_heap. cbn. f_equal.
    replace (length (heap w)) with (length (heap w) + 0) at 1 by lia.
    by rewrite insert_app_r. }
  split; [|split].
  - intros v w Hv.
    assert (Promise_resolve v w =
            (length (heap w), p_resolve (length (heap w)) v (snd (new_Promise w)))) as ->
      by by destruct v.
    cbn [fst snd].
    change (p_resolve (length (heap w)) v (snd (new_Promise w)))
      with (settle OnFulfilled (length (heap w)) v (snd (new_Promise w))).
    by rewrite Hfresh.
  - intros e w. split; [done|].
    change (snd (Promise_resolve (VThrowingThen e) w))
      with (settle OnRejected (length (heap w)) e (snd (new_Promise w))).
    by rewrite Hfresh.
  - intros pre a rest w Hpre.
    pose proof (settle_script (length (heap w)) pre a rest (snd (new_Promise w))
                  (fresh_after_construct w) Hpre) as H.
    cbn [Promise_resolve new_Promise]. cbn [snd new_Promise] in H.
    by destruct (run_body _ _ _ (pre ++ a :: rest) _) as [[] w2|e w2].
Qed.

Lemma static_resolve_contract_witness :
  (fst (Promise_resolve (VArray [VNum 1]) empty_world) = 0 /\
   heap (snd (Promise_resolve (VArray [VNum 1]) empty_world)) =
     [] ++ [mkPromise Fulfilled (VArray [VNum 1]) VUndefined [] []] /\
   microtasks (snd (Promise_resolve (VArray [VNum 1]) empty_world)) = [] /\
   timers (snd (Promise_resolve (VArray [VNum 1]) empty_world)) = []) /\
  (fst (Promise_resolve (VThenable ([Later []] ++ CallReject (VStr "r") ::
          [CallResolve (VNum 1); Raise VNull])) empty_world) = 0 /\
   first_act_outcome (CallReject (VStr "r")) 0
     (snd (Promise_resolve (VThenable ([Later []] ++ CallReject (VStr "r") ::
             [CallResolve (VNum 1); Raise VNull])) empty_world))).
Proof.
  split.
  - apply (proj1 static_resolve_contract (VArray [VNum 1]) empty_world). reflexivity.
  - apply (proj2 (proj2 static_resolve_contract) [Later []] (CallReject (VStr "r"))
             [CallResolve (VNum 1); Raise VNull] empty_world).
    repeat constructor.
Defined.

(** ** The static [reject], adoption of a container, [finally] without a function *)

Lemma new_settled k x w :
  settle k (length (heap w)) x (snd (new_Promise w)) =
  set_heap (heap w ++ [settled k x fresh_promise]) w.
Proof.
  rewrite settle_fresh by (cbn; by rewrite list_lookup_middle).
  cbn. unfold set_heap. cbn. f_equal.
  replace (length (heap w)) with (length (heap w) + 0) at 1 by lia.
  by rewrite insert_app_r.
Qed.

Lemma then_frame this onF onR w n :
  n <> this -> n < length (heap w) ->
  heap (snd (then_ this onF onR w)) !! n = heap w !! n.
Proof.
  intros Hne Hlt. unfold then_. cbn. unfold state_of. cbn.
  destruct ((heap w ++ [fresh_promise]) !! this) as [rec|] eqn:Hp; cbn.
  - destruct (state rec); unfold update_promise, createMicroTask; cbn; rewrite ?Hp; cbn;
      rewrite ?list_lookup_insert_ne by done; by apply lookup_app_l.
  - by apply lookup_app_l.
Qed.

Lemma reason_of_other k p x w q : q <> p -> reason_of q (settle k p x w) = reason_of q w.
Proof. intros H. unfold reason_of. by rewrite settle_other. Qed.

(** X7: the static [reject] returns a new container rejected with its
    argument as it is, whatever that argument is (a container, a thenable),
    and neither calls nor schedules anything; a rejection handler
    registered on the container is called with that very argument. *)
Theorem static_reject_keeps_value v w :
  fst (Promise_reject v w) = length (heap w) /\
  heap (snd (Promise_reject v w)) = heap w ++ [mkPromise Rejected VUndefined v [] []] /\
  microtasks (snd (Promise_reject v w)) = microtasks w /\
  timers (snd (Promise_reject v w)) = timers w /\
  trace (snd (Promise_reject v w)) = trace w /\
  forall onF tag f, microtasks w = [] ->
    trace (run 1 (snd (then_ (length (heap w)) onF (Some (HostFn tag f))
                         (snd (Promise_reject v w))))) = trace w ++ [(tag, [v])].
Proof.
  change (snd (Promise_reject v w))
    with (settle OnRejected (length (heap w)) v (snd (new_Promise w))).
  rewrite new_settled. split; [done|]. split; [done|]. split; [done|].
  split; [done|]. split; [done|].
  intros onF tag f Hq.
  set (w1 := set_heap _ w).
  assert (Hp : heap w1 !! length (heap w) = Some (settled OnRejected v fresh_promise))
    by (cbn; by rewrite list_lookup_middle).
  apply (reaction_host_outcome OnRejected (length (heap w)) v onF (Some (HostFn tag f))
           tag f w1 _ _ Hp Hq eq_refl).
  left. done.
Qed.

Lemma static_reject_keeps_value_witness :
  trace (run 1 (snd (then_ 0 None (Some (HostFn 7 (fun _ => Return VUndefined)))
                       (snd (Promise_reject (VThenable [CallResolve (VNum 1)]) empty_world)))))
  = [] ++ [(7, [VThenable [CallResolve (VNum 1)]])].
Proof.
  apply (proj2 (proj2 (proj2 (proj2 (proj2
           (static_reject_keeps_value (VThenable [CallResolve (VNum 1)]) empty_world)))))
           None 7 (fun _ => Return VUndefined)).
  reflexivity.
Defined.

(** The reaction by which a container [next] follows the container [q]. *)
Lemma adoption_reaction k q next nn L x w0 :
  fired L w0 = false -> state_of next w0 = Some Pending -> nn <> next ->
  match k with OnFulfilled => result_of q w0 | OnRejected => reason_of q w0 end = x ->
  (k = OnFulfilled -> plain x = true) ->
  state_of next (run_reaction (reaction_of k q (Some (HOnResolved L next))
                                 (Some (HOnRejected L next)) nn) w0)
    = Some (target_state k) /\
  match k with OnFulfilled => result_of | OnRejected => reason_of end next
    (run_reaction (reaction_of k q (Some (HOnResolved L next))
                     (Some (HOnRejected L next)) nn) w0) = x /\
  trace (run_reaction (reaction_of k q (Some (HOnResolved L next))
                         (Some (HOnRejected L next)) nn) w0) = trace w0.
Proof.
  intros Hf Hpend Hne Hx Hplain.
  assert (Hpend' : state_of next (fire L w0) = Some Pending) by done.
  split; [|split].
  3: { rewrite run_reaction_trace. destruct k; cbn; by rewrite app_nil_r. }
  all: unfold run_reaction; destruct k;
    cbn [reaction_of r_kind r_this r_handler r_next default id call];
    rewrite Hx, Hf; change (arg0 [x]) with x.
  - destruct (resolve_plain_pending next x (fire L w0) (Hplain eq_refl) Hpend') as (A & _ & _).
    destruct (proj2 (resolveNextPromise_plain next x (fire L w0) (Hplain eq_refl)))
      as [w2 Hw2].
    rewrite Hw2 in *. cbn [world_of resolveNextPromise] in *.
    change (p_resolve nn VUndefined) with (settle OnFulfilled nn VUndefined).
    by rewrite (state_of_other OnFulfilled nn VUndefined w2 next).
  - cbn [resolveNextPromise].
    change (p_resolve nn VUndefined) with (settle OnFulfilled nn VUndefined).
    rewrite (state_of_other OnFulfilled nn VUndefined _ next) by done.
    apply (settle_takes_effect OnRejected next x _ Hpend').
  - destruct (resolve_plain_pending next x (fire L w0) (Hplain eq_refl) Hpend') as (_ & B & _).
    destruct (proj2 (resolveNextPromise_plain next x (fire L w0) (Hplain eq_refl)))
      as [w2 Hw2].
    rewrite Hw2 in *. cbn [world_of resolveNextPromise] in *.
    change (p_resolve nn VUndefined) with (settle OnFulfilled nn VUndefined).
    by rewrite (result_of_other OnFulfilled nn VUndefined w2 next).
  - cbn [resolveNextPromise].
    change (p_resolve nn VUndefined) with (settle OnFulfilled nn VUndefined).
    rewrite (reason_of_other OnFulfilled nn VUndefined _ next) by done.
    apply (settle_takes_effect OnRejected next x _ Hpend').
Qed.

(** X8: the resolution procedure applied to a container [q] other than the
    one being resolved never raises and never settles at once: it registers
    on [q].  The resolved container then takes the outcome of [q] in the turn
    that runs this registration (the first turn, no job waiting when the
    procedure is entered), whether [q] was settled already or is settled
    afterwards with nothing else registered for that transition: a rejection
    with any reason; a fulfilment with a value that is not a container, a
    thenable or an object whose [then] cannot be read (such a value goes
    through the resolution procedure once more).  No handler is called for
    it. *)
Theorem container_adopted k q x next w rec :
  q <> next -> state_of next w = Some Pending -> heap w !! q = Some rec ->
  microtasks w = [] -> (k = OnFulfilled -> plain x = true) ->
  let w1 := world_of (resolveNextPromise next (VPromise q) w) in
  resolveNextPromise next (VPromise q) w = Normal tt w1 /\
  state_of next w1 = Some Pending /\
  forall w',
    (state rec = target_state k /\ payload k rec = x /\ w' = run 1 w1) \/
    (state rec = Pending /\ queue k rec = [] /\ w' = run 1 (settle k q x w1)) ->
    state_of next w' = Some (target_state k) /\
    match k with OnFulfilled => result_of | OnRejected => reason_of end next w' = x /\
    trace w' = trace w.
Proof.
  intros Hne Hpend Hq Hmt Hplain.
  assert (Heqb : Nat.eqb q next = false) by by apply Nat.eqb_neq.
  cbn [resolveNextPromise]. rewrite Heqb. cbn [new_latch world_of].
  set (L := length (latches w)). set (wl := set_latches _ w).
  assert (Hlt : next < length (heap w)).
  { destruct (state_of_Some _ _ _ Hpend) as (r & Hr & _). by eapply lookup_lt_Some. }
  split; [done|]. split.
  { unfold state_of. rewrite (then_frame q _ _ wl next) by done. exact Hpend. }
  assert (Hfl : forall h, fired L (set_heap h wl) = false).
  { intros h. unfold fired, wl, L. cbn. by rewrite list_lookup_middle. }
  intros w' [(Hs & Hx & ->) | (Hs & Hk & ->)].
  - rewrite (then_settled_turn k q _ _ wl rec Hq Hs Hmt).
    refine (adoption_reaction k q next _ L x (snd (new_Promise wl)) _ _ _ _ Hplain);
      [apply Hfl| |cbn; lia|].
    + unfold state_of. cbn. rewrite lookup_app_l by done. exact Hpend.
    + unfold result_of, reason_of. cbn. rewrite (lookup_app_l_Some _ _ _ _ Hq).
      by destruct k.
  - rewrite (then_pending_turn k q x _ _ wl rec Hq Hs Hk Hmt).
    assert (Hql : q < length (heap w)) by by eapply lookup_lt_Some.
    refine (adoption_reaction k q next _ L x (set_heap _ wl) _ _ _ _ Hplain);
      [apply Hfl| |cbn; lia|].
    + unfold state_of. cbn. rewrite list_lookup_insert_ne by done.
      rewrite lookup_app_l by done. exact Hpend.
    + unfold result_of, reason_of. cbn.
      rewrite list_lookup_insert_eq by (rewrite length_app; lia). by destruct k.
Qed.

Lemma container_adopted_witness :
  let w := mkWorld [mkPromise Rejected VUndefined (VStr "no") [] []; fresh_promise]
                   [] [] [] [] [] [] in
  state_of 1 (run 1 (world_of (resolveNextPromise 1 (VPromise 0) w))) = Some Rejected /\
  reason_of 1 (run 1 (world_of (resolveNextPromise 1 (VPromise 0) w))) = VStr "no".
Proof.
  intros w.
  assert (H01 : 0 <> 1) by lia.
  assert (Hp : state_of 1 w = Some Pending) by reflexivity.
  assert (Hq : heap w !! 0 = Some (mkPromise Rejected VUndefined (VStr "no") [] []))
    by reflexivity.
  assert (Hm : microtasks w = []) by reflexivity.
  assert (Hpl : OnRejected = OnFulfilled -> plain (VStr "no") = true) by reflexivity.
  pose proof (container_adopted OnRejected 0 (VStr "no") 1 w _ H01 Hp Hq Hm Hpl) as H.
  destruct H as (_ & _ & H).
  destruct (H _ (or_introl (conj eq_refl (conj eq_refl eq_refl)))) as (A & B & _).
  exact (conj A B).
Defined.

(** X9: [finally] called with something that is not a function returns a
    container that is rejected with the TypeError of the failed call,
    whether the receiver is fulfilled or rejected: the receiver's own
    result or reason is not passed on. *)
Theorem finally_without_function k this x w rec w' :
  heap w !! this = Some rec -> microtasks w = [] ->
  (state rec = target_state k /\ payload k rec = x /\
   w' = run 1 (snd (finally_ this None w))) \/
  (state rec = Pending /\ queue k rec = [] /\
   w' = run 1 (settle k this x (snd (finally_ this None w)))) ->
  state_of (length (heap w)) w' = Some Rejected /\
  reason_of (length (heap w)) w' = not_a_function /\
  trace w' = trace w.
Proof.
  intros Hp Hq Hout.
  destruct (then_outcome_reaction k this x (Some (HFinallyThen None))
              (Some (HFinallyCatch None)) w rec w' Hp Hq Hout)
    as (w0 & -> & Hnext & _ & Ht & _ & _ & _ & _ & Hx).
  pose proof (fresh_is_pending _ _ Hnext) as Hpend.
  destruct (settle_takes_effect OnRejected (length (heap w)) not_a_function w0 Hpend)
    as [A B].
  split; [|split].
  3: { rewrite run_reaction_trace, Ht. destruct k; cbn; by rewrite app_nil_r. }
  all: unfold run_reaction; destruct k;
    cbn [reaction_of r_kind r_this r_handler r_next default id call]; assumption.
Qed.

Lemma finally_without_function_witness :
  let w := mkWorld [mkPromise Fulfilled (VNum 1) VUndefined [] []] [] [] [] [] [] [] in
  state_of 1 (run 1 (snd (finally_ 0 None w))) = Some Rejected /\
  reason_of 1 (run 1 (snd (finally_ 0 None w))) = not_a_function /\
  trace (run 1 (snd (finally_ 0 None w))) = [].
Proof.
  intros w.
  apply (finally_without_function OnFulfilled 0 (VNum 1) w
           (mkPromise Fulfilled (VNum 1) VUndefined [] [])).
  - reflexivity.
  - reflexivity.
  - left. repeat split.
Defined.

(** ** Thenables inside thenables *)

Lemma settled_as_later k x p w w' :
  later_world w w' -> settled_as k x p w -> settled_as k x p w'.
Proof.
  intros Hl [Hs Hx].
  destruct (settled_forever _ _ _ _ Hl Hs) as (A & B & C); [by destruct k|].
  split; [done|]. destruct k; congruence.
Qed.

Lemma settle_settled_as k x p w :
  state_of p w = Some Pending -> settled_as k x p (settle k p x w).
Proof.
  intros H. destruct (settle_takes_effect k p x w H) as [A B].
  split; [done|]. by destruct k.
Qed.

(** The resolution procedure raises on a direct cycle only. *)
Lemma resolveNextPromise_normal promise value w :
  value <> VPromise promise ->
  resolveNextPromise promise value w = Normal tt (world_of (resolveNextPromise promise value w)).
Proof.
  intros Hne. destruct value; try done.
  - cbn. destruct (Nat.eqb addr promise) eqn:E; [|done].
    apply Nat.eqb_eq in E. congruence.
  - rewrite resolveNextPromise_thenable. cbn zeta.
    destruct (adoption _ _ _ _) as [[] w2|e w2]; [done|].
    by destruct (fired _ w2).
Qed.

(** What the first action of a thenable's [then] leaves is kept by the rest
    of the call. *)
Lemma thenable_head next a rest w :
  let L := length (latches w) in
  let wl := fire L (snd (new_latch w)) in
  later_world
    match a with
    | CallResolve u => world_of (resolveNextPromise next u wl)
    | CallReject r => p_reject next r wl
    | Raise e => p_reject next e wl
    | Later _ => w
    end
    (world_of (resolveNextPromise next (VThenable (a :: rest)) w)).
Proof.
  intros L wl.
  assert (Hun : fired L (snd (new_latch w)) = false) by apply fresh_latch_unfired.
  assert (Hrest : forall w1,
            later_world w1
              (world_of match adoption L next rest w1 with
                        | Normal _ w2 => Normal tt w2
                        | Raised error w2 =>
                            if fired L w2 then Normal tt w2
                            else Normal tt (p_reject next error (fire L w2))
                        end)).
  { intros w1. pose proof (adoption_later L next rest w1) as Hl.
    destruct (adoption L next rest w1) as [[] w2|e w2]; cbn [world_of] in *; [done|].
    destruct (fired L w2); cbn [world_of]; [done|].
    eapply later_trans; [exact Hl|].
    eapply later_trans; [apply fire_later | apply p_reject_later]. }
  unfold adoption in Hrest.
  destruct a as [u|r|e|b].
  4: { pose proof (resolveNextPromise_later next (VThenable (Later b :: rest)) w) as Hl.
       done. }
  all: rewrite resolveNextPromise_thenable; cbn zeta; fold L;
    unfold adoption; cbn [run_body].
  - rewrite continuation_onResolved, Hun. fold wl.
    destruct (resolveNextPromise next u wl) as [[] w1|e w1]; cbn [world_of].
    + apply Hrest.
    + destruct (fired L w1); cbn [world_of]; [apply later_refl|].
      eapply later_trans; [apply fire_later | apply p_reject_later].
  - rewrite continuation_onRejected, Hun. fold wl. apply Hrest.
  - rewrite Hun. cbn [world_of]. apply later_refl.
Qed.

Lemma core_resolved v k x next w :
  core_outcome v = Some (k, x) -> state_of next w = Some Pending ->
  settled_as k x next (world_of (resolveNextPromise next v w)).
Proof.
  intros Hv Hpend.
  assert (Hpend' : state_of next (fire (length (latches w)) (snd (new_latch w)))
                   = Some Pending) by done.
  assert (Hplain : plain v = true -> k = OnFulfilled /\ x = v).
  { intros Hp. destruct v; try done; cbn in Hv; by injection Hv as <- <-. }
  destruct v as [| | | | | | | | |  |e|body].
  1-8, 10: destruct (Hplain eq_refl) as [-> ->];
    match goal with
    | |- settled_as _ ?v _ _ =>
        destruct (resolve_plain_pending next v w eq_refl Hpend) as (A & B & _)
    end; by split.
  - done.
  - injection Hv as <- <-. cbn. by apply (settle_settled_as OnRejected).
  - destruct body as [|[u|r|e|b] rest]; try done; injection Hv as <- <-.
    + eapply settled_as_later; [apply (thenable_head next (CallReject r) rest w)|].
      by apply (settle_settled_as OnRejected).
    + eapply settled_as_later; [apply (thenable_head next (Raise e) rest w)|].
      by apply (settle_settled_as OnRejected).
Qed.

(** X10: the resolution procedure unwraps thenables nested to any depth.
    Resolving a pending container with a thenable whose [then] hands on a
    thenable whose [then] hands on ... a value settled at first sight gives
    the container the outcome of that innermost value, before the procedure
    returns (no turn of the host's loop is needed) and without raising,
    whatever each of these [then] functions does after its first call, each
    of them differently.  The [then] functions of the thenables are the only
    functions called: the record of handler calls is unchanged. *)
Theorem nested_thenables_unwrapped rests v k x next : forall w,
  core_outcome v = Some (k, x) -> state_of next w = Some Pending ->
  resolveNextPromise next (nest rests v) w =
    Normal tt (world_of (resolveNextPromise next (nest rests v) w)) /\
  settled_as k x next (world_of (resolveNextPromise next (nest rests v) w)) /\
  trace (world_of (resolveNextPromise next (nest rests v) w)) = trace w.
Proof.
  intros w Hv Hpend.
  split; [|split].
  - apply resolveNextPromise_normal. destruct rests; [|done]. cbn. by destruct v.
  - revert w Hpend. induction rests as [|rest more IH]; intros w Hpend.
    + by apply core_resolved.
    + cbn [nest].
      eapply settled_as_later;
        [apply (thenable_head next (CallResolve (nest more v)) rest w)|].
      by apply IH.
  - apply (q_trace _ _ (resolveNextPromise_quiet next _ w)).
Qed.

Lemma nested_thenables_unwrapped_witness :
  let w := mkWorld [fresh_promise] [] [] [] [] [] [] in
  let v := nest [[CallReject VNull; Raise VNull]; []; [Later [CallResolve VNull]]]
             (VThenable [CallReject (VStr "bad")]) in
  resolveNextPromise 0 v w = Normal tt (world_of (resolveNextPromise 0 v w)) /\
  settled_as OnRejected (VStr "bad") 0 (world_of (resolveNextPromise 0 v w)) /\
  trace (world_of (resolveNextPromise 0 v w)) = [].
Proof.
  intros w v.
  apply (nested_thenables_unwrapped [[CallReject VNull; Raise VNull]; []; [Later [CallResolve VNull]]]
           (VThenable [CallReject (VStr "bad")]) OnRejected (VStr "bad") 0 w); reflexivity.
Defined.

(** ** Chains of [then] *)

Lemma then_length this onF onR w :
  length (heap (snd (then_ this onF onR w))) = S (length (heap w)).
Proof.
  unfold then_. cbn. unfold state_of. cbn.
  destruct ((heap w ++ [fresh_promise]) !! this) as [rec|] eqn:Hp; cbn.
  - destruct (state rec); unfold update_promise, createMicroTask; cbn; rewrite ?Hp; cbn;
      rewrite ?length_insert, length_app; cbn; lia.
  - rewrite length_app; cbn; lia.
Qed.

Lemma then_chain_frame hs : forall this w n,
  n < this -> this < length (heap w) ->
  heap (snd (then_chain hs this w)) !! n = heap w !! n.
Proof.
  induction hs as [|h rest IH]; intros this w n Hn Hlt; [done|].
  cbn [then_chain].
  destruct (then_ this (fst h) (snd h) w) as [next w1] eqn:Ht.
  assert (Hnext : next = length (heap w)) by (by inversion Ht).
  assert (Hw1 : w1 = snd (then_ this (fst h) (snd h) w)) by by rewrite Ht.
  rewrite IH; [|lia|rewrite Hw1, then_length; lia].
  rewrite Hw1. apply then_frame; lia.
Qed.

Lemma then_chain_quiet hs : forall this w, quiet w (snd (then_chain hs this w)).
Proof.
  induction hs as [|h rest IH]; intros this w; [apply quiet_refl|].
  cbn [then_chain].
  destruct (then_ this (fst h) (snd h) w) as [next w1] eqn:Ht.
  eapply quiet_trans; [|apply IH].
  replace w1 with (snd (then_ this (fst h) (snd h) w)) by by rewrite Ht.
  apply then_quiet.
Qed.

(** Chaining on a pending container schedules nothing. *)
Lemma then_chain_pending hs : forall this w,
  state_of this w = Some Pending ->
  microtasks (snd (then_chain hs this w)) = microtasks w.
Proof.
  induction hs as [|h rest IH]; intros this w Hpend; [done|].
  cbn [then_chain].
  destruct (state_of_Some _ _ _ Hpend) as (rec & Hp & Hs).
  assert (Hlt : this < length (heap w)) by by eapply lookup_lt_Some.
  rewrite (then_pending _ _ _ _ _ Hp Hs).
  rewrite IH; [done|]. by apply fresh_after_settle.
Qed.

(** The reaction of a call that gives no function for the transition taken
    settles the next container the same way. *)
Lemma default_reaction k this onF onR next x w :
  passes k (onF, onR) ->
  match k with OnFulfilled => result_of this w | OnRejected => reason_of this w end = x ->
  (k = OnFulfilled -> plain x = true) ->
  exists w2,
    run_reaction (reaction_of k this onF onR next) w = settle k next x w2 /\
    heap w2 = heap w /\ microtasks w2 = microtasks w /\ trace w2 = trace w.
Proof.
  intros Hdef Hx Hplain. unfold run_reaction.
  destruct k; cbn in Hdef; rewrite Hdef;
    cbn [reaction_of r_kind r_this r_handler r_next default call]; rewrite Hx;
    change (arg0 [x]) with x.
  - destruct (resolveNextPromise_plain next x w (Hplain eq_refl)) as [Hw [w2 Hn]].
    rewrite Hn in *. cbn [world_of] in Hw. rewrite Hw.
    eexists. split; [reflexivity|]. by destruct (is_object x).
  - by exists w.
Qed.

(** A chain hanging on a pending container, once that container is
    settled: every turn hands the outcome one container further. *)
Lemma chain_runs k x :
  (k = OnFulfilled -> plain x = true) ->
  forall hs this w rec w1,
    Forall (passes k) hs ->
    heap w !! this = Some rec -> state rec = Pending -> queue k rec = [] ->
    (forall n, this <= n -> heap w1 !! n = heap (snd (then_chain hs this w)) !! n) ->
    microtasks w1 = [] ->
    settled_as k x (fst (then_chain hs this w)) (run (length hs) (settle k this x w1)) /\
    trace (run (length hs) (settle k this x w1)) = trace w1 /\
    microtasks (run (length hs) (settle k this x w1)) = [].
Proof.
  intros Hplain. induction hs as [|h rest IH]; intros this w rec w1 Hall Hp Hs Hk Hagree Hq.
  - cbn [then_chain fst snd length run] in *.
    assert (Hp1 : heap w1 !! this = Some rec) by (rewrite Hagree by lia; exact Hp).
    split; [|split].
    + apply settle_settled_as. unfold state_of. by rewrite Hp1, <- Hs.
    + apply (q_trace _ _ (settle_quiet k this x w1)).
    + rewrite (settle_pending _ _ _ _ _ Hp1 Hs). cbn. by rewrite Hq, Hk.
  - inversion Hall as [|? ? Hh Hrest]; subst.
    assert (Hlt : this < length (heap w)) by by eapply lookup_lt_Some.
    cbn [then_chain length] in *.
    rewrite (then_pending _ _ _ _ _ Hp Hs) in *.
    set (nn := length (heap w)) in *.
    set (w0 := set_heap _ w) in *.
    assert (Hlen0 : length (heap w0) = S nn).
    { unfold w0. cbn. rewrite length_insert, length_app. cbn. lia. }
    assert (Hp1 : heap w1 !! this = Some (registered this (fst h) (snd h) nn rec)).
    { rewrite Hagree by lia. rewrite then_chain_frame by (unfold nn; lia).
      unfold w0. cbn. apply list_lookup_insert_eq. rewrite length_app. lia. }
    assert (Hlt1 : this < length (heap w1)) by by eapply lookup_lt_Some.
    rewrite (settle_pending _ _ _ _ _ Hp1 Hs).
    replace (queue k (registered this (fst h) (snd h) nn rec))
      with [reaction_of k this (fst h) (snd h) nn]
      by (destruct k; cbn in *; by rewrite Hk).
    rewrite Hq. cbn [app map run turn microtasks set_microtasks run_task].
    set (w2 := set_microtasks [] _).
    destruct (default_reaction k this (fst h) (snd h) nn x w2) as (w3 & -> & Hh3 & Hm3 & Ht3).
    { by destruct h. }
    { unfold result_of, reason_of, w2. cbn.
      rewrite list_lookup_insert_eq by done. by destruct k. }
    { done. }
    assert (Hfresh : heap w0 !! nn = Some fresh_promise).
    { unfold w0. cbn. rewrite list_lookup_insert_ne by (unfold nn; lia).
      by rewrite list_lookup_middle. }
    destruct (IH nn w0 fresh_promise w3 Hrest Hfresh eq_refl) as (A & B & C).
    + by destruct k.
    + intros n Hn. rewrite Hh3. unfold w2. cbn.
      rewrite list_lookup_insert_ne by (unfold nn in Hn; lia).
      apply Hagree. unfold nn in Hn. lia.
    + by rewrite Hm3.
    + split; [exact A|]. split; [|exact C]. by rewrite B, Ht3.
Qed.

(** X11: an outcome goes down a chain of [then] calls none of which gives a
    function for it (a rejection with any reason; a fulfilment with a value
    that is not a container, a thenable or an object whose [then] cannot be
    read): after as many turns as there are calls, the last container of the
    chain has the state and the payload of the first, no function given for
    the other transition was called, and nothing is left scheduled.  No job
    is waiting when the chain is built; the first container may be settled
    by then, or be settled afterwards with nothing else registered on it for
    that transition. *)
Theorem outcome_passes_down_chain k hs this x w rec w' :
  heap w !! this = Some rec -> microtasks w = [] ->
  Forall (passes k) hs -> (k = OnFulfilled -> plain x = true) ->
  (state rec = target_state k /\ payload k rec = x /\
   w' = run (length hs) (snd (then_chain hs this w))) \/
  (state rec = Pending /\ queue k rec = [] /\
   w' = run (length hs) (settle k this x (snd (then_chain hs this w)))) ->
  settled_as k x (fst (then_chain hs this w)) w' /\
  trace w' = trace w /\ microtasks w' = [].
Proof.
  intros Hp Hq Hall Hplain [(Hs & Hx & ->) | (Hs & Hk & ->)].
  - destruct hs as [|h rest].
    + cbn. split; [|done]. split.
      * unfold state_of. by rewrite Hp, <- Hs.
      * unfold result_of, reason_of. rewrite Hp. by destruct k.
    + inversion Hall as [|? ? Hh Hrest]; subst.
      assert (Hlt : this < length (heap w)) by by eapply lookup_lt_Some.
      cbn [then_chain length].
      rewrite (then_settled _ _ _ _ _ k Hp Hs).
      set (nn := length (heap w)).
      set (w0 := createMicroTask _ _).
      assert (Hfresh : heap w0 !! nn = Some fresh_promise).
      { unfold w0, createMicroTask. cbn. by rewrite list_lookup_middle. }
      assert (Hm : microtasks (snd (then_chain rest nn w0))
                   = [TReaction (reaction_of k this (fst h) (snd h) nn)]).
      { rewrite then_chain_pending by by apply fresh_is_pending.
        unfold w0, createMicroTask. cbn. by rewrite Hq. }
      assert (Hlen0 : length (heap w0) = S nn).
      { unfold w0, createMicroTask. cbn. rewrite length_app. cbn. lia. }
      assert (Hthis : heap (snd (then_chain rest nn w0)) !! this = Some rec).
      { rewrite then_chain_frame by (unfold nn; lia).
        unfold w0, createMicroTask. cbn. by apply lookup_app_l_Some. }
      cbn [run]. unfold turn. rewrite Hm. cbn [run_task].
      set (w2 := set_microtasks [] _).
      destruct (default_reaction k this (fst h) (snd h) nn (payload k rec) w2)
        as (w3 & -> & Hh3 & Hm3 & Ht3).
      { by destruct h. }
      { unfold result_of, reason_of, w2. cbn. rewrite Hthis. by destruct k. }
      { done. }
      destruct (chain_runs k (payload k rec) Hplain rest nn w0 fresh_promise w3
                  Hrest Hfresh eq_refl) as (A & B & C).
      * by destruct k.
      * intros n _. by rewrite Hh3.
      * by rewrite Hm3.
      * split; [exact A|]. split; [|exact C].
        rewrite B, Ht3. unfold w2. cbn.
        rewrite (q_trace _ _ (then_chain_quiet rest nn w0)). done.
  - destruct (chain_runs k x Hplain hs this w rec (snd (then_chain hs this w))
                Hall Hp Hs Hk) as (A & B & C).
    + done.
    + rewrite then_chain_pending; [done|]. unfold state_of. rewrite Hp. cbn. by rewrite Hs.
    + split; [exact A|]. split; [|exact C].
      by rewrite B, (q_trace _ _ (then_chain_quiet hs this w)).
Qed.

Lemma outcome_passes_down_chain_witness :
  let w := mkWorld [mkPromise Rejected VUndefined (VStr "boom") [] []] [] [] [] [] [] [] in
  let f := Some (HostFn 1 (fun _ => Return VNull)) in
  let hs := [(f, None); (f, None); (None, None)] in
  settled_as OnRejected (VStr "boom") (fst (then_chain hs 0 w))
    (run 3 (snd (then_chain hs 0 w))) /\
  trace (run 3 (snd (then_chain hs 0 w))) = [] /\
  microtasks (run 3 (snd (then_chain hs 0 w))) = [].
Proof.
  intros w f hs.
  apply (outcome_passes_down_chain OnRejected hs 0 (VStr "boom") w
           (mkPromise Rejected VUndefined (VStr "boom") [] [])).
  - reflexivity.
  - reflexivity.
  - repeat constructor.
  - discriminate.
  - left. repeat split.
Defined.

(** ** [race] *)

Lemma Promise_race_unfold target w :
  Promise_race target w =
  (length (heap w),
   fold_left (race_register (length (heap w))) target (snd (new_Promise w))).
Proof. reflexivity. Qed.

Lemma later_length w w' : later_world w w' -> length (heap w) <= length (heap w').
Proof.
  intros Hl. destruct (length (heap w)) as [|m] eqn:E; [lia|].
  pose proof (lw_heap _ _ Hl m). lia.
Qed.

Lemma same_states_refl w : same_states w w.
Proof. by split. Qed.

Lemma same_states_trans w1 w2 w3 :
  same_states w1 w2 -> same_states w2 w3 -> same_states w1 w3.
Proof.
  intros [L1 H1] [L2 H2]. split; [lia|].
  intros n Hn. rewrite H2 by lia. by apply H1.
Qed.

Lemma preserves_old_states w w' : preserves_old w w' -> same_states w w'.
Proof.
  intros [L H]. split; [done|]. intros n Hn. unfold state_of. by rewrite H.
Qed.

Section FoldRelation.
Context {A : Type} (R : World -> World -> Prop) (f : World -> A -> World).
Hypothesis R_refl : forall w, R w w.
Hypothesis R_trans : forall w1 w2 w3, R w1 w2 -> R w2 w3 -> R w1 w3.
Hypothesis R_step : forall w x, R w (f w x).

Lemma fold_left_related xs : forall w, R w (fold_left f xs w).
Proof.
  induction xs as [|x xs IH]; intros w; cbn; [apply R_refl|].
  eapply R_trans; [apply R_step | apply IH].
Qed.
End FoldRelation.

(** The settlement functions of a container touch no other container. *)
Lemma run_body_others p body w :
  let o := run_body (continuation (HResolveOf p)) (continuation (HRejectOf p))
             (fun b w => setTimeout (TLater (HResolveOf p) (HRejectOf p) b) w) body w in
  forall n, n <> p -> heap (world_of o) !! n = heap w !! n.
Proof.
  cbn zeta.
  apply (run_body_related (fun a b => forall n, n <> p -> heap b !! n = heap a !! n)).
  - done.
  - intros w1 w2 w3 H1 H2 n Hn. rewrite H2 by done. by apply H1.
  - intros r w0 n Hn. apply (settle_other OnRejected p r w0 n Hn).
  - done.
  - apply Forall_forall. intros v _ w0 n Hn. apply (settle_other OnFulfilled p v w0 n Hn).
Qed.

Lemma run_body_quiet onRes onRej body w :
  (forall v w, quiet w (world_of (continuation onRes v w))) ->
  (forall v w, quiet w (world_of (continuation onRej v w))) ->
  quiet w (world_of (run_body (continuation onRes) (continuation onRej)
                       (fun b w => setTimeout (TLater onRes onRej b) w) body w)).
Proof.
  intros HR HJ. apply run_body_related.
  - apply quiet_refl.
  - apply quiet_trans.
  - apply HJ.
  - intros; apply setTimeout_quiet.
  - apply Forall_forall. intros; apply HR.
Qed.

(** The static [resolve] leaves the existing containers alone, calls no
    host function and takes nothing off a queue. *)
Lemma Promise_resolve_old item w : preserves_old w (snd (Promise_resolve item w)).
Proof.
  destruct item;
    try apply (settle_fresh_old OnFulfilled w);
    try apply (settle_fresh_old OnRejected w).
  - apply preserves_old_refl.
  - split; [apply later_length, Promise_resolve_later|].
    intros n Hn. cbn [Promise_resolve new_Promise].
    pose proof (run_body_others (length (heap w)) body
                  (set_heap (heap w ++ [fresh_promise]) w)) as Ho.
    cbn zeta in Ho.
    destruct (run_body _ _ _ body _) as [[] w2|e w2]; cbn [snd world_of] in *.
    + rewrite Ho by lia. cbn. by apply lookup_app_l.
    + rewrite (settle_other OnRejected) by lia. rewrite Ho by lia. cbn.
      by apply lookup_app_l.
Qed.

Lemma Promise_resolve_quiet item w : quiet w (snd (Promise_resolve item w)).
Proof.
  destruct item; cbn [Promise_resolve];
    try (eapply quiet_trans; [apply new_Promise_quiet | apply p_resolve_quiet]).
  - apply quiet_refl.
  - eapply quiet_trans; [apply new_Promise_quiet | apply p_reject_quiet].
  - cbn [new_Promise].
    pose proof (run_body_quiet (HResolveOf (length (heap w))) (HRejectOf (length (heap w)))
                  body (set_heap (heap w ++ [fresh_promise]) w)) as Hb.
    destruct (run_body _ _ _ body _) as [[] w2|e w2]; cbn [snd world_of] in *.
    + eapply quiet_trans; [apply new_Promise_quiet|].
      apply Hb; intros; [apply p_resolve_quiet | apply p_reject_quiet].
    + eapply quiet_trans; [apply new_Promise_quiet|].
      eapply quiet_trans; [|apply p_reject_quiet].
      apply Hb; intros; [apply p_resolve_quiet | apply p_reject_quiet].
Qed.

(** [then] changes the state of no container. *)
Lemma then_states this onF onR w : same_states w (snd (then_ this onF onR w)).
Proof.
  split; [rewrite then_length; lia|].
  intros n Hn. destruct (decide (n = this)) as [->|Hne].
  - destruct (lookup_lt_is_Some_2 _ _ Hn) as [rec Hp].
    unfold state_of at 2. rewrite Hp. cbn.
    destruct (state rec) eqn:Hs.
    + rewrite (then_pending _ _ _ _ _ Hp Hs). unfold state_of. cbn.
      rewrite list_lookup_insert_eq by (rewrite length_app; lia). cbn. by rewrite Hs.
    + rewrite (then_settled _ _ _ _ _ OnFulfilled Hp Hs). unfold state_of, createMicroTask.
      cbn. rewrite (lookup_app_l_Some _ _ _ _ Hp). cbn. by rewrite Hs.
    + rewrite (then_settled _ _ _ _ _ OnRejected Hp Hs). unfold state_of, createMicroTask.
      cbn. rewrite (lookup_app_l_Some _ _ _ _ Hp). cbn. by rewrite Hs.
  - unfold state_of. by rewrite then_frame.
Qed.

Lemma race_register_states p w item : same_states w (race_register p w item).
Proof.
  unfold race_register.
  pose proof (preserves_old_states _ _ (Promise_resolve_old item w)) as H.
  destruct (Promise_resolve item w) as [q w1]. cbn [snd] in H.
  eapply same_states_trans; [exact H | apply then_states].
Qed.

Lemma race_register_quiet p w item : quiet w (race_register p w item).
Proof.
  unfold race_register.
  pose proof (Promise_resolve_quiet item w) as H.
  destruct (Promise_resolve item w) as [q w1]. cbn [snd] in H.
  eapply quiet_trans; [exact H | apply then_quiet].
Qed.

Lemma race_register_later p w item : later_world w (race_register p w item).
Proof.
  unfold race_register.
  pose proof (Promise_resolve_later item w) as H.
  destruct (Promise_resolve item w) as [q w1]. cbn [snd] in H.
  eapply later_trans; [exact H | apply then_later].
Qed.

Lemma pending_container_states w w' item :
  same_states w w' -> pending_container w item -> pending_container w' item.
Proof.
  intros [_ H] Hp. destruct item; try done. cbn in *.
  rewrite H; [done|].
  destruct (state_of_Some _ _ _ Hp) as (rec & Hr & _). by eapply lookup_lt_Some.
Qed.

(** Registering on pending containers schedules nothing. *)
Lemma race_pending_items p items : forall w,
  Forall (pending_container w) items ->
  microtasks (fold_left (race_register p) items w) = microtasks w /\
  timers (fold_left (race_register p) items w) = timers w.
Proof.
  induction items as [|item rest IH]; intros w Hall; [done|].
  inversion Hall as [|? ? Hitem Hrest]; subst. cbn [fold_left].
  destruct (IH (race_register p w item)) as [A B].
  { eapply Forall_impl; [exact Hrest|]. intros v.
    apply pending_container_states, race_register_states. }
  rewrite A, B. destruct item; try done. cbn in Hitem.
  destruct (state_of_Some _ _ _ Hitem) as (rec & Hr & Hs).
  unfold race_register. cbn [Promise_resolve].
  by rewrite (then_pending _ _ _ _ _ Hr Hs).
Qed.

(** The reaction [race] registers for an item. *)
Lemma race_reaction k q p nn x w :
  state_of p w = Some Pending ->
  match k with OnFulfilled => result_of q w | OnRejected => reason_of q w end = x ->
  settled_as k x p
    (run_reaction (reaction_of k q (Some (HRaceItem p)) (Some (HRejectOf p)) nn) w).
Proof.
  intros Hpend Hx. unfold run_reaction.
  destruct k; cbn [reaction_of r_kind r_this r_handler r_next default id call];
    rewrite Hx; change (arg0 [x]) with x; cbn [resolveNextPromise].
  - eapply settled_as_later; [apply p_resolve_later|].
    by apply (settle_settled_as OnFulfilled).
  - eapply settled_as_later; [apply p_resolve_later|].
    by apply (settle_settled_as OnRejected).
Qed.

(** X12: [race] returns a new container that is pending when [race]
    returns, whatever the items, and no handler has been called by then (the
    [then] of a thenable item is called, by [resolve]: it is not a handler,
    and what it does is seen on the item's container only).  When the items
    before the first item that is settled as [race] looks at it (a settled
    container, a value that is not a thenable, a thenable whose [then] calls
    back or raises before it returns) are pending containers, the first turn
    after the call gives the returned container the outcome of that item,
    the value of a fulfilment as it is; whatever the other items are and
    whatever runs afterwards, it keeps it. *)
Theorem race_first_ready_wins :
  (forall target w,
     fst (Promise_race target w) = length (heap w) /\
     state_of (length (heap w)) (snd (Promise_race target w)) = Some Pending /\
     trace (snd (Promise_race target w)) = trace w) /\
  (forall pre item post k x w n,
     Forall (pending_container w) pre -> item_ready w item ->
     item_outcome w item = (k, x) -> microtasks w = [] ->
     settled_as k x (length (heap w))
       (run (S n) (snd (Promise_race (pre ++ item :: post) w)))).
Proof.
  split.
  - intros target w. rewrite Promise_race_unfold. cbn [fst snd].
    set (p := length (heap w)). set (W0 := snd (new_Promise w)).
    assert (HsP : same_states W0 (fold_left (race_register p) target W0)).
    { apply fold_left_related;
        [apply same_states_refl | apply same_states_trans | apply race_register_states]. }
    assert (HqP : quiet W0 (fold_left (race_register p) target W0)).
    { apply fold_left_related;
        [apply quiet_refl | apply quiet_trans | apply race_register_quiet]. }
    split; [done|]. split.
    + rewrite (proj2 HsP) by (unfold W0; cbn; rewrite length_app; cbn; lia).
      apply fresh_after_construct.
    + by rewrite (q_trace _ _ HqP).
  - intros pre item post k x w n Hpre Hready Hout Hq. revert n.
    cut (fst (Promise_race (pre ++ item :: post) w) = length (heap w) /\
         state_of (length (heap w)) (snd (Promise_race (pre ++ item :: post) w))
           = Some Pending /\
         trace (snd (Promise_race (pre ++ item :: post) w)) = trace w /\
         forall n, settled_as k x (length (heap w))
                     (run (S n) (snd (Promise_race (pre ++ item :: post) w)))).
    { intros (_ & _ & _ & H). exact H. }
    rewrite Promise_race_unfold. cbn [fst snd].
    set (p := length (heap w)). set (W0 := snd (new_Promise w)).
    rewrite fold_left_app. cbn [fold_left].
    set (Wpre := fold_left (race_register p) pre W0).
    assert (Hl0 : later_world w W0) by apply new_Promise_later.
    assert (Hs0 : same_states w W0) by apply preserves_old_states, new_Promise_old.
    assert (HsP : same_states W0 Wpre).
    { apply fold_left_related;
        [apply same_states_refl | apply same_states_trans | apply race_register_states]. }
    assert (HlP : later_world W0 Wpre).
    { apply fold_left_related; [apply later_refl | apply later_trans | apply race_register_later]. }
    assert (HqP : quiet W0 Wpre).
    { apply fold_left_related; [apply quiet_refl | apply quiet_trans | apply race_register_quiet]. }
    assert (HmP : microtasks Wpre = []).
    { unfold Wpre. rewrite (proj1 (race_pending_items p pre W0
        (Forall_impl _ _ _ Hpre (fun v => pending_container_states w W0 v Hs0)))). exact Hq. }
    assert (HlwP : later_world w Wpre) by by eapply later_trans.
    pose proof (item_ready_later _ _ _ Hready HlwP) as HreadyP.
    pose proof (item_outcome_later _ _ _ Hready HlwP) as HoutP. rewrite Hout in HoutP.
    destruct (Promise_resolve_ready item Wpre HreadyP) as (Hset & Hsrc & Hold & Hm2 & _).
    rewrite HoutP in Hsrc.
    pose proof (Promise_resolve_quiet item Wpre) as Hq2.
    destruct (Promise_resolve item Wpre) as [q W2] eqn:HPR. cbn [fst snd] in *.
    destruct (source_outcome_settled q W2 Hset) as (rec & Hrec & Hst & Hpay).
    rewrite Hsrc in Hst, Hpay. cbn [fst snd] in Hst, Hpay.
    set (R := reaction_of k q (Some (HRaceItem p)) (Some (HRejectOf p)) (length (heap W2))).
    set (W3 := createMicroTask (TReaction R) (snd (new_Promise W2))).
    assert (Hreg : race_register p Wpre item = W3).
    { unfold race_register. rewrite HPR. by rewrite (then_settled _ _ _ _ _ k Hrec Hst). }
    rewrite Hreg.
    set (W4 := fold_left (race_register p) post W3).
    assert (Hs23 : same_states W2 W3) by apply preserves_old_states, new_Promise_old.
    assert (Hl23 : later_world W2 W3)
      by (eapply later_trans; [apply new_Promise_later | apply createMicroTask_later]).
    assert (Hs34 : same_states W3 W4).
    { apply fold_left_related;
        [apply same_states_refl | apply same_states_trans | apply race_register_states]. }
    assert (Hl34 : later_world W3 W4).
    { apply fold_left_related; [apply later_refl | apply later_trans | apply race_register_later]. }
    assert (Hq34 : quiet W3 W4).
    { apply fold_left_related; [apply quiet_refl | apply quiet_trans | apply race_register_quiet]. }
    assert (Hp0 : state_of p W0 = Some Pending) by apply fresh_after_construct.
    assert (HpLt : p < length (heap W0)) by (unfold W0; cbn; rewrite length_app; cbn; lia).
    assert (Hs04 : same_states W0 W4).
    { eapply same_states_trans; [exact HsP|].
      eapply same_states_trans; [apply preserves_old_states, Hold|].
      eapply same_states_trans; [exact Hs23 | exact Hs34]. }
    assert (Hp4 : state_of p W4 = Some Pending) by (rewrite (proj2 Hs04) by done; exact Hp0).
    split; [done|]. split; [exact Hp4|]. split.
    { etransitivity; [apply (q_trace _ _ Hq34)|].
      etransitivity; [|apply (q_trace _ _ HqP)].
      etransitivity; [|apply (q_trace _ _ Hq2)]. done. }
    intros n.
    destruct (q_microtasks _ _ Hq34) as [more Hmore].
    assert (Hm3 : microtasks W3 = [TReaction R]).
    { unfold W3, createMicroTask. cbn. by rewrite Hm2, HmP. }
    rewrite Hm3 in Hmore. cbn [app] in Hmore.
    cbn [run]. unfold turn. rewrite Hmore. cbn [run_task].
    eapply settled_as_later; [apply run_later|].
    apply race_reaction; [exact Hp4|].
    assert (Hnp : state rec <> Pending) by (rewrite Hst; by destruct k).
    pose proof (lw_settled _ _ Hl34 _ _ (lw_settled _ _ Hl23 _ _ Hrec Hnp) Hnp) as Hrec4.
    unfold result_of, reason_of. cbn. rewrite Hrec4. by destruct k.
Qed.

Lemma race_first_ready_wins_witness :
  let w := mkWorld [fresh_promise; mkPromise Rejected VUndefined (VStr "late") [] []]
                   [] [] [] [] [] [] in
  settled_as OnFulfilled (VNum 2) 2
    (run 3 (snd (Promise_race ([VPromise 0] ++ VNum 2 :: [VPromise 1]) w))).
Proof.
  intros w.
  apply (proj2 race_first_ready_wins [VPromise 0] (VNum 2) [VPromise 1] OnFulfilled
           (VNum 2) w 2).
  - repeat constructor.
  - exact I.
  - reflexivity.
  - reflexivity.
Defined.

(** X13: [race] over pending containers only (in particular over nothing)
    returns a container that stays pending, with nothing scheduled, for as
    long as none of them is settled. *)
Theorem race_of_pending_stays_pending target w n :
  Forall (pending_container w) target -> quiescent w ->
  run n (snd (Promise_race target w)) = snd (Promise_race target w) /\
  state_of (fst (Promise_race target w)) (run n (snd (Promise_race target w)))
    = Some Pending.
Proof.
  intros Hall [Hm Ht].
  rewrite Promise_race_unfold. cbn [fst snd].
  set (p := length (heap w)). set (W0 := snd (new_Promise w)).
  assert (Hs0 : same_states w W0) by apply preserves_old_states, new_Promise_old.
  destruct (race_pending_items p target W0
              (Forall_impl _ _ _ Hall (fun v => pending_container_states w W0 v Hs0)))
    as [A B].
  assert (Hrun : run n (fold_left (race_register p) target W0)
                 = fold_left (race_register p) target W0).
  { destruct n; [done|]. cbn [run]. unfold turn. rewrite A, B. cbn. by rewrite Hm, Ht. }
  rewrite Hrun. split; [done|].
  assert (HsP : same_states W0 (fold_left (race_register p) target W0)).
  { apply fold_left_related;
      [apply same_states_refl | apply same_states_trans | apply race_register_states]. }
  rewrite (proj2 HsP) by (unfold W0; cbn; rewrite length_app; cbn; lia).
  apply fresh_after_construct.
Qed.

Lemma race_of_pending_stays_pending_witness :
  let w := mkWorld [fresh_promise] [] [] [] [] [] [] in
  run 5 (snd (Promise_race [VPromise 0; VPromise 0] w))
    = snd (Promise_race [VPromise 0; VPromise 0] w) /\
  state_of (fst (Promise_race [VPromise 0; VPromise 0] w))
    (run 5 (snd (Promise_race [VPromise 0; VPromise 0] w))) = Some Pending.
Proof.
  intros w.
  apply (race_of_pending_stays_pending [VPromise 0; VPromise 0] w 5).
  - repeat constructor.
  - split; reflexivity.
Defined.

(** ** Initializers that settle from a timer *)

Lemma settled_as_heap k x p w w' : heap w' = heap w -> settled_as k x p w -> settled_as k x p w'.
Proof. intros H. unfold settled_as, state_of, result_of, reason_of. by rewrite H. Qed.

(** X14: an initializer that does nothing but postpone its work to a timer
    returns a pending container.  When the timer runs, the first call of a
    settlement function decides the container, as it would have during
    construction; an error raised in the timer before any such call is not
    turned into a rejection: the container stays pending and the error goes
    to the host. *)
Theorem deferred_initializer pre a rest w :
  quiescent w -> Forall is_later pre ->
  let p := length (heap w) in
  let w1 := world_of (construct (Some [Later (pre ++ a :: rest)]) w) in
  construct (Some [Later (pre ++ a :: rest)]) w = Normal p w1 /\
  state_of p w1 = Some Pending /\
  match a with
  | CallResolve v => settled_as OnFulfilled v p (run 1 w1)
  | CallReject r => settled_as OnRejected r p (run 1 w1)
  | Raise e => state_of p (run 1 w1) = Some Pending /\
               uncaught (run 1 w1) = uncaught w ++ [e]
  | Later _ => True
  end.
Proof.
  intros [Hm Ht] Hpre p w1. split; [done|]. split; [apply (fresh_after_construct w)|].
  set (T := TLater (HResolveOf p) (HRejectOf p) (pre ++ a :: rest)).
  assert (Hw1 : w1 = setTimeout T (snd (new_Promise w))) by done.
  assert (HmW : microtasks w1 = []) by exact Hm.
  assert (HtW : timers w1 = [T]) by (rewrite Hw1; unfold setTimeout; cbn; by rewrite Ht).
  cbn [run]. unfold turn. rewrite HmW, HtW. cbn [run_task T]. rewrite run_body_app.
  set (W := set_timers [] w1).
  assert (HpW : state_of p W = Some Pending) by apply (fresh_after_construct w).
  destruct (run_body_only_later (continuation (HResolveOf p)) (continuation (HRejectOf p))
              (TLater (HResolveOf p) (HRejectOf p)) pre W Hpre) as [more ->].
  set (W' := set_timers _ W).
  assert (HpW' : state_of p W' = Some Pending) by exact HpW.
  assert (Hrest : forall k x,
            settled_as k x p
              match run_body (continuation (HResolveOf p)) (continuation (HRejectOf p))
                      (fun b w => setTimeout (TLater (HResolveOf p) (HRejectOf p) b) w)
                      rest (settle k p x W') with
              | Normal _ w' => w'
              | Raised e w' => set_uncaught (uncaught w' ++ [e]) w'
              end).
  { intros k x.
    pose proof (run_body_later (HResolveOf p) (HRejectOf p) rest (settle k p x W')) as Hl.
    pose proof (settle_settled_as k x p W' HpW') as Hs.
    destruct (run_body _ _ _ rest (settle k p x W')) as [[] w2|e w2]; cbn [world_of] in Hl.
    - by eapply settled_as_later.
    - apply (settled_as_heap k x p w2); [done|]. by eapply settled_as_later. }
  destruct a as [v|r|e|b]; cbn [run_body]; [| | |done].
  - change (continuation (HResolveOf p) v W') with (Normal tt (p_resolve p v W')).
    cbv iota. apply (Hrest OnFulfilled v).
  - change (continuation (HRejectOf p) r W') with (Normal tt (p_reject p r W')).
    cbv iota. apply (Hrest OnRejected r).
  - split; [exact HpW'|]. reflexivity.
Qed.

Lemma deferred_initializer_witness :
  let w1 := world_of (construct (Some [Later ([Later []] ++ Raise (VStr "e") :: [])])
                        empty_world) in
  construct (Some [Later ([Later []] ++ Raise (VStr "e") :: [])]) empty_world
    = Normal 0 w1 /\
  state_of 0 w1 = Some Pending /\
  state_of 0 (run 1 w1) = Some Pending /\
  uncaught (run 1 w1) = [] ++ [VStr "e"].
Proof.
  intros w1.
  apply (deferred_initializer [Later []] (Raise (VStr "e")) [] empty_world).
  - split; reflexivity.
  - repeat constructor.
Defined.

(** What the loop of [race] leaves on a pending container: its state, and
    on its queues whatever was there followed by one reaction of [race] for
    each time the container occurs among the items. *)
Lemma race_pending_queue p k items : forall W q rec,
  Forall (pending_container W) items ->
  heap W !! q = Some rec -> state rec = Pending ->
  exists rec' extra,
    heap (fold_left (race_register p) items W) !! q = Some rec' /\
    state rec' = Pending /\
    queue k rec' = queue k rec ++ extra /\
    Forall (race_reaction_of p k q) extra /\
    (VPromise q ∈ items -> extra <> []).
Proof.
  induction items as [|item rest IH]; intros W q rec Hall Hq Hs.
  - exists rec, []. cbn. rewrite app_nil_r. repeat split; try done.
    intros H. by apply elem_of_nil in H.
  - inversion Hall as [|? ? Hitem Hrest]; subst. cbn [fold_left].
    assert (Hrest' : Forall (pending_container (race_register p W item)) rest).
    { eapply Forall_impl; [exact Hrest|]. intros v.
      apply pending_container_states, race_register_states. }
    destruct item as [| | | | | | | |q'| | |]; try done. cbn in Hitem.
    destruct (state_of_Some _ _ _ Hitem) as (rec'' & Hq' & Hs').
    assert (Hreg : race_register p W (VPromise q') =
                   set_heap (<[q' := registered q' (Some (HRaceItem p)) (Some (HRejectOf p))
                                       (length (heap W)) rec'']>
                               (heap W ++ [fresh_promise])) W).
    { unfold race_register. cbn [Promise_resolve].
      by rewrite (then_pending _ _ _ _ _ Hq' Hs'). }
    rewrite Hreg in *.
    assert (Hlt : q < length (heap W)) by by eapply lookup_lt_Some.
    destruct (decide (q' = q)) as [->|Hne].
    + assert (rec'' = rec) as -> by congruence.
      destruct (IH _ q (registered q (Some (HRaceItem p)) (Some (HRejectOf p))
                          (length (heap W)) rec) Hrest') as (rec' & extra & A & B & C & D & _).
      { cbn. apply list_lookup_insert_eq. rewrite length_app. lia. }
      { done. }
      exists rec', (reaction_of k q (Some (HRaceItem p)) (Some (HRejectOf p))
                      (length (heap W)) :: extra).
      split; [exact A|]. split; [exact B|]. split.
      { rewrite C. destruct k; cbn; by rewrite <- app_assoc. }
      split; [|done].
      constructor; [by eexists | exact D].
    + destruct (IH _ q rec Hrest') as (rec' & extra & A & B & C & D & E).
      { cbn. rewrite list_lookup_insert_ne by done. by apply lookup_app_l_Some. }
      { done. }
      exists rec', extra. repeat split; try done.
      intros Hin. apply E. apply elem_of_cons in Hin as [Heq|Hin]; [congruence|done].
Qed.

(** X15: [race] over pending containers: when one of them is settled
    first, the turn that follows gives the container returned by [race]
    that outcome, the value of a fulfilment as it is, and it keeps it
    whatever is settled or run afterwards. *)
Theorem race_first_settled_wins qs q k x w rec n :
  Forall (fun q' => state_of q' w = Some Pending) qs -> q ∈ qs ->
  heap w !! q = Some rec -> queue k rec = [] -> microtasks w = [] ->
  settled_as k x (fst (Promise_race (map VPromise qs) w))
    (run (S n) (settle k q x (snd (Promise_race (map VPromise qs) w)))).
Proof.
  intros Hall Hin Hq Hk Hm.
  rewrite Promise_race_unfold. cbn [fst snd].
  set (p := length (heap w)). set (W0 := snd (new_Promise w)).
  assert (Hs0 : same_states w W0) by apply preserves_old_states, new_Promise_old.
  assert (Hitems : Forall (pending_container W0) (map VPromise qs)).
  { apply Forall_map. eapply Forall_impl; [exact Hall|]. intros q' Hq'.
    apply (pending_container_states w W0 (VPromise q') Hs0 Hq'). }
  assert (Hs : state rec = Pending).
  { rewrite Forall_forall in Hall. specialize (Hall q Hin).
    unfold state_of in Hall. rewrite Hq in Hall. by injection Hall. }
  assert (Hlt : q < p) by by eapply lookup_lt_Some.
  destruct (race_pending_queue p k (map VPromise qs) W0 q rec Hitems)
    as (rec' & extra & A & B & C & D & E).
  { unfold W0. cbn. by apply lookup_app_l_Some. }
  { done. }
  set (W1 := fold_left (race_register p) (map VPromise qs) W0) in *.
  rewrite Hk in C. cbn [app] in C.
  destruct extra as [|R more]; [exfalso; apply E; [|done]; apply list_elem_of_In, in_map; by apply list_elem_of_In|].
  inversion D as [|? ? [next HR] _]; subst R.
  destruct (race_pending_items p (map VPromise qs) W0 Hitems) as [Hm1 _].
  fold W1 in Hm1.
  assert (HsP : same_states W0 W1).
  { apply fold_left_related;
      [apply same_states_refl | apply same_states_trans | apply race_register_states]. }
  assert (Hp1 : state_of p W1 = Some Pending).
  { rewrite (proj2 HsP) by (unfold W0; cbn; rewrite length_app; cbn; lia).
    apply fresh_after_construct. }
  assert (Hq1 : state_of q W1 = Some Pending).
  { unfold state_of. rewrite A. cbn. by rewrite B. }
  rewrite (settle_pending _ _ _ _ _ A B), C. cbn [map].
  replace (microtasks W1) with (@nil Task) by (rewrite Hm1; done).
  cbn [app run]. unfold turn. cbn [microtasks set_microtasks run_task].
  eapply settled_as_later; [apply run_later|].
  assert (Hql : q < length (heap W1)) by by eapply lookup_lt_Some.
  apply race_reaction.
  - unfold state_of. cbn. rewrite list_lookup_insert_ne by lia. exact Hp1.
  - unfold result_of, reason_of. cbn. rewrite list_lookup_insert_eq by done.
    by destruct k.
Qed.

Lemma race_first_settled_wins_witness :
  let w := mkWorld [fresh_promise; fresh_promise] [] [] [] [] [] [] in
  settled_as OnRejected (VStr "first") (fst (Promise_race (map VPromise [0; 1]) w))
    (run 3 (settle OnRejected 1 (VStr "first") (snd (Promise_race (map VPromise [0; 1]) w)))).
Proof.
  intros w.
  apply (race_first_settled_wins [0; 1] 1 OnRejected (VStr "first") w fresh_promise 2).
  - repeat constructor.
  - apply elem_of_cons. right. apply elem_of_cons. by left.
  - reflexivity.
  - reflexivity.
  - reflexivity.
Defined.

(** ** Relations kept by every step *)

Section StepRelation.
Variable Rel : World -> World -> Prop.
Hypothesis Rel_refl : forall w, Rel w w.
Hypothesis Rel_trans : forall w1 w2 w3, Rel w1 w2 -> Rel w2 w3 -> Rel w1 w3.
Hypothesis Rel_settle : forall k p x w, Rel w (settle k p x w).
Hypothesis Rel_new : forall w, Rel w (snd (new_Promise w)).
Hypothesis Rel_then : forall this onF onR w, Rel w (snd (then_ this onF onR w)).
Hypothesis Rel_latches : forall l w, Rel w (set_latches l w).
Hypothesis Rel_cells : forall c w, Rel w (set_cells c w).
Hypothesis Rel_trace : forall t w, Rel w (set_trace t w).
Hypothesis Rel_uncaught : forall u w, Rel w (set_uncaught u w).
Hypothesis Rel_timer :
  forall onRes onRej b w, Rel w (setTimeout (TLater onRes onRej b) w).
Hypothesis Rel_next_microtask :
  forall t rest w, microtasks w = t :: rest -> Rel w (set_microtasks rest w).
Hypothesis Rel_next_timer :
  forall t rest w, timers w = t :: rest -> Rel w (set_timers rest w).

Lemma rel_resolve p x w : Rel w (p_resolve p x w).
Proof. apply (Rel_settle OnFulfilled). Qed.

Lemma rel_reject p x w : Rel w (p_reject p x w).
Proof. apply (Rel_settle OnRejected). Qed.

Lemma rel_fired_reject l p x w : Rel w (p_reject p x (fire l w)).
Proof. eapply Rel_trans; [apply Rel_latches | apply rel_reject]. Qed.

Lemma rel_resolveNextPromise value :
  forall promise w, Rel w (world_of (resolveNextPromise promise value w)).
Proof.
  revert value.
  apply (Value_adoption_ind (fun value =>
    forall promise w, Rel w (world_of (resolveNextPromise promise value w)))).
  - intros v. destruct v; try exact I; intros promise w; cbn.
    1-4: apply rel_resolve.
    1-4,6: eapply Rel_trans; [apply Rel_latches|];
      eapply Rel_trans; [apply Rel_latches | apply rel_resolve].
    + destruct (Nat.eqb addr promise); cbn; [apply Rel_refl|].
      eapply Rel_trans; [apply Rel_latches | apply Rel_then].
    + eapply Rel_trans; [apply Rel_latches | apply rel_fired_reject].
  - intros body IH promise w. cbn.
    set (l := length (latches w)).
    set (w1 := set_latches _ w).
    assert (H1 : Rel w w1) by apply Rel_latches.
    match goal with
    | |- Rel _ (world_of (match ?rb with _ => _ end)) =>
        assert (Hb : Rel w1 (world_of rb))
    end.
    { apply run_body_related.
      - apply Rel_refl.
      - apply Rel_trans.
      - intros r w0. destruct (fired l w0); cbn; [apply Rel_refl | apply rel_fired_reject].
      - intros b w0. apply Rel_timer.
      - eapply Forall_impl; [exact IH|]. cbn. intros v Hv w0.
        destruct (fired l w0); cbn; [apply Rel_refl|].
        eapply Rel_trans; [apply Rel_latches | apply Hv]. }
    match goal with
    | |- Rel _ (world_of (match ?rb with _ => _ end)) => destruct rb as [[] w2|e w2]
    end; cbn in *.
    + by eapply Rel_trans.
    + destruct (fired l w2); cbn; [by eapply Rel_trans|].
      eapply Rel_trans; [exact H1|]. eapply Rel_trans; [exact Hb | apply rel_fired_reject].
Qed.

Lemma rel_update_cell c f w : Rel w (update_cell c f w).
Proof. unfold update_cell. destruct (cells w !! c); [apply Rel_cells | apply Rel_refl]. Qed.

Lemma rel_record_item c index p entry w : Rel w (record_item c index p entry w).
Proof.
  unfold record_item.
  set (w2 := update_cell c _ (update_cell c _ w)).
  assert (H2 : Rel w w2) by (eapply Rel_trans; apply rel_update_cell).
  destruct (restNum_of c w2 =? 0)%Z; [|done].
  eapply Rel_trans; [exact H2 | apply rel_resolve].
Qed.

Lemma rel_call fn : forall args w, Rel w (world_of (call fn args w)).
Proof.
  revert fn.
  apply (Handler_callback_ind (fun fn => forall args w, Rel w (world_of (call fn args w)))).
  - intros h. destruct h; try exact I; intros args w; cbn.
    + destruct (f args); cbn; apply Rel_trace.
    + apply Rel_refl.
    + apply Rel_refl.
    + destruct (fired latch w); cbn; [apply Rel_refl|].
      pose proof (rel_resolveNextPromise (arg0 args) promise (fire latch w)) as H.
      destruct (resolveNextPromise promise (arg0 args) (fire latch w)); cbn in *;
        (eapply Rel_trans; [apply Rel_latches | exact H]).
    + destruct (fired latch w); cbn; [apply Rel_refl | apply rel_fired_reject].
    + apply rel_resolve.
    + apply rel_reject.
    + apply rel_record_item.
    + apply rel_resolve.
    + apply rel_record_item.
    + apply rel_record_item.
  - intros [cb|] IH args w; cbn; [|apply Rel_refl].
    specialize (IH [] w). by destruct (call cb [] w).
  - intros [cb|] IH args w; cbn; [|apply Rel_refl].
    specialize (IH [] w). by destruct (call cb [] w).
Qed.

Lemma rel_continuation fn v w : Rel w (world_of (continuation fn v w)).
Proof.
  unfold continuation. pose proof (rel_call fn [v] w) as H.
  by destruct (call fn [v] w).
Qed.

Lemma rel_run_body onRes onRej body w :
  Rel w (world_of (run_body (continuation onRes) (continuation onRej)
                     (fun b w => setTimeout (TLater onRes onRej b) w) body w)).
Proof.
  apply run_body_related.
  - apply Rel_refl.
  - apply Rel_trans.
  - intros; apply rel_continuation.
  - intros; apply Rel_timer.
  - apply Forall_forall. intros; apply rel_continuation.
Qed.

Lemma rel_run_reaction r w : Rel w (run_reaction r w).
Proof.
  unfold run_reaction.
  set (arg := match r_kind r with OnFulfilled => _ | OnRejected => _ end).
  pose proof (rel_call (r_handler r) [arg] w) as H.
  destruct (call (r_handler r) [arg] w) as [value w1|e w1]; cbn in H.
  - pose proof (rel_resolveNextPromise value (r_next r) w1) as H1.
    destruct (resolveNextPromise (r_next r) value w1) as [[] w2|e w2]; cbn in H1.
    + by eapply Rel_trans.
    + eapply Rel_trans; [exact H|]. eapply Rel_trans; [exact H1 | apply rel_reject].
  - eapply Rel_trans; [exact H | apply rel_reject].
Qed.

Lemma rel_run_task t w : Rel w (run_task t w).
Proof.
  destruct t as [r|onRes onRej body]; cbn; [apply rel_run_reaction|].
  pose proof (rel_run_body onRes onRej body w) as Hb.
  destruct (run_body _ _ _ body w) as [[] w'|e w']; cbn in *; [done|].
  eapply Rel_trans; [exact Hb | apply Rel_uncaught].
Qed.

Lemma rel_turn w w' : turn w = Some w' -> Rel w w'.
Proof.
  unfold turn. destruct (microtasks w) as [|t rest] eqn:Hm.
  - destruct (timers w) as [|t rest] eqn:Ht; [done|].
    intros [= <-]. eapply Rel_trans; [|apply rel_run_task]. by eapply Rel_next_timer.
  - intros [= <-]. eapply Rel_trans; [|apply rel_run_task]. by eapply Rel_next_microtask.
Qed.

Lemma rel_Promise_resolve value w : Rel w (snd (Promise_resolve value w)).
Proof.
  destruct value; cbn [Promise_resolve];
    try (eapply Rel_trans; [apply Rel_new | apply rel_resolve]).
  - apply Rel_refl.
  - eapply Rel_trans; [apply Rel_new | apply rel_reject].
  - pose proof (rel_run_body (HResolveOf (length (heap w))) (HRejectOf (length (heap w)))
                  body (snd (new_Promise w))) as Hb.
    cbn [new_Promise snd] in *.
    destruct (run_body _ _ _ body _) as [[] w2|e w2]; cbn [snd world_of] in *.
    + eapply Rel_trans; [apply Rel_new | exact Hb].
    + eapply Rel_trans; [apply Rel_new|].
      eapply Rel_trans; [exact Hb | apply rel_reject].
Qed.

Lemma rel_construct executor w : Rel w (world_of (construct executor w)).
Proof.
  destruct executor as [body|]; [|apply Rel_refl].
  pose proof (rel_run_body (HResolveOf (length (heap w))) (HRejectOf (length (heap w)))
                body (snd (new_Promise w))) as Hb.
  cbn [construct new_Promise snd] in *.
  destruct (run_body _ _ _ body _) as [[] w2|e w2]; cbn [world_of] in *.
  - eapply Rel_trans; [apply Rel_new | exact Hb].
  - eapply Rel_trans; [apply Rel_new|].
    eapply Rel_trans; [exact Hb | apply rel_reject].
Qed.

Lemma rel_register_item c onF onR w item : Rel w (register_item c onF onR w item).
Proof.
  unfold register_item.
  set (w1 := update_cell c _ w).
  pose proof (rel_Promise_resolve item w1) as H.
  destruct (Promise_resolve item w1) as [q w2]. cbn [snd] in H.
  eapply Rel_trans; [apply rel_update_cell|].
  eapply Rel_trans; [exact H | apply Rel_then].
Qed.

Lemma rel_combinator onF onR target w :
  let w2 := fold_left (register_item (length (cells w)) onF onR) target
              (snd (new_cell (snd (new_Promise w)))) in
  Rel w (if (restNum_of (length (cells w)) w2 =? 0)%Z
         then p_resolve (length (heap w)) (VArray []) w2 else w2).
Proof.
  intros w2.
  assert (H2 : Rel w w2).
  { eapply Rel_trans; [apply Rel_new|].
    eapply Rel_trans; [apply Rel_cells|].
    apply (fold_left_related Rel); [done|done|]. intros; apply rel_register_item. }
  destruct (restNum_of _ w2 =? 0)%Z; [|done].
  eapply Rel_trans; [exact H2 | apply rel_resolve].
Qed.

Lemma rel_race target w : Rel w (snd (Promise_race target w)).
Proof.
  rewrite Promise_race_unfold. cbn [snd].
  eapply Rel_trans; [apply Rel_new|].
  apply (fold_left_related Rel); [done|done|]. intros w0 item.
  unfold race_register.
  pose proof (rel_Promise_resolve item w0) as H.
  destruct (Promise_resolve item w0) as [q w2]. cbn [snd] in H.
  eapply Rel_trans; [exact H | apply Rel_then].
Qed.

Lemma rel_step w w' : step w w' -> Rel w w'.
Proof.
  intros H. destruct H.
  - apply rel_resolve.
  - apply rel_reject.
  - apply rel_construct.
  - apply Rel_then.
  - apply rel_Promise_resolve.
  - eapply Rel_trans; [apply Rel_new | apply rel_reject].
  - apply (rel_combinator (fun index => HAllItem (length (cells w)) index (length (heap w)))
             (fun _ => HRejectOf (length (heap w))) target w).
  - apply rel_race.
  - apply (rel_combinator
             (fun index => HSettledFulfilled (length (cells w)) index (length (heap w)))
             (fun index => HSettledRejected (length (cells w)) index (length (heap w)))
             target w).
  - by apply rel_turn.
Qed.

Lemma rel_steps w w' : rtc step w w' -> Rel w w'.
Proof.
  induction 1 as [|w1 w2 w3 H12 _ IH]; [apply Rel_refl|].
  eapply Rel_trans; [by apply rel_step | exact IH].
Qed.
End StepRelation.

(** ** Invariants of the reachable worlds *)

Lemma tidy_same_heap w w' : heap w' = heap w -> tidy w -> tidy w'.
Proof. intros H Ht p rec. rewrite H. apply Ht. Qed.

Lemma tidy_settle k p x w : tidy w -> tidy (settle k p x w).
Proof.
  intros Ht. destruct (heap w !! p) as [rec|] eqn:Hp.
  - destruct (state rec) eqn:Hs.
    + rewrite (settle_pending _ _ _ _ _ Hp Hs). intros q rec'. cbn.
      destruct (decide (p = q)) as [->|Hne].
      * rewrite list_lookup_insert_eq by by eapply lookup_lt_Some.
        intros [= <-]. specialize (Ht _ _ Hp). unfold tidy_rec in *. rewrite Hs in Ht.
        destruct Ht. by destruct k.
      * rewrite list_lookup_insert_ne by done. apply Ht.
    + rewrite settle_not_pending; [done|]. unfold state_of. rewrite Hp. cbn. congruence.
    + rewrite settle_not_pending; [done|]. unfold state_of. rewrite Hp. cbn. congruence.
  - rewrite settle_not_pending; [done|]. unfold state_of. by rewrite Hp.
Qed.

Lemma tidy_new w : tidy w -> tidy (snd (new_Promise w)).
Proof.
  intros Ht p rec. cbn. intros Hp.
  apply lookup_app_Some in Hp as [Hp|[_ Hp]]; [by eapply Ht|].
  destruct (p - length (heap w)) as [|n]; [|by destruct n].
  by injection Hp as <-.
Qed.

Lemma tidy_then this onF onR w : tidy w -> tidy (snd (then_ this onF onR w)).
Proof.
  intros Ht. pose proof (tidy_new w Ht) as H1.
  unfold then_. cbn [new_Promise snd] in *.
  set (w1 := set_heap _ w) in *.
  unfold state_of. destruct (heap w1 !! this) as [rec|] eqn:Hp; cbn; [|done].
  destruct (state rec) eqn:Hs; [|done|done].
  rewrite (update_promise_Some _ _ _ _ Hp). intros q rec'. cbn - [w1].
  destruct (decide (this = q)) as [->|Hne].
  - rewrite list_lookup_insert_eq by by eapply lookup_lt_Some.
    intros [= <-]. apply (H1 _ _ Hp).
  - rewrite list_lookup_insert_ne by done. apply H1.
Qed.

(** X16: in every world the program can reach from one where it holds (the
    initial one, for instance), a container holds at most one payload: a
    pending container has neither result nor reason, a fulfilled one has no
    reason and a rejected one no result, whatever the host program calls
    and whatever runs. *)
Theorem one_payload_invariant w w' : tidy w -> rtc step w w' -> tidy w'.
Proof.
  intros Ht Hsteps. revert Ht.
  apply (rel_steps (fun a b => tidy a -> tidy b)); try done.
  - intros w1 w2 w3 H12 H23 H1. auto.
  - intros k p x w0. apply tidy_settle.
  - intros w0. apply tidy_new.
  - intros this onF onR w0. apply tidy_then.
Qed.

Lemma one_payload_invariant_witness :
  tidy (snd (then_ 0 None None (snd (Promise_reject (VNum 1) empty_world)))).
Proof.
  apply (one_payload_invariant empty_world).
  - intros p rec H. destruct p; discriminate H.
  - eapply rtc_l; [apply (step_reject (VNum 1))|].
    apply rtc_once. apply step_then.
Defined.

Lemma due_later w w' t : later_world w w' -> due w t -> due w' t.
Proof.
  intros Hl. destruct t as [r|]; [|done]. cbn. intros Hs.
  apply (settled_forever _ _ _ _ Hl Hs). by destruct (r_kind r).
Qed.

Lemma orderly_same w w' :
  heap w' = heap w -> microtasks w' = microtasks w -> orderly w -> orderly w'.
Proof.
  intros Hh Hm [Hf Hd]. split.
  - intros q rec k r. rewrite Hh. apply Hf.
  - rewrite Hm. eapply Forall_impl; [exact Hd|]. intros t.
    destruct t; [|done]. cbn. unfold state_of. by rewrite Hh.
Qed.

Lemma orderly_settle k p x w : orderly w -> orderly (settle k p x w).
Proof.
  intros [Hf Hd]. destruct (heap w !! p) as [rec|] eqn:Hp.
  - destruct (state rec) eqn:Hs.
    + pose proof (settle_later k p x w) as Hl.
      rewrite (settle_pending _ _ _ _ _ Hp Hs) in *.
      assert (Hlt : p < length (heap w)) by by eapply lookup_lt_Some.
      split.
      * intros q rec' k' r. cbn.
        destruct (decide (p = q)) as [->|Hne].
        -- rewrite list_lookup_insert_eq by done. intros [= <-] Hin.
           apply (Hf q rec k' r Hp).
           destruct k, k'; cbn in *; try done; by apply elem_of_nil in Hin.
        -- rewrite list_lookup_insert_ne by done. apply Hf.
      * cbn [microtasks set_microtasks]. apply Forall_app. split.
        -- eapply Forall_impl; [exact Hd|]. intros t. by apply due_later.
        -- apply Forall_forall. intros t Hin.
           apply list_elem_of_In, in_map_iff in Hin as (r & <- & Hin).
           apply list_elem_of_In in Hin.
           destruct (Hf p rec k r Hp Hin) as [Hthis Hkind]. cbn.
           rewrite Hthis, Hkind. unfold state_of. cbn.
           rewrite list_lookup_insert_eq by done. cbn. by destruct k.
    + rewrite settle_not_pending; [done|]. unfold state_of. rewrite Hp. cbn. congruence.
    + rewrite settle_not_pending; [done|]. unfold state_of. rewrite Hp. cbn. congruence.
  - rewrite settle_not_pending; [done|]. unfold state_of. by rewrite Hp.
Qed.

Lemma orderly_new w : orderly w -> orderly (snd (new_Promise w)).
Proof.
  intros [Hf Hd]. split.
  - intros q rec k r. cbn. intros Hq.
    apply lookup_app_Some in Hq as [Hq|[_ Hq]]; [by eapply Hf|].
    destruct (q - length (heap w)) as [|n]; [|by destruct n].
    injection Hq as <-. intros Hin. destruct k; by apply elem_of_nil in Hin.
  - eapply Forall_impl; [exact Hd|]. intros t. apply due_later, new_Promise_later.
Qed.

Lemma orderly_then this onF onR w : orderly w -> orderly (snd (then_ this onF onR w)).
Proof.
  intros Ho. destruct (orderly_new w Ho) as [Hf Hd].
  unfold then_. cbn [new_Promise snd] in *.
  set (w1 := set_heap _ w) in *.
  unfold state_of. destruct (heap w1 !! this) as [rec|] eqn:Hp; cbn - [w1]; [|done].
  assert (Hlt : this < length (heap w1)) by by eapply lookup_lt_Some.
  destruct (state rec) eqn:Hs.
  - rewrite (update_promise_Some _ _ _ _ Hp). split.
    + intros q rec' k r. cbn - [w1].
      destruct (decide (this = q)) as [->|Hne].
      * rewrite list_lookup_insert_eq by done. intros [= <-] Hin.
        destruct k; cbn in Hin; apply elem_of_app in Hin as [Hin|Hin];
          try (by apply (Hf q rec _ r Hp));
          apply list_elem_of_singleton in Hin; by subst r.
      * rewrite list_lookup_insert_ne by done. apply Hf.
    + cbn - [w1]. eapply Forall_impl; [exact Hd|]. intros t.
      destruct t as [r|]; [|done]. cbn - [w1]. unfold state_of. cbn - [w1].
      destruct (decide (this = r_this r)) as [<-|Hne].
      * rewrite Hp. cbn. rewrite Hs. by destruct (r_kind r).
      * by rewrite list_lookup_insert_ne.
  - split; [exact Hf|]. unfold createMicroTask. cbn - [w1].
    apply Forall_app. split; [exact Hd|]. constructor; [|done].
    cbn - [w1]. unfold state_of. cbn - [w1]. rewrite Hp. cbn. by rewrite Hs.
  - split; [exact Hf|]. unfold createMicroTask. cbn - [w1].
    apply Forall_app. split; [exact Hd|]. constructor; [|done].
    cbn - [w1]. unfold state_of. cbn - [w1]. rewrite Hp. cbn. by rewrite Hs.
Qed.

Lemma orderly_steps w w' : orderly w -> rtc step w w' -> orderly w'.
Proof.
  intros Ho Hsteps. revert Ho.
  apply (rel_steps (fun a b => orderly a -> orderly b)).
  - done.
  - intros w1 w2 w3 H12 H23 H1. auto.
  - intros k p x w0. apply orderly_settle.
  - intros w0. apply orderly_new.
  - intros this onF onR w0. apply orderly_then.
  - intros l w0. by apply orderly_same.
  - intros c w0. by apply orderly_same.
  - intros t w0. by apply orderly_same.
  - intros u w0. by apply orderly_same.
  - intros onRes onRej b w0. by apply orderly_same.
  - intros t rest w0 Hm [Hf Hd]. split; [exact Hf|].
    cbn. rewrite Hm in Hd. by inversion Hd.
  - intros t rest w0 _. by apply orderly_same.
  - exact Hsteps.
Qed.

(** X17: no reaction runs before its container is settled.  In every
    world the program can reach from an orderly one (the initial one, for
    instance), a reaction kept on a queue of a container belongs to that
    container and to that queue's transition, and a reaction scheduled on
    the host's queue is one whose container has taken the reaction's
    transition: the handler it calls is given the payload of a settled
    container. *)
Theorem reactions_wait_for_settlement w w' :
  orderly w -> rtc step w w' ->
  orderly w' /\
  forall r rest, microtasks w' = TReaction r :: rest ->
    state_of (r_this r) w' = Some (target_state (r_kind r)).
Proof.
  intros Ho Hsteps. pose proof (orderly_steps w w' Ho Hsteps) as Ho'.
  split; [exact Ho'|]. intros r rest Hm. destruct Ho' as [_ Hd].
  rewrite Hm in Hd. by inversion Hd.
Qed.

Lemma reactions_wait_for_settlement_witness :
  let w' := snd (then_ 0 None None (snd (Promise_reject (VNum 1) empty_world))) in
  orderly w' /\
  forall r rest, microtasks w' = TReaction r :: rest ->
    state_of (r_this r) w' = Some (target_state (r_kind r)).
Proof.
  intros w'.
  apply (reactions_wait_for_settlement empty_world).
  - split; [|constructor]. intros q rec k r H. destruct q; discriminate H.
  - eapply rtc_l; [apply (step_reject (VNum 1))|].
    apply rtc_once. apply step_then.
Defined.

(** ** A handler that returns the container being resolved *)

(** X18: when the function [then] calls for the transition taken returns
    the very container that [then] call returned, that container is
    rejected with the TypeError of the cycle check, on either settlement
    path; the function has been called once, with the payload. *)
Theorem then_self_cycle_rejected k this x onF onR tag f w rec w' :
  heap w !! this = Some rec -> microtasks w = [] ->
  handler_of k (onF, onR) = HostFn tag f ->
  then_outcomes k this x onF onR w rec w' ->
  f [x] = Return (VPromise (length (heap w))) ->
  state_of (length (heap w)) w' = Some Rejected /\
  reason_of (length (heap w)) w' = cycle_error /\
  trace w' = trace w ++ [(tag, [x])].
Proof.
  intros Hp Hq Hh Hout Hf.
  destruct (then_outcome_reaction _ _ _ _ _ _ _ _ Hp Hq Hout)
    as (w0 & -> & Hnext & _ & Ht & _ & _ & _ & _ & Hx).
  pose proof (fresh_is_pending _ _ Hnext) as Hpend.
  assert (Harg : reaction_arg (reaction_of k this onF onR (length (heap w))) w0 = x).
  { unfold reaction_arg. destruct k; exact Hx. }
  assert (Htr : trace (run_reaction (reaction_of k this onF onR (length (heap w))) w0)
                = trace w ++ [(tag, [x])]).
  { by rewrite run_reaction_trace, reaction_handler, Hh, Ht, Harg. }
  assert (Hrun : run_reaction (reaction_of k this onF onR (length (heap w))) w0
                 = p_reject (length (heap w)) cycle_error (log_call tag [x] w0)).
  { unfold run_reaction.
    fold (reaction_arg (reaction_of k this onF onR (length (heap w))) w0).
    rewrite reaction_handler, Hh, Harg. cbn [call r_next reaction_of]. rewrite Hf.
    cbn [resolveNextPromise]. by rewrite Nat.eqb_refl. }
  split; [|split; [|exact Htr]]; rewrite Hrun;
    by apply (settle_takes_effect OnRejected (length (heap w)) cycle_error).
Qed.

Lemma then_self_cycle_rejected_witness :
  let w := mkWorld [mkPromise Fulfilled (VNum 1) VUndefined [] []] [] [] [] [] [] [] in
  let f := fun _ : list Value => Return (VPromise 1) in
  state_of 1 (run 1 (snd (then_ 0 (Some (HostFn 3 f)) None w))) = Some Rejected /\
  reason_of 1 (run 1 (snd (then_ 0 (Some (HostFn 3 f)) None w))) = cycle_error /\
  trace (run 1 (snd (then_ 0 (Some (HostFn 3 f)) None w))) = [] ++ [(3, [VNum 1])].
Proof.
  intros w f.
  apply (then_self_cycle_rejected OnFulfilled 0 (VNum 1) (Some (HostFn 3 f)) None 3 f w
           (mkPromise Fulfilled (VNum 1) VUndefined [] [])).
  - reflexivity.
  - reflexivity.
  - reflexivity.
  - left. repeat split.
  - reflexivity.
Defined.

(** * [finally]: what is forwarded *)

(** C6, as the code has it: the callback is called with no arguments on
    either path and its return value is discarded, whatever it is; the
    returned container is rejected with the original reason on the rejection
    path and, on the fulfilment path, fulfilled with the original result
    whenever that result is not a container, a thenable or an object whose
    [then] cannot be read (arrays, plain objects and errors are forwarded
    as they are). *)
Theorem finally_forwards k this x tag f v w rec w' :
  f [] = Return v ->
  heap w !! this = Some rec -> microtasks w = [] ->
  finally_outcomes k this x tag f w rec w' ->
  (k = OnFulfilled -> plain x = true) ->
  let next := fst (finally_ this (Some (HostFn tag f)) w) in
  state_of next w' = Some (target_state k) /\
  match k with OnFulfilled => result_of next w' | OnRejected => reason_of next w' end = x /\
  trace w' = trace w ++ [(tag, [])].
Proof.
  intros Hf Hp Hq Hout Hplain next.
  destruct (finally_outcome_reaction _ _ _ _ _ _ _ _ Hp Hq Hout) as (w0 & -> & Hnext & Ht & Hx).
  replace next with (length (heap w)) by reflexivity.
  rewrite run_finally_reaction, Hf.
  destruct k; rewrite Hx.
  - destruct (resolve_plain_pending (length (heap w)) x (log_call tag [] w0)
                (Hplain eq_refl) Hnext) as (A & B & C).
    destruct (proj2 (resolveNextPromise_plain (length (heap w)) x (log_call tag [] w0)
                       (Hplain eq_refl))) as [w2 Hw2].
    rewrite Hw2 in *. cbn [world_of] in *.
    split; [exact A|]. split; [exact B|]. rewrite C. cbn. by rewrite Ht.
  - destruct (settle_takes_effect OnRejected (length (heap w)) x (log_call tag [] w0) Hnext)
      as [Hs Hr].
    split; [exact Hs|]. split; [exact Hr|].
    rewrite (q_trace _ _ (p_reject_quiet _ _ _)). cbn. by rewrite Ht.
Qed.

(** A rejected container whose [finally] callback returns a rejecting
    thenable, and a container fulfilled with an array. *)
Lemma finally_forwards_witness :
  (let f := fun _ : list Value => Return (VThenable [CallReject (VStr "boom")]) in
   let w := snd (Promise_reject (VStr "why") empty_world) in
   let w' := run 1 (snd (finally_ 0 (Some (HostFn 3 f)) w)) in
   state_of 1 w' = Some Rejected /\ reason_of 1 w' = VStr "why" /\ trace w' = [(3, [])]) /\
  (let f := fun _ : list Value => Return (VNum 0) in
   let w := snd (Promise_resolve (VArray [VNum 1; VStr "a"]) empty_world) in
   let w' := run 1 (snd (finally_ 0 (Some (HostFn 3 f)) w)) in
   state_of 1 w' = Some Fulfilled /\ result_of 1 w' = VArray [VNum 1; VStr "a"] /\
   trace w' = [(3, [])]).
Proof.
  split.
  - intros f w w'.
    apply (finally_forwards OnRejected 0 (VStr "why") 3 f
             (VThenable [CallReject (VStr "boom")]) w
             (mkPromise Rejected VUndefined (VStr "why") [] []) w').
    + reflexivity.
    + reflexivity.
    + reflexivity.
    + left. repeat split.
    + discriminate.
  - intros f w w'.
    apply (finally_forwards OnFulfilled 0 (VArray [VNum 1; VStr "a"]) 3 f (VNum 0) w
             (mkPromise Fulfilled (VArray [VNum 1; VStr "a"]) VUndefined [] []) w').
    + reflexivity.
    + reflexivity.
    + reflexivity.
    + left. repeat split.
    + reflexivity.
Defined.

(** * The two queues of a container *)

Lemma settle_timers k p x w : timers (settle k p x w) = timers w.
Proof.
  destruct (heap w !! p) as [rec|] eqn:Hp.
  - destruct (state rec) eqn:Hs.
    + by rewrite (settle_pending _ _ _ _ _ Hp Hs).
    + rewrite settle_not_pending; [done|]. unfold state_of. rewrite Hp. cbn. congruence.
    + rewrite settle_not_pending; [done|]. unfold state_of. rewrite Hp. cbn. congruence.
  - rewrite settle_not_pending; [done|]. unfold state_of. by rewrite Hp.
Qed.

Lemma then_timers this onF onR w : timers (snd (then_ this onF onR w)) = timers w.
Proof.
  unfold then_. cbn [new_Promise snd]. set (w1 := set_heap _ w).
  unfold state_of. destruct (heap w1 !! this) as [rec|] eqn:Hp; cbn - [w1]; [|done].
  destruct (state rec); [|done|done].
  by rewrite (update_promise_Some _ _ _ _ Hp).
Qed.

Lemma timers_hold_no_reaction_steps w w' :
  timers_hold_no_reaction w -> rtc step w w' -> timers_hold_no_reaction w'.
Proof.
  intros Hw Hsteps. revert Hw. unfold timers_hold_no_reaction.
  apply (rel_steps (fun a b =>
    Forall (fun t => match t with TLater _ _ _ => True | TReaction _ => False end) (timers a) ->
    Forall (fun t => match t with TLater _ _ _ => True | TReaction _ => False end) (timers b))).
  - done.
  - intros w1 w2 w3 H12 H23 H1. auto.
  - intros k p x w0. by rewrite settle_timers.
  - done.
  - intros this onF onR w0. by rewrite then_timers.
  - done.
  - done.
  - done.
  - done.
  - intros onRes onRej b w0 H. unfold setTimeout. cbn. apply Forall_app. by split; [|constructor].
  - done.
  - intros t rest w0 Ht H. cbn. rewrite Ht in H. by inversion H.
  - exact Hsteps.
Qed.

Lemma orderly_empty : orderly empty_world.
Proof. split; [|constructor]. intros q rec k r H. destruct q; discriminate H. Qed.

(** C9, as the code has it: [then] appends one entry to each queue exactly
    when the container is pending; a settlement of a pending container hands
    the entries of the queue of its transition to the host in FIFO order,
    once each, and leaves that queue empty and the other queue as it was; a
    container that has left pending keeps its record, queues included, for
    ever, so the drained queue stays empty and the other one is never
    appended to again; and an entry left on the other queue is never handed
    to the host, on the queue of deferred turns or on a timer, so it is
    never invoked. *)
Theorem reaction_queues :
  (forall this onF onR w rec, heap w !! this = Some rec ->
     heap (snd (then_ this onF onR w)) !! this =
     Some (match state rec with
           | Pending => registered this onF onR (length (heap w)) rec
           | _ => rec
           end)) /\
  (forall k p x w rec, heap w !! p = Some rec -> state rec = Pending ->
     settle k p x w =
     set_microtasks (microtasks w ++ map TReaction (queue k rec))
                    (set_heap (<[p := settled k x rec]> (heap w)) w)) /\
  (forall w w' p rec, rtc step w w' ->
     heap w !! p = Some rec -> state rec <> Pending -> heap w' !! p = Some rec) /\
  (forall w, rtc step empty_world w -> drained w) /\
  (forall w q rec k r, rtc step empty_world w ->
     heap w !! q = Some rec -> state rec = target_state k -> r ∈ queue (other k) rec ->
     (TReaction r ∉ microtasks w) /\ (TReaction r ∉ timers w)).
Proof.
  split; [|split; [|split; [|split]]].
  - intros this onF onR w rec Hp.
    assert (Hlt : this < length (heap w)) by by eapply lookup_lt_Some.
    destruct (state rec) eqn:Hs.
    + rewrite (then_pending _ _ _ _ _ Hp Hs). cbn.
      rewrite list_lookup_insert_eq; [done|]. rewrite length_app. lia.
    + apply (lw_settled _ _ (then_later this onF onR w)); [done|congruence].
    + apply (lw_settled _ _ (then_later this onF onR w)); [done|congruence].
  - intros. by apply settle_pending.
  - intros w w' p rec Hsteps. apply lw_settled. by apply steps_later.
  - intros w Hsteps. eapply drained_later; [apply drained_empty | by apply steps_later].
  - intros w q rec k r Hsteps Hq Hs Hin.
    destruct (orderly_steps _ _ orderly_empty Hsteps) as [Hf Hd].
    destruct (Hf q rec (other k) r Hq Hin) as [Hthis Hkind].
    split.
    + intros Hm. rewrite Forall_forall in Hd. specialize (Hd _ Hm). cbn in Hd.
      rewrite Hthis, Hkind in Hd. unfold state_of in Hd. rewrite Hq in Hd. cbn in Hd.
      rewrite Hs in Hd. by destruct k.
    + intros Ht.
      assert (H0 : timers_hold_no_reaction empty_world) by constructor.
      pose proof (timers_hold_no_reaction_steps _ _ H0 Hsteps) as Hno.
      unfold timers_hold_no_reaction in Hno. rewrite Forall_forall in Hno.
      apply (Hno _ Ht).
Qed.

(** A container on which [then] is called while it is pending, rejected
    afterwards: the entry of the rejection queue is handed to the host, the
    one of the fulfilment queue stays where it is and is not run by the
    turns that follow. *)
Lemma reaction_queues_witness :
  let w0 := snd (new_Promise empty_world) in
  let w1 := snd (then_ 0 None None w0) in
  let w2 := p_reject 0 (VStr "no") w1 in
  heap w1 !! 0 = Some (registered 0 None None 1 fresh_promise) /\
  w2 = set_microtasks [TReaction (reaction_of OnRejected 0 None None 1)]
         (set_heap (<[0 := settled OnRejected (VStr "no")
                              (registered 0 None None 1 fresh_promise)]> (heap w1)) w1) /\
  heap (snd (then_ 0 None None w2)) !! 0 =
    Some (settled OnRejected (VStr "no") (registered 0 None None 1 fresh_promise)) /\
  drained w2 /\
  ((TReaction (reaction_of OnFulfilled 0 None None 1) ∉ microtasks w2) /\
   (TReaction (reaction_of OnFulfilled 0 None None 1) ∉ timers w2)).
Proof.
  intros w0 w1 w2.
  assert (Hreach : rtc step empty_world w2).
  { eapply rtc_l; [apply (step_construct (Some []))|].
    eapply rtc_l; [apply (step_then 0 None None)|].
    eapply rtc_l; [apply (step_settleRejected 0 (VStr "no"))|]. apply rtc_refl. }
  split; [|split; [|split; [|split]]].
  - apply (proj1 reaction_queues 0 None None w0 fresh_promise). reflexivity.
  - apply (proj1 (proj2 reaction_queues) OnRejected 0 (VStr "no") w1
             (registered 0 None None 1 fresh_promise)); reflexivity.
  - apply (proj1 (proj2 (proj2 reaction_queues)) w2 (snd (then_ 0 None None w2)) 0).
    + apply rtc_once, step_then.
    + reflexivity.
    + discriminate.
  - apply (proj1 (proj2 (proj2 (proj2 reaction_queues)))). exact Hreach.
  - apply (proj2 (proj2 (proj2 (proj2 reaction_queues))) w2 0
             (settled OnRejected (VStr "no") (registered 0 None None 1 fresh_promise))
             OnRejected).
    + exact Hreach.
    + reflexivity.
    + reflexivity.
    + apply list_elem_of_singleton. reflexivity.
Defined.

(** * Registration by [then], [catch] and [finally] *)

Lemma register_as_then this reg w :
  register this reg w = then_ this (fst (then_arguments reg)) (snd (then_arguments reg)) w.
Proof. by destruct reg. Qed.

Lemma register_each_as_then this regs : forall w,
  register_each this regs w = register_all this (map then_arguments regs) w.
Proof.
  induction regs as [|reg rest IH]; intros w; [done|].
  cbn [register_each register_all fold_left map]. rewrite register_as_then. apply IH.
Qed.

Lemma registration_reaction_as_then k this reg next :
  registration_reaction k this reg next =
  reaction_of k this (fst (then_arguments reg)) (snd (then_arguments reg)) next.
Proof. by destruct reg, k. Qed.

Lemma expected_calls_as_then k x regs :
  expected_calls k x regs = calls_in_order k x (map then_arguments regs).
Proof.
  unfold expected_calls, calls_in_order.
  induction regs as [|reg rest IH]; [done|]. cbn [map concat]. rewrite IH. f_equal.
  destruct reg as [[f|] [g|]|[g|]|[cb|]], k; reflexivity.
Qed.

Lemma reactions_from_take k this j hs : forall next,
  reactions_from k this next (take j hs) = take j (reactions_from k this next hs).
Proof.
  revert j. induction hs as [|h rest IH]; intros [|j] next; cbn; try done.
  by rewrite IH.
Qed.

Lemma reactions_from_split k this j hs next :
  map TReaction (reactions_from k this next hs) =
  map TReaction (reactions_from k this next (take j hs)) ++
  map TReaction (drop j (reactions_from k this next hs)).
Proof. by rewrite reactions_from_take, <- map_app, take_drop. Qed.

(** C5: a call of [then], [catch] or [finally] calls no handler, whatever
    the state of the container.  On a settled container it puts exactly one
    reaction, the one of the method called, at the back of the host's queue;
    on a pending container it schedules nothing and files that reaction on
    both queues of the container.  The functions registered on one
    container by any sequence of such calls, before or after it settles, are
    called on later turns, one per turn, in the order of the calls: after
    [j] turns exactly those of the first [j] calls have been called, with
    the payload (the callback of [finally] with no argument). *)
Theorem reactions_deferred :
  (forall this reg w, trace (snd (register this reg w)) = trace w) /\
  (forall k this reg w rec,
     heap w !! this = Some rec -> state rec = target_state k ->
     microtasks (snd (register this reg w)) =
     microtasks w ++ [TReaction (registration_reaction k this reg (length (heap w)))]) /\
  (forall this reg w rec,
     heap w !! this = Some rec -> state rec = Pending ->
     microtasks (snd (register this reg w)) = microtasks w /\
     heap (snd (register this reg w)) !! this =
     Some (mkPromise Pending (result rec) (reason rec)
             (onFulfilledCallbacks rec ++
                [registration_reaction OnFulfilled this reg (length (heap w))])
             (onRejectedCallbacks rec ++
                [registration_reaction OnRejected this reg (length (heap w))]))) /\
  (forall k this regs j w rec,
     heap w !! this = Some rec -> state rec = target_state k -> microtasks w = [] ->
     j <= length regs ->
     trace (register_each this regs w) = trace w /\
     trace (run j (register_each this regs w)) =
     trace w ++ expected_calls k (payload k rec) (take j regs)) /\
  (forall k this x regs j w rec,
     heap w !! this = Some rec -> state rec = Pending -> queue k rec = [] ->
     microtasks w = [] -> j <= length regs ->
     trace (settle k this x (register_each this regs w)) = trace w /\
     trace (run j (settle k this x (register_each this regs w))) =
     trace w ++ expected_calls k x (take j regs)).
Proof.
  split; [|split; [|split; [|split]]].
  - intros this reg w. rewrite register_as_then. apply (q_trace _ _ (then_quiet _ _ _ _)).
  - intros k this reg w rec Hp Hs.
    by rewrite register_as_then, (then_settled _ _ _ _ _ _ Hp Hs), registration_reaction_as_then.
  - intros this reg w rec Hp Hs.
    assert (Hlt : this < length (heap w)) by by eapply lookup_lt_Some.
    rewrite register_as_then, (then_pending _ _ _ _ _ Hp Hs), !registration_reaction_as_then.
    split; [done|]. cbn. rewrite list_lookup_insert_eq by (rewrite length_app; lia).
    unfold registered. by rewrite Hs.
  - intros k this regs j w rec Hp Hs Hq Hj.
    rewrite register_each_as_then, expected_calls_as_then, <- firstn_map.
    set (hs := map then_arguments regs).
    assert (Hjh : j <= length hs) by (unfold hs; by rewrite length_map).
    destruct (register_all_settled k this rec hs w Hp Hs) as (Hm & Ht & Hh).
    split; [done|].
    replace j with (length (reactions_from k this (length (heap w)) (take j hs))) at 1
      by (rewrite reactions_from_length, length_take; lia).
    rewrite (run_reactions k this rec _ _
               (map TReaction (drop j (reactions_from k this (length (heap w)) hs)))
               (reactions_from_spec _ _ _ _) Hh).
    + by rewrite Ht, reactions_from_logged.
    + rewrite Hs. by destruct k.
    + rewrite Hm, Hq. cbn [app]. apply reactions_from_split.
  - intros k this x regs j w rec Hp Hs Hk Hq Hj.
    rewrite register_each_as_then, expected_calls_as_then, <- firstn_map.
    set (hs := map then_arguments regs).
    assert (Hjh : j <= length hs) by (unfold hs; by rewrite length_map).
    destruct (register_all_pending this hs w rec Hp Hs) as (Hh & Hm & Ht).
    match type of Hh with _ = Some ?r => set (rec' := r) in * end.
    rewrite (settle_pending _ _ _ _ rec' Hh eq_refl).
    split; [exact Ht|].
    set (rs := reactions_from k this (length (heap w)) (take j hs)).
    replace j with (length rs) at 1
      by (unfold rs; rewrite reactions_from_length, length_take; lia).
    assert (Hlt : this < length (heap (register_all this hs w))) by by eapply lookup_lt_Some.
    rewrite (run_reactions k this (settled k x rec') rs _
               (map TReaction (drop j (reactions_from k this (length (heap w)) hs)))
               (reactions_from_spec _ _ _ _)).
    + cbn [trace set_microtasks set_heap]. rewrite Ht. f_equal.
      unfold rs. rewrite <- (reactions_from_logged k this x (take j hs) (length (heap w))).
      by destruct k.
    + cbn [heap set_microtasks set_heap]. by apply list_lookup_insert_eq.
    + by destruct k.
    + cbn [microtasks set_microtasks]. rewrite Hm, Hq. cbn [app].
      unfold rs. rewrite <- reactions_from_split.
      f_equal. unfold rec'. destruct k; cbn in *; by rewrite Hk.
Qed.

(** Three registrations, by [then], [catch] and [finally], on a fulfilled
    container and on a pending one that is rejected afterwards. *)
Lemma reactions_deferred_witness :
  let first := HostFn 1 (fun _ => Return (VStr "a")) in
  let second := HostFn 2 (fun _ => Throw (VStr "b")) in
  let third := HostFn 3 (fun _ => Return VUndefined) in
  let regs := [ByThen (Some first) None; ByCatch (Some second); ByFinally (Some third)] in
  let settled := snd (Promise_resolve (VNum 7) empty_world) in
  let pending := snd (new_Promise empty_world) in
  microtasks (snd (register 0 (ByFinally (Some third)) settled)) =
    microtasks settled ++
    [TReaction (registration_reaction OnFulfilled 0 (ByFinally (Some third)) 1)] /\
  (microtasks (snd (register 0 (ByCatch (Some second)) pending)) = microtasks pending /\
   heap (snd (register 0 (ByCatch (Some second)) pending)) !! 0 =
     Some (mkPromise Pending VUndefined VUndefined
             ([] ++ [registration_reaction OnFulfilled 0 (ByCatch (Some second)) 1])
             ([] ++ [registration_reaction OnRejected 0 (ByCatch (Some second)) 1]))) /\
  (trace (register_each 0 regs settled) = trace settled /\
   trace (run 3 (register_each 0 regs settled)) =
     trace settled ++ expected_calls OnFulfilled (VNum 7) (take 3 regs)) /\
  (trace (settle OnRejected 0 (VStr "no") (register_each 0 regs pending)) = trace pending /\
   trace (run 2 (settle OnRejected 0 (VStr "no") (register_each 0 regs pending))) =
     trace pending ++ expected_calls OnRejected (VStr "no") (take 2 regs)).
Proof.
  intros first second third regs settled pending. split; [|split; [|split]].
  - apply (proj1 (proj2 reactions_deferred) OnFulfilled 0 (ByFinally (Some third)) settled
             (mkPromise Fulfilled (VNum 7) VUndefined [] [])); reflexivity.
  - apply (proj1 (proj2 (proj2 reactions_deferred)) 0 (ByCatch (Some second)) pending
             fresh_promise); reflexivity.
  - apply (proj1 (proj2 (proj2 (proj2 reactions_deferred))) OnFulfilled 0 regs 3 settled
             (mkPromise Fulfilled (VNum 7) VUndefined [] [])); try reflexivity; cbn; lia.
  - apply (proj2 (proj2 (proj2 (proj2 reactions_deferred))) OnRejected 0 (VStr "no") regs 2
             pending fresh_promise); try reflexivity; cbn; lia.
Defined.

(** * The single-call latch *)







(** A thenable whose [then] hands over a pending container and then calls
    the other continuation: the second call is ignored, the adopting
    container is still pending. *)
Example second_call_is_ignored :
  let w := snd (new_Promise (snd (new_Promise empty_world))) in
  let t := VThenable [CallResolve (VPromise 0); CallReject (VStr "second")] in
  state_of 1 (world_of (resolveNextPromise 1 t w)) = Some Pending /\
  state_of 1 (run 5 (p_resolve 0 (VNum 7) (world_of (resolveNextPromise 1 t w))))
    = Some Fulfilled /\
  result_of 1 (run 5 (p_resolve 0 (VNum 7) (world_of (resolveNextPromise 1 t w)))) = VNum 7.
Proof. repeat split. Qed.

(** * The combinators and thenables that hand on thenables *)




